(** * Space Invaders (SDL2): the game-state update loop of [space_invaders.c]

    A shallow embedding of the simulation core of the program: the collision
    predicate, [resetGame], the key-event switch and the per-frame logic of
    [main], followed by the properties of the design description that are
    checked against it.  The rest of the program, which reads the state and
    never writes it, is embedded as the sequence of its library calls: the
    start and the cleanup of [main], [loadTexture], [renderText] and the
    drawing of a frame. *)

From Stdlib Require Import ZArith Lia Bool List Ascii.
From stdpp Require Import base list strings.

Local Open Scope Z_scope.

(** ** C [int] arithmetic

    An [int] is a 32-bit two's-complement integer, carried as a [Z].  Every
    arithmetic operator of the source is followed by [wrap], which is what the
    compiled program computes; ISO C leaves signed overflow undefined, so the
    theorems that speak about the mathematical value of a sum assume that the
    sum [fits]. *)

Definition INT_MIN : Z := - 2 ^ 31.
Definition INT_MAX : Z := 2 ^ 31 - 1.

Definition fits (z : Z) : Prop := INT_MIN <= z <= INT_MAX.

Definition wrap (z : Z) : Z := (z + 2 ^ 31) mod 2 ^ 32 - 2 ^ 31.

Definition iadd (a b : Z) : Z := wrap (a + b).
Definition isub (a b : Z) : Z := wrap (a - b).
Definition imul (a b : Z) : Z := wrap (a * b).
Definition ineg (a : Z) : Z := wrap (- a).
(** C division truncates toward zero. *)
Definition idiv (a b : Z) : Z := wrap (Z.quot a b).

(** ** Constants ([#define]s) *)

Definition WINDOW_WIDTH : Z := 640.
Definition WINDOW_HEIGHT : Z := 480.

Definition PLAYER_SPEED : Z := 5.
Definition PLAYER_WIDTH : Z := 32.
Definition PLAYER_HEIGHT : Z := 32.
Definition PLAYER_LIVES : Z := 3.

Definition BULLET_SPEED : Z := 7.
Definition BULLET_WIDTH : Z := 4.
Definition BULLET_HEIGHT : Z := 10.
Definition MAX_BULLETS : nat := 5.

Definition ALIEN_COUNT : nat := 8.
Definition ALIEN_WIDTH : Z := 32.
Definition ALIEN_HEIGHT : Z := 32.
Definition ALIEN_START_X : Z := 50.
Definition ALIEN_START_Y : Z := 50.
Definition ALIEN_SPACING : Z := 50.
Definition ALIEN_SPEED : Z := 1.
Definition ALIEN_DESCENT : Z := 20.

(** ** Data structures *)

Record Player := mkPlayer {
  p_x : Z; p_y : Z;
  p_w : Z; p_h : Z;
  p_vx : Z
}.

Record Bullet := mkBullet {
  b_x : Z; b_y : Z;
  b_w : Z; b_h : Z;
  b_active : bool
}.

Record Alien := mkAlien {
  a_x : Z; a_y : Z;
  a_w : Z; a_h : Z;
  a_active : bool
}.

(** The simulation state: the three entities [main] owns on its stack and the
    game-logic globals.  ([gRunning] only ends the outer loop and
    [allAliensDead] is recomputed in every iteration before it is read; they
    are part of [Loop] below.) *)
Record Game := mkGame {
  player : Player;
  bullets : list Bullet;
  aliens : list Alien;
  gGameOver : bool;
  gLives : Z;
  gScore : Z;
  gAlienMoveDir : Z
}.

(** Field assignments. *)
Definition set_p_x (v : Z) (p : Player) : Player :=
  mkPlayer v (p_y p) (p_w p) (p_h p) (p_vx p).
Definition set_p_y (v : Z) (p : Player) : Player :=
  mkPlayer (p_x p) v (p_w p) (p_h p) (p_vx p).
Definition set_p_w (v : Z) (p : Player) : Player :=
  mkPlayer (p_x p) (p_y p) v (p_h p) (p_vx p).
Definition set_p_h (v : Z) (p : Player) : Player :=
  mkPlayer (p_x p) (p_y p) (p_w p) v (p_vx p).
Definition set_p_vx (v : Z) (p : Player) : Player :=
  mkPlayer (p_x p) (p_y p) (p_w p) (p_h p) v.

Definition set_b_x (v : Z) (b : Bullet) : Bullet :=
  mkBullet v (b_y b) (b_w b) (b_h b) (b_active b).
Definition set_b_y (v : Z) (b : Bullet) : Bullet :=
  mkBullet (b_x b) v (b_w b) (b_h b) (b_active b).
Definition set_b_w (v : Z) (b : Bullet) : Bullet :=
  mkBullet (b_x b) (b_y b) v (b_h b) (b_active b).
Definition set_b_h (v : Z) (b : Bullet) : Bullet :=
  mkBullet (b_x b) (b_y b) (b_w b) v (b_active b).
Definition set_b_active (v : bool) (b : Bullet) : Bullet :=
  mkBullet (b_x b) (b_y b) (b_w b) (b_h b) v.

Definition set_a_x (v : Z) (a : Alien) : Alien :=
  mkAlien v (a_y a) (a_w a) (a_h a) (a_active a).
Definition set_a_y (v : Z) (a : Alien) : Alien :=
  mkAlien (a_x a) v (a_w a) (a_h a) (a_active a).
Definition set_a_w (v : Z) (a : Alien) : Alien :=
  mkAlien (a_x a) (a_y a) v (a_h a) (a_active a).
Definition set_a_h (v : Z) (a : Alien) : Alien :=
  mkAlien (a_x a) (a_y a) (a_w a) v (a_active a).
Definition set_a_active (v : bool) (a : Alien) : Alien :=
  mkAlien (a_x a) (a_y a) (a_w a) (a_h a) v.

Definition with_player (p : Player) (s : Game) : Game :=
  mkGame p (bullets s) (aliens s) (gGameOver s) (gLives s) (gScore s)
    (gAlienMoveDir s).
Definition with_bullets (bs : list Bullet) (s : Game) : Game :=
  mkGame (player s) bs (aliens s) (gGameOver s) (gLives s) (gScore s)
    (gAlienMoveDir s).
Definition with_aliens (al : list Alien) (s : Game) : Game :=
  mkGame (player s) (bullets s) al (gGameOver s) (gLives s) (gScore s)
    (gAlienMoveDir s).
Definition with_gGameOver (v : bool) (s : Game) : Game :=
  mkGame (player s) (bullets s) (aliens s) v (gLives s) (gScore s)
    (gAlienMoveDir s).
Definition with_gLives (v : Z) (s : Game) : Game :=
  mkGame (player s) (bullets s) (aliens s) (gGameOver s) v (gScore s)
    (gAlienMoveDir s).
Definition with_gScore (v : Z) (s : Game) : Game :=
  mkGame (player s) (bullets s) (aliens s) (gGameOver s) (gLives s) v
    (gAlienMoveDir s).
Definition with_gAlienMoveDir (v : Z) (s : Game) : Game :=
  mkGame (player s) (bullets s) (aliens s) (gGameOver s) (gLives s) (gScore s)
    v.

(** Array reads [bullets[i]], [aliens[i]].  Every index of the source is a
    loop counter below the array's declared size; outside the list the read
    gives the all-zero inactive slot. *)
Global Instance Bullet_inhabited : Inhabited Bullet :=
  populate (mkBullet 0 0 0 0 false).
Global Instance Alien_inhabited : Inhabited Alien :=
  populate (mkAlien 0 0 0 0 false).

(** ** [for] loops with [break]

    [for_loop n i body s] runs [body] at the indices [i], [i+1], ...,
    [i+n-1]; the body returns the new state and [true] when it leaves the
    loop by [break].  A [continue] is a body that returns early with
    [false]. *)
Fixpoint for_loop {S : Type} (n : nat) (i : nat)
    (body : nat -> S -> S * bool) (s : S) : S :=
  match n with
  | O => s
  | Datatypes.S n' =>
      let '(s', brk) := body i s in
      if brk then s' else for_loop n' (Datatypes.S i) body s'
  end.

(** ** Collision check *)

Definition rect_collide (x1 y1 w1 h1 x2 y2 w2 h2 : Z) : bool :=
  (x1 <? iadd x2 w2) && (iadd x1 w1 >? x2) &&
  (y1 <? iadd y2 h2) && (iadd y1 h1 >? y2).

(** ** Game reset function *)

(** Loop bodies of [resetGame]; the set-up code of [main] makes the same
    stores in another order. *)
Definition reset_bullet (b : Bullet) : Bullet :=
  set_b_h BULLET_HEIGHT
    (set_b_w BULLET_WIDTH (set_b_y 0 (set_b_x 0 (set_b_active false b)))).

Definition reset_alien (i : nat) (a : Alien) : Alien :=
  set_a_y ALIEN_START_Y
    (set_a_x (iadd ALIEN_START_X (imul (Z.of_nat i) ALIEN_SPACING))
       (set_a_h ALIEN_HEIGHT (set_a_w ALIEN_WIDTH (set_a_active true a)))).

Definition reset_player (p : Player) : Player :=
  let p := set_p_w PLAYER_WIDTH p in
  let p := set_p_h PLAYER_HEIGHT p in
  let p := set_p_x (idiv (isub WINDOW_WIDTH (p_w p)) 2) p in
  let p := set_p_y (isub WINDOW_HEIGHT (iadd (p_h p) 40)) p in
  set_p_vx 0 p.

Definition resetGame (alienCount : nat) (s : Game) : Game :=
  (* Reset global states *)
  let s := with_gLives PLAYER_LIVES s in
  let s := with_gScore 0 s in
  let s := with_gGameOver false s in
  let s := with_gAlienMoveDir 1 s in
  (* Reset player *)
  let s := with_player (reset_player (player s)) s in
  (* Reset bullets *)
  let s :=
    with_bullets
      (for_loop MAX_BULLETS 0
         (fun i bs => (alter reset_bullet i bs, false)) (bullets s)) s in
  (* Reset aliens *)
  with_aliens
    (for_loop alienCount 0
       (fun i al => (alter (reset_alien i) i al, false)) (aliens s)) s.

(** ** Process start: the initialisers of the globals and the set-up code of
    [main], run on whatever the stack holds. *)

Definition setup_bullet (b : Bullet) : Bullet :=
  set_b_active false
    (set_b_h BULLET_HEIGHT (set_b_w BULLET_WIDTH (set_b_y 0 (set_b_x 0 b)))).

Definition setup_alien (i : nat) (a : Alien) : Alien :=
  set_a_active true
    (set_a_h ALIEN_HEIGHT
       (set_a_w ALIEN_WIDTH
          (set_a_y ALIEN_START_Y
             (set_a_x (iadd ALIEN_START_X (imul (Z.of_nat i) ALIEN_SPACING))
                a)))).

Definition main_setup (p : Player) (bs : list Bullet) (al : list Alien)
    : Game :=
  mkGame (reset_player p)
    (for_loop MAX_BULLETS 0 (fun i bs => (alter setup_bullet i bs, false)) bs)
    (for_loop ALIEN_COUNT 0 (fun i al => (alter (setup_alien i) i al, false))
       al)
    false PLAYER_LIVES 0 1.

Definition init : Game :=
  main_setup (mkPlayer 0 0 0 0 0) (replicate MAX_BULLETS inhabitant)
    (replicate ALIEN_COUNT inhabitant).

(** ** Events *)

Inductive Key :=
  | SDLK_ESCAPE | SDLK_LEFT | SDLK_RIGHT | SDLK_SPACE | SDLK_r | SDLK_other.

Inductive Event :=
  | SDL_QUIT
  | SDL_KEYDOWN (sym : Key)
  | SDL_KEYUP (sym : Key)
  | SDL_other.

(** [case SDLK_SPACE]: fire bullet if any free slot. *)
Definition fire (s : Game) : Game :=
  if negb (gGameOver s) then
    let p := player s in
    with_bullets
      (for_loop MAX_BULLETS 0
         (fun i bs =>
            if negb (b_active (bs !!! i)) then
              let bs := alter (set_b_active true) i bs in
              let bs :=
                alter
                  (fun b =>
                     set_b_x
                       (isub (iadd (p_x p) (idiv (p_w p) 2))
                          (idiv (b_w b) 2)) b) i bs in
              let bs :=
                alter (fun b => set_b_y (isub (p_y p) (b_h b)) b) i bs in
              (bs, true)
            else (bs, false))
         (bullets s)) s
  else s.

(** [case SDLK_r]: press R to restart if game over. *)
Definition restart (s : Game) : Game :=
  if gGameOver s then resetGame ALIEN_COUNT s else s.

Definition key_down (sym : Key) (s : Game) : Game :=
  match sym with
  | SDLK_LEFT => with_player (set_p_vx (ineg PLAYER_SPEED) (player s)) s
  | SDLK_RIGHT => with_player (set_p_vx PLAYER_SPEED (player s)) s
  | SDLK_SPACE => fire s
  | SDLK_r => restart s
  | SDLK_ESCAPE | SDLK_other => s
  end.

Definition key_up (sym : Key) (s : Game) : Game :=
  match sym with
  | SDLK_LEFT =>
      if p_vx (player s) <? 0 then with_player (set_p_vx 0 (player s)) s
      else s
  | SDLK_RIGHT =>
      if p_vx (player s) >? 0 then with_player (set_p_vx 0 (player s)) s
      else s
  | _ => s
  end.

(** What one polled event does to the simulation state ... *)
Definition game_event (e : Event) (s : Game) : Game :=
  match e with
  | SDL_KEYDOWN sym => key_down sym s
  | SDL_KEYUP sym => key_up sym s
  | SDL_QUIT | SDL_other => s
  end.

(** ... and whether it clears [gRunning]. *)
Definition quits (e : Event) : bool :=
  match e with
  | SDL_QUIT | SDL_KEYDOWN SDLK_ESCAPE => true
  | _ => false
  end.

(** ** Update logic (one frame) *)

(** Move player. *)
Definition move_player (s : Game) : Game :=
  let p := player s in
  let p := set_p_x (iadd (p_x p) (p_vx p)) p in
  let p := if p_x p <? 0 then set_p_x 0 p else p in
  let p :=
    if iadd (p_x p) (p_w p) >? WINDOW_WIDTH
    then set_p_x (isub WINDOW_WIDTH (p_w p)) p else p in
  with_player p s.

(** Update bullets. *)
Definition update_bullets (s : Game) : Game :=
  with_bullets
    (for_loop MAX_BULLETS 0
       (fun i bs =>
          if b_active (bs !!! i) then
            let bs :=
              alter (fun b => set_b_y (isub (b_y b) BULLET_SPEED) b) i bs in
            if iadd (b_y (bs !!! i)) (b_h (bs !!! i)) <? 0
            then (alter (set_b_active false) i bs, false)
            else (bs, false)
          else (bs, false))
       (bullets s)) s.

(** Check if aliens need to descend. *)
Definition needDescend (s : Game) : bool :=
  for_loop ALIEN_COUNT 0
    (fun i nd =>
       let a := aliens s !!! i in
       if negb (a_active a) then (nd, false)
       else
         let newX := iadd (a_x a) (imul ALIEN_SPEED (gAlienMoveDir s)) in
         if (newX <? 0) || (iadd newX (a_w a) >? WINDOW_WIDTH)
         then (true, true)
         else (nd, false))
    false.

(** Descend and reverse, or move aliens horizontally. *)
Definition move_aliens (s : Game) : Game :=
  if needDescend s then
    let s := with_gAlienMoveDir (ineg (gAlienMoveDir s)) s in
    with_aliens
      (for_loop ALIEN_COUNT 0
         (fun i al =>
            if a_active (al !!! i)
            then (alter (fun a => set_a_y (iadd (a_y a) ALIEN_DESCENT) a) i al,
                  false)
            else (al, false))
         (aliens s)) s
  else
    with_aliens
      (for_loop ALIEN_COUNT 0
         (fun i al =>
            if a_active (al !!! i)
            then
              (alter
                 (fun a =>
                    set_a_x
                      (iadd (a_x a) (imul ALIEN_SPEED (gAlienMoveDir s))) a)
                 i al, false)
            else (al, false))
         (aliens s)) s.

(** Collision: bullet vs. aliens.  [scan_aliens b] is the inner loop. *)
Definition scan_aliens (b : nat) (s : Game) : Game :=
  for_loop ALIEN_COUNT 0
    (fun i s =>
       if negb (a_active (aliens s !!! i)) then (s, false)
       else
         let bl := bullets s !!! b in
         let a := aliens s !!! i in
         if rect_collide (b_x bl) (b_y bl) (b_w bl) (b_h bl)
              (a_x a) (a_y a) (a_w a) (a_h a)
         then
           let s := with_aliens (alter (set_a_active false) i (aliens s)) s in
           let s := with_bullets (alter (set_b_active false) b (bullets s)) s in
           let s := with_gScore (iadd (gScore s) 10) s in
           (s, true)
         else (s, false))
    s.

Definition collide (s : Game) : Game :=
  for_loop MAX_BULLETS 0
    (fun b s =>
       if negb (b_active (bullets s !!! b)) then (s, false)
       else (scan_aliens b s, false))
    s.

(** Reset aliens & bullets (the wave reset inside the row check). *)
Definition wave_alien (a : nat) (al : Alien) : Alien :=
  set_a_y ALIEN_START_Y
    (set_a_x (iadd ALIEN_START_X (imul (Z.of_nat a) ALIEN_SPACING))
       (set_a_active true al)).

Definition wave_reset (s : Game) : Game :=
  let s :=
    with_aliens
      (for_loop ALIEN_COUNT 0
         (fun a al => (alter (wave_alien a) a al, false)) (aliens s)) s in
  with_bullets
    (for_loop MAX_BULLETS 0
       (fun b bs => (alter (set_b_active false) b bs, false)) (bullets s)) s.

(** Check if aliens reached bottom => lose life or game over. *)
Definition row_check (s : Game) : Game :=
  for_loop ALIEN_COUNT 0
    (fun i s =>
       let a := aliens s !!! i in
       if a_active a then
         if iadd (a_y a) (a_h a) >=? p_y (player s) then
           (* Aliens reached player row *)
           let s := with_gLives (isub (gLives s) 1) s in
           let s :=
             if gLives s <=? 0 then with_gGameOver true s
             else wave_reset s in
           (s, true)
         else (s, false)
       else (s, false))
    s.

(** [if (!gGameOver) { ... }] *)
Definition update_logic (s : Game) : Game :=
  if negb (gGameOver s) then
    row_check (collide (move_aliens (update_bullets (move_player s))))
  else s.

(** Check if all aliens are dead => victory. *)
Definition all_aliens_dead (s : Game) : bool :=
  for_loop ALIEN_COUNT 0
    (fun i dead =>
       if a_active (aliens s !!! i) then (false, true) else (dead, false))
    true.

Definition victory_check (s : Game) : Game :=
  if all_aliens_dead s && negb (gGameOver s) then with_gGameOver true s
  else s.

(** The logic of one iteration of the main loop after its events. *)
Definition frame (s : Game) : Game := victory_check (update_logic s).

(** ** The main loop *)

Record Loop := mkLoop {
  game : Game;
  gRunning : bool;
  allAliensDead : bool
}.

Definition handle_event (l : Loop) (e : Event) : Loop :=
  mkLoop (game_event e (game l))
    (if quits e then false else gRunning l) (allAliensDead l).

(** One iteration: drain the polled events, update, check for victory. *)
Definition iteration (events : list Event) (l : Loop) : Loop :=
  let l := fold_left handle_event events l in
  let g := update_logic (game l) in
  mkLoop (victory_check g) (gRunning l) (all_aliens_dead g).

(** [while (gRunning)], one batch of polled events per iteration. *)
Fixpoint run (batches : list (list Event)) (l : Loop) : Loop :=
  match batches with
  | [] => l
  | events :: rest => if gRunning l then run rest (iteration events l) else l
  end.

Definition start : Loop := mkLoop init true false.

(** The text drawn when the game is over. *)
Inductive Message := Victory | Game_Over.

Definition message (l : Loop) : option Message :=
  if gGameOver (game l) then
    Some (if allAliensDead l && (gLives (game l) >? 0) then Victory
          else Game_Over)
  else None.

(** States the simulation can be in between two steps of the main loop. *)
Inductive reachable : Game -> Prop :=
  | reach_init : reachable init
  | reach_event e s : reachable s -> reachable (game_event e s)
  | reach_frame s : reachable s -> reachable (frame s).

(** ** SDL, SDL_image, SDL_ttf and stdio

    The libraries are outside the program.  What a call returns is read from
    an environment [Env]; what the program does to the outside is the
    sequence of its calls, each recorded with the result the code tests. *)

Record SDL_Rect := mkRect { r_x : Z; r_y : Z; r_w : Z; r_h : Z }.
Record SDL_Color := mkColor { c_r : Z; c_g : Z; c_b : Z; c_a : Z }.

(** A surface or a texture, named by what it shows. *)
Inductive Image :=
  | image (path : string)
  | text (message : string) (color : SDL_Color).

(** The lines the program prints; the library's error text is left out. *)
Inductive Line :=
  | SDL_failed
  | IMG_Init_failed
  | TTF_Init_failed
  | Window_creation_failed
  | Renderer_creation_failed
  | IMG_Load_failed_for (path : string)
  | TTF_OpenFont_failed
  | TTF_RenderText_Solid_failed
  | Final_Score (score : Z).

Inductive Call :=
  | SDL_Init (ok : bool)
  | IMG_Init (ok : bool)
  | TTF_Init (ok : bool)
  | SDL_CreateWindow (ok : bool)
  | SDL_CreateRenderer (ok : bool)
  | IMG_Load (path : string) (ok : bool)
  | TTF_OpenFont (ok : bool)
  | TTF_RenderText_Solid (message : string) (color : SDL_Color) (ok : bool)
  | SDL_CreateTextureFromSurface (surface : Image) (ok : bool)
  | SDL_FreeSurface (surface : Image)
  | SDL_DestroyTexture (texture : option Image)
  | TTF_CloseFont
  | SDL_DestroyRenderer
  | SDL_DestroyWindow
  | TTF_Quit
  | IMG_Quit
  | SDL_Quit
  | SDL_SetRenderDrawColor (color : SDL_Color)
  | SDL_RenderClear
  | SDL_RenderCopy (texture : Image) (dstrect : SDL_Rect)
  | SDL_RenderFillRect (rect : SDL_Rect)
  | SDL_RenderPresent
  | printf (line : Line).

(** The answers of the libraries: which initialisations and creations
    succeed, and for the text of frame [n] the size of the rendered surface,
    if there is one. *)
Record Env := mkEnv {
  SDL_Init_ok : bool;
  IMG_Init_ok : bool;
  TTF_Init_ok : bool;
  window_ok : bool;
  renderer_ok : bool;
  IMG_Load_ok : string -> bool;
  image_texture_ok : string -> bool;
  font_ok : bool;
  text_surface : nat -> string -> option (Z * Z);
  text_texture_ok : nat -> string -> bool
}.

(** A computation that makes calls: the calls made, in order, and the
    result. *)
Definition IO (A : Type) : Type := (list Call * A)%type.

Definition ret {A : Type} (a : A) : IO A := ([], a).
#[global] Instance IO_bind : MBind IO :=
  fun A B k m => let '(t, b) := k (snd m) in (fst m ++ t, b).

(** A call whose result the code uses, and one whose result it ignores. *)
Definition call {A : Type} (c : A -> Call) (a : A) : IO A := ([c a], a).
Definition perform (c : Call) : IO unit := ([c], tt).

(** [for (int i = 0; i < n; i++)] around calls. *)
Fixpoint for_each (n : nat) (i : nat) (body : nat -> IO unit) : IO unit :=
  match n with
  | O => ret tt
  | Datatypes.S n' => body i;; for_each n' (Datatypes.S i) body
  end.

(** ** Texture loading *)

Definition loadTexture (env : Env) (path : string) : IO (option Image) :=
  surface ← call (IMG_Load path) (IMG_Load_ok env path);
  if negb surface then
    perform (printf (IMG_Load_failed_for path));;
    ret None
  else
    tex ← call (SDL_CreateTextureFromSurface (image path))
             (image_texture_ok env path);
    perform (SDL_FreeSurface (image path));;
    ret (if tex : bool then Some (image path) else None).

(** ** Text rendering

    [out] is what [*outWidth] and [*outHeight] hold before the call; the
    result is the texture and what they hold after it. *)
Definition renderText (env : Env) (n : nat) (message : string)
    (color : SDL_Color) (out : Z * Z) : IO (option Image * (Z * Z)) :=
  match text_surface env n message with
  | None =>
      perform (TTF_RenderText_Solid message color false);;
      perform (printf TTF_RenderText_Solid_failed);;
      ret (None, out)
  | Some size =>
      perform (TTF_RenderText_Solid message color true);;
      textTex ← call (SDL_CreateTextureFromSurface (text message color))
                 (text_texture_ok env n message);
      perform (SDL_FreeSurface (text message color));;
      ret (if textTex : bool then Some (text message color) else None, size)
  end.

(** ** [%d]: the decimal digits of an [int] *)

Definition digit (d : Z) : ascii := ascii_of_nat (48 + Z.to_nat d).

(** The digits of [n >= 0], at most [fuel + 1] of them: ten are enough for
    an [int]. *)
Fixpoint decimal (fuel : nat) (n : Z) : string :=
  match fuel with
  | O => String (digit (n mod 10)) ""
  | Datatypes.S fuel' =>
      if n / 10 =? 0 then String (digit n) ""
      else decimal fuel' (n / 10) +:+ String (digit (n mod 10)) ""
  end.

Definition print_int (z : Z) : string :=
  if z <? 0 then String "-"%char (decimal 9 (- z)) else decimal 9 z.

(** [sprintf(scoreBuf, "Score: %d   Lives: %d", gScore, gLives)]. *)
Definition scoreBuf (s : Game) : string :=
  "Score: " +:+ print_int (gScore s) +:+
  "   Lives: " +:+ print_int (gLives s).

(** ** Render (one frame) *)

Definition color_black : SDL_Color := mkColor 0 0 0 255.
Definition color_white : SDL_Color := mkColor 255 255 255 255.
Definition color_red : SDL_Color := mkColor 255 0 0 255.

Definition copy_and_destroy (tex : option Image) (dst : SDL_Rect) : IO unit :=
  match tex with
  | Some t =>
      perform (SDL_RenderCopy t dst);;
      perform (SDL_DestroyTexture (Some t))
  | None => ret tt
  end.

Definition render (env : Env) (n : nat) (shipTex alienTex : option Image)
    (l : Loop) : IO unit :=
  let s := game l in
  perform (SDL_SetRenderDrawColor color_black);;
  perform SDL_RenderClear;;
  (* Draw player *)
  match shipTex with
  | Some t =>
      perform (SDL_RenderCopy t
        (mkRect (p_x (player s)) (p_y (player s))
                (p_w (player s)) (p_h (player s))))
  | None => ret tt
  end;;
  (* Draw bullets (white rects) *)
  perform (SDL_SetRenderDrawColor color_white);;
  for_each MAX_BULLETS 0 (fun i =>
    let b := bullets s !!! i in
    if b_active b then
      perform (SDL_RenderFillRect (mkRect (b_x b) (b_y b) (b_w b) (b_h b)))
    else ret tt);;
  (* Draw aliens *)
  for_each ALIEN_COUNT 0 (fun i =>
    let a := aliens s !!! i in
    match alienTex with
    | Some t =>
        if a_active a then
          perform (SDL_RenderCopy t (mkRect (a_x a) (a_y a) (a_w a) (a_h a)))
        else ret tt
    | None => ret tt
    end);;
  (* Draw scoreboard (top-left corner) *)
  '(scoreTex, (textW, textH)) ←
    renderText env n (scoreBuf s) color_white (0, 0);
  copy_and_destroy scoreTex (mkRect 10 10 textW textH);;
  (* If game over, display "Victory!" or "Game Over!" + "Press R" *)
  (if gGameOver s then
     let msg : string :=
       if allAliensDead l && (gLives s >? 0) then "Victory!"
       else "Game Over!" in
     '(textTexture, (textW, textH)) ← renderText env n msg color_red (0, 0);
     copy_and_destroy textTexture
       (mkRect (idiv (isub WINDOW_WIDTH textW) 2)
               (idiv (isub WINDOW_HEIGHT textH) 2) textW textH);;
     '(restartTex, (rw, rh)) ←
       renderText env n "Press R to restart" color_white (0, 0);
     copy_and_destroy restartTex
       (mkRect (idiv (isub WINDOW_WIDTH rw) 2)
               (iadd (idiv (isub WINDOW_HEIGHT rh) 2) 50) rw rh)
   else ret tt);;
  perform SDL_RenderPresent.

(** ** [main]: start, main loop with its rendering, cleanup

    The events that [SDL_PollEvent] hands out are the input [batches], one
    batch per iteration; polling is not recorded as a call.  The result is
    the exit status, or [None] while the loop is still running when the
    batches run out. *)

Fixpoint main_loop (env : Env) (shipTex alienTex : option Image) (n : nat)
    (batches : list (list Event)) (l : Loop) : IO Loop :=
  match batches with
  | [] => ret l
  | events :: rest =>
      if gRunning l then
        let l' := iteration events l in
        render env n shipTex alienTex l';;
        main_loop env shipTex alienTex (Datatypes.S n) rest l'
      else ret l
  end.

Definition is_null {A : Type} (p : option A) : bool :=
  match p with Some _ => false | None => true end.

Definition main (env : Env) (batches : list (list Event)) : IO (option Z) :=
  (* 1. Initialize SDL *)
  ok ← call SDL_Init (SDL_Init_ok env);
  if negb ok then
    perform (printf SDL_failed);;
    ret (Some 1)
  else
  (* 2. Initialize SDL_image *)
  ok ← call IMG_Init (IMG_Init_ok env);
  if negb ok then
    perform (printf IMG_Init_failed);;
    perform SDL_Quit;;
    ret (Some 1)
  else
  (* 3. Initialize SDL_ttf *)
  ok ← call TTF_Init (TTF_Init_ok env);
  if negb ok then
    perform (printf TTF_Init_failed);;
    perform IMG_Quit;;
    perform SDL_Quit;;
    ret (Some 1)
  else
  (* Create Window *)
  window ← call SDL_CreateWindow (window_ok env);
  if negb window then
    perform (printf Window_creation_failed);;
    perform TTF_Quit;;
    perform IMG_Quit;;
    perform SDL_Quit;;
    ret (Some 1)
  else
  (* Create Renderer *)
  renderer ← call SDL_CreateRenderer (renderer_ok env);
  if negb renderer then
    perform (printf Renderer_creation_failed);;
    perform SDL_DestroyWindow;;
    perform TTF_Quit;;
    perform IMG_Quit;;
    perform SDL_Quit;;
    ret (Some 1)
  else
  (* Load textures *)
  shipTex ← loadTexture env "ship.png";
  alienTex ← loadTexture env "alien.jpg";
  if is_null shipTex || is_null alienTex then
    perform (SDL_DestroyTexture shipTex);;
    perform (SDL_DestroyTexture alienTex);;
    perform SDL_DestroyRenderer;;
    perform SDL_DestroyWindow;;
    perform TTF_Quit;;
    perform IMG_Quit;;
    perform SDL_Quit;;
    ret (Some 1)
  else
  (* Load font *)
  font ← call TTF_OpenFont (font_ok env);
  if negb font then
    perform (printf TTF_OpenFont_failed);;
    perform (SDL_DestroyTexture shipTex);;
    perform (SDL_DestroyTexture alienTex);;
    perform SDL_DestroyRenderer;;
    perform SDL_DestroyWindow;;
    perform TTF_Quit;;
    perform IMG_Quit;;
    perform SDL_Quit;;
    ret (Some 1)
  else
  (* Setup, main loop *)
  l ← main_loop env shipTex alienTex 0 batches start;
  if gRunning l then ret None
  else
  (* Cleanup *)
  perform TTF_CloseFont;;
  perform (SDL_DestroyTexture alienTex);;
  perform (SDL_DestroyTexture shipTex);;
  perform SDL_DestroyRenderer;;
  perform SDL_DestroyWindow;;
  perform TTF_Quit;;
  perform IMG_Quit;;
  perform SDL_Quit;;
  perform (printf (Final_Score (gScore (game l))));;
  ret (Some 0).

(** * Vocabulary of the properties *)

(** ** Arrays of the declared size, and the start state written out *)

(** [Bullet bullets[MAX_BULLETS]] and [Alien aliens[ALIEN_COUNT]]. *)
Definition wf (s : Game) : Prop :=
  length (bullets s) = MAX_BULLETS /\ length (aliens s) = ALIEN_COUNT.

(** The state at process start, written out. *)
Definition start_alien (i : nat) : Alien :=
  mkAlien (50 + 50 * Z.of_nat i) 50 32 32 true.

Definition start_game : Game :=
  mkGame (mkPlayer ((640 - 32) / 2) (480 - (32 + 40)) 32 32 0)
    (replicate 5 (mkBullet 0 0 4 10 false))
    (map start_alien (seq 0 8))
    false 3 0 1.

(** ** The loop bodies of the source, named *)

Definition fire_bullet (p : Player) (b : Bullet) : Bullet :=
  set_b_y (isub (p_y p) (b_h b))
    (set_b_x (isub (iadd (p_x p) (idiv (p_w p) 2)) (idiv (b_w b) 2))
       (set_b_active true b)).

Definition free_slot (bs : list Bullet) : option nat :=
  find (fun k => negb (b_active (bs !!! k))) (seq 0 MAX_BULLETS).

(** One bullet of the bullet update. *)
Definition step_bullet (b : Bullet) : Bullet :=
  if b_active b then
    let b' := set_b_y (isub (b_y b) BULLET_SPEED) b in
    if iadd (b_y b') (b_h b') <? 0 then set_b_active false b' else b'
  else b.

(** The test of the boundary check for one alien. *)
Definition crossing (dir : Z) (a : Alien) : bool :=
  let newX := iadd (a_x a) (imul ALIEN_SPEED dir) in
  (newX <? 0) || (iadd newX (a_w a) >? WINDOW_WIDTH).

Definition first_crossing (s : Game) : option nat :=
  find (fun k => a_active (aliens s !!! k) &&
                 crossing (gAlienMoveDir s) (aliens s !!! k))
    (seq 0 ALIEN_COUNT).

Definition descend_alien (a : Alien) : Alien :=
  if a_active a then set_a_y (iadd (a_y a) ALIEN_DESCENT) a else a.

Definition slide_alien (dir : Z) (a : Alien) : Alien :=
  if a_active a then set_a_x (iadd (a_x a) (imul ALIEN_SPEED dir)) a else a.

Definition hits (bl : Bullet) (a : Alien) : bool :=
  a_active a &&
  rect_collide (b_x bl) (b_y bl) (b_w bl) (b_h bl)
    (a_x a) (a_y a) (a_w a) (a_h a).

(** The alien bullet [b] destroys: the first one, in index order, it hits. *)
Definition first_hit (b : nat) (s : Game) : option nat :=
  find (fun k => hits (bullets s !!! b) (aliens s !!! k)) (seq 0 ALIEN_COUNT).

Definition destroy (b i : nat) (s : Game) : Game :=
  with_gScore (iadd (gScore s) 10)
    (with_bullets (alter (set_b_active false) b (bullets s))
       (with_aliens (alter (set_a_active false) i (aliens s)) s)).

Definition shoot (b : nat) (s : Game) : Game :=
  if b_active (bullets s !!! b) then scan_aliens b s else s.

Definition reaches (p : Player) (a : Alien) : bool :=
  a_active a && (iadd (a_y a) (a_h a) >=? p_y p).

Definition first_reaching (s : Game) : option nat :=
  find (fun k => reaches (player s) (aliens s !!! k)) (seq 0 ALIEN_COUNT).

Definition lose_life (s : Game) : Game :=
  let s := with_gLives (isub (gLives s) 1) s in
  if gLives s <=? 0 then with_gGameOver true s else wave_reset s.

(** The state the row check of a frame runs on. *)
Definition before_row_check (s : Game) : Game :=
  collide (move_aliens (update_bullets (move_player s))).

(** ** The same steps over the mathematical integers *)

(** Area of the intersection of two axis-aligned rectangles. *)
Definition overlap_area (x1 y1 w1 h1 x2 y2 w2 h2 : Z) : Z :=
  Z.max 0 (Z.min (x1 + w1) (x2 + w2) - Z.max x1 x2) *
  Z.max 0 (Z.min (y1 + h1) (y2 + h2) - Z.max y1 y2).

(** The bullet a shot puts into the slot that held [b]: centred on the
    player, its bottom edge on the player's top edge.  ([÷] is C's
    truncating division.) *)
Definition fired (p : Player) (b : Bullet) : Bullet :=
  mkBullet (p_x p + p_w p ÷ 2 - b_w b ÷ 2) (p_y p - b_h b) (b_w b) (b_h b)
    true.

Definition active_bullets (bs : list Bullet) : nat :=
  length (List.filter b_active bs).

(** An alien whose next horizontal step would leave the screen. *)
Definition crosses (dir : Z) (a : Alien) : Prop :=
  a_x a + ALIEN_SPEED * dir < 0 \/
  a_x a + ALIEN_SPEED * dir + a_w a > WINDOW_WIDTH.

Definition must_descend (s : Game) : Prop :=
  exists a, a ∈ aliens s /\ a_active a = true /\ crosses (gAlienMoveDir s) a.

(** The sums of the formation step are representable. *)
Definition formation_fits (s : Game) : Prop :=
  fits (- gAlienMoveDir s) /\
  forall a, a ∈ aliens s -> a_active a = true ->
    fits (a_x a + ALIEN_SPEED * gAlienMoveDir s) /\
    fits (a_x a + ALIEN_SPEED * gAlienMoveDir s + a_w a) /\
    fits (a_y a + ALIEN_DESCENT).

Definition descended (a : Alien) : Alien :=
  if a_active a
  then mkAlien (a_x a) (a_y a + ALIEN_DESCENT) (a_w a) (a_h a) true
  else a.

Definition translated (dir : Z) (a : Alien) : Alien :=
  if a_active a
  then mkAlien (a_x a + ALIEN_SPEED * dir) (a_y a) (a_w a) (a_h a) true
  else a.

(** Some active alien's bottom edge is at or below the player's top edge. *)
Definition row_reached (s : Game) : Prop :=
  exists a, a ∈ aliens s /\ a_active a = true /\
            a_y a + a_h a >= p_y (player s).

Definition row_fits (s : Game) : Prop :=
  forall a, a ∈ aliens s -> a_active a = true -> fits (a_y a + a_h a).

(** Where the wave reset puts alien [i]. *)
Definition regrouped (i : nat) (a : Alien) : Alien :=
  mkAlien (50 + 50 * Z.of_nat i) 50 (a_w a) (a_h a) true.

(** Number of destroyed (inactive) aliens. *)
Definition dead (al : list Alien) : nat :=
  length (List.filter (fun a => negb (a_active a)) al).

(** ** Relations between the states before and after a step *)

(** A slot after a step in which it may only have been deactivated. *)
Definition alien_fades (a a' : Alien) : Prop :=
  a_x a' = a_x a /\ a_y a' = a_y a /\ a_w a' = a_w a /\ a_h a' = a_h a /\
  (a_active a' = true -> a_active a = true).

Definition bullet_fades (b b' : Bullet) : Prop :=
  b_x b' = b_x b /\ b_y b' = b_y b /\ b_w b' = b_w b /\ b_h b' = b_h b /\
  (b_active b' = true -> b_active b = true).

Definition battle (s t : Game) : Prop :=
  player t = player s /\ gGameOver t = gGameOver s /\ gLives t = gLives s /\
  gAlienMoveDir t = gAlienMoveDir s /\
  Forall2 alien_fades (aliens s) (aliens t) /\
  Forall2 bullet_fades (bullets s) (bullets t).

Definition same_place (a a' : Alien) : Prop :=
  a_x a' = a_x a /\ a_y a' = a_y a.

(** The claim C1 as the design states it, for the whole frame update. *)
Definition descent_atomicity (s : Game) : Prop :=
  gGameOver s = false ->
  (must_descend s ->
     gAlienMoveDir (frame s) = - gAlienMoveDir s /\
     Forall2
       (fun a a' =>
          a_x a' = a_x a /\
          (a_active a = true -> a_y a' = a_y a + ALIEN_DESCENT))
       (aliens s) (aliens (frame s))) /\
  (~ must_descend s ->
     gAlienMoveDir (frame s) = gAlienMoveDir s /\
     Forall2
       (fun a a' =>
          a_y a' = a_y a /\
          (a_active a = true ->
           a_x a' = a_x a + ALIEN_SPEED * gAlienMoveDir s))
       (aliens s) (aliens (frame s))).

(** ** Invariants *)

(** All active aliens stand in one row. *)
Definition aligned (al : list Alien) : Prop :=
  forall a b, a ∈ al -> b ∈ al ->
    a_active a = true -> a_active b = true -> a_y a = a_y b.

Definition all_inactive (s : Game) : Prop :=
  forall a, a ∈ aliens s -> a_active a = false.

Definition game_inv (s : Game) : Prop :=
  wf s /\
  0 <= gLives s <= 3 /\
  (gGameOver s = false -> 1 <= gLives s) /\
  (gGameOver s = true -> gLives s = 0 \/ all_inactive s) /\
  (gLives s = 3 -> gScore s = 10 * Z.of_nat (dead (aliens s))) /\
  aligned (aliens s).

Definition defeat (s : Game) : Prop := gLives s = 0.

Definition victory (s : Game) : Prop := all_inactive s /\ gLives s > 0.

(** The last sentence of the claim C4 as the design states it: in a game
    started afresh, once all 8 aliens are destroyed the score is 80. *)
Definition fresh_game_score (s : Game) : Prop :=
  all_inactive s -> gScore s = 80.

Definition player_ok (p : Player) : Prop :=
  p_w p = PLAYER_WIDTH /\ p_h p = PLAYER_HEIGHT /\ p_y p = 408 /\
  0 <= p_x p <= 608 /\ -5 <= p_vx p <= 5.

Definition bullet_ok (b : Bullet) : Prop :=
  b_w b = BULLET_WIDTH /\ b_h b = BULLET_HEIGHT /\
  0 <= b_x b <= 622 /\ -17 <= b_y b <= 398 /\
  (b_active b = true -> -10 <= b_y b).

(** While the game runs ([over = false]) the active aliens are above the
    player's row. *)
Definition alien_ok (over : bool) (a : Alien) : Prop :=
  a_w a = ALIEN_WIDTH /\ a_h a = ALIEN_HEIGHT /\
  0 <= a_x a <= 608 /\ 50 <= a_y a <= 395 /\
  (over = false -> a_active a = true -> a_y a <= 375).

Definition in_bounds (s : Game) : Prop :=
  player_ok (player s) /\
  Forall bullet_ok (bullets s) /\
  Forall (alien_ok (gGameOver s)) (aliens s) /\
  (gAlienMoveDir s = 1 \/ gAlienMoveDir s = -1) /\
  0 <= gScore s <= 80 * (3 - gLives s) + 10 * Z.of_nat (dead (aliens s)).

(** ** States of actual runs *)

(** The formation has come down to the player's row: the state 4352 frames after process start when no key is touched: the
    row is at y = 370 with its last alien on the right edge, so the next
    frame descends to y = 390 and the row check of that same frame fires. *)
Definition low_row : Game :=
  mkGame (mkPlayer 304 408 32 32 0)
    (replicate 5 (mkBullet 0 0 4 10 false))
    (map (fun i => mkAlien (258 + 50 * Z.of_nat i) 370 32 32 true) (seq 0 8))
    false 3 0 1.

(** [low_row] one formation step later: the row stands at y = 390, its
    bottom edge at 422, below the player's top edge at 408. *)
Definition landed : Game :=
  mkGame (mkPlayer 304 408 32 32 0)
    (replicate 5 (mkBullet 0 0 4 10 false))
    (map (fun i => mkAlien (258 + 50 * Z.of_nat i) 390 32 32 true) (seq 0 8))
    false 3 0 (-1).

(** The frame in which the first shot of a fresh game arrives: after the
    formation step of the 46th frame the bullet of slot 0 overlaps alien 4
    and no alien before it. *)
Definition aim : Game :=
  mkGame (mkPlayer 304 408 32 32 0)
    (mkBullet 318 76 4 10 true :: replicate 4 (mkBullet 0 0 4 10 false))
    (map (fun i => mkAlien (96 + 50 * Z.of_nat i) 50 32 32 true) (seq 0 8))
    false 3 0 1.

(** A game won without losing a life: fire, then step left or right under
    the next alien and fire again, eight times. *)
Definition move_fire (k : Key) (n : nat) : list (list Event) :=
  [SDL_KEYDOWN k] :: replicate (n - 1) [] ++
  [[SDL_KEYUP k; SDL_KEYDOWN SDLK_SPACE]].

Definition winning_script : list (list Event) :=
  [[SDL_KEYDOWN SDLK_SPACE]] ++
  move_fire SDLK_LEFT 6 ++ move_fire SDLK_LEFT 8 ++
  move_fire SDLK_LEFT 9 ++ move_fire SDLK_LEFT 8 ++
  replicate 10 [] ++
  move_fire SDLK_RIGHT 57 ++ move_fire SDLK_RIGHT 13 ++
  move_fire SDLK_RIGHT 12 ++
  replicate 45 [].

Definition won : Game := game (run winning_script start).

(** A game won after a lost life.  In [low_row] the player fires; in the
    frame in which the row lands the shot destroys alien 1, a life is lost
    and the wave is reset with the score kept at 10.  Then all eight aliens
    of the new wave are shot. *)
Definition late_script : list (list Event) :=
  [[SDL_KEYDOWN SDLK_SPACE]; [SDL_KEYDOWN SDLK_SPACE]] ++
  move_fire SDLK_RIGHT 6 ++ move_fire SDLK_LEFT 11 ++
  move_fire SDLK_LEFT 8 ++ move_fire SDLK_LEFT 8 ++
  replicate 8 [] ++
  move_fire SDLK_LEFT 7 ++ move_fire SDLK_LEFT 8 ++
  move_fire SDLK_LEFT 8 ++
  replicate 46 [].

Definition late_win : Game :=
  game (run late_script (mkLoop low_row true false)).

(** ** Vocabulary of the further properties *)

(** Where the player motion leaves the ship: the new position, kept between
    the left edge and the right edge less the ship's width. *)
Definition clamped (p : Player) : Z :=
  Z.max 0 (Z.min (WINDOW_WIDTH - p_w p) (p_x p + p_vx p)).

(** A bullet after the bullet update: an active one is 7 higher, and stays
    active unless its bottom edge has left the screen. *)
Definition flown (b : Bullet) : Bullet :=
  if b_active b
  then mkBullet (b_x b) (b_y b - BULLET_SPEED) (b_w b) (b_h b)
         (negb (b_y b - BULLET_SPEED + b_h b <? 0))
  else b.

Definition flight_fits (s : Game) : Prop :=
  forall b, b ∈ bullets s -> b_active b = true ->
    fits (b_y b - BULLET_SPEED) /\ fits (b_y b - BULLET_SPEED + b_h b).

(** The sums of the player motion: the new x, the right edge of the ship
    at the new x or at the left edge, and the rightmost place. *)
Definition motion_fits (p : Player) : Prop :=
  fits (p_x p + p_vx p) /\
  fits (Z.max 0 (p_x p + p_vx p) + p_w p) /\
  fits (WINDOW_WIDTH - p_w p).

(** The quotients, the sums and the differences of a shot into the slot
    that holds [b]. *)
Definition shot_fits (p : Player) (b : Bullet) : Prop :=
  fits (p_w p ÷ 2) /\ fits (b_w b ÷ 2) /\
  fits (p_x p + p_w p ÷ 2) /\
  fits (p_x p + p_w p ÷ 2 - b_w b ÷ 2) /\
  fits (p_y p - b_h b).

(** The four sums of the collision test of a bullet and an alien. *)
Definition collision_fits (b : Bullet) (a : Alien) : Prop :=
  fits (a_x a + a_w a) /\ fits (b_x b + b_w b) /\
  fits (a_y a + a_h a) /\ fits (b_y b + b_h b).

(** The arithmetic of [resetGame], of the set-up code of [main] and of the
    wave reset: the player's place and the starting grid of the aliens. *)
Definition reset_fits : Prop :=
  fits (WINDOW_WIDTH - PLAYER_WIDTH) /\
  fits ((WINDOW_WIDTH - PLAYER_WIDTH) ÷ 2) /\
  fits (PLAYER_HEIGHT + 40) /\
  fits (WINDOW_HEIGHT - (PLAYER_HEIGHT + 40)) /\
  forall i, (i < ALIEN_COUNT)%nat ->
    fits (Z.of_nat i * ALIEN_SPACING) /\
    fits (ALIEN_START_X + Z.of_nat i * ALIEN_SPACING).

(** The main loop after the won game. *)
Definition won_loop : Loop := run winning_script start.

(** Some alien is still active. *)
Definition has_alien (s : Game) : Prop :=
  exists a, a ∈ aliens s /\ a_active a = true.

(** The active aliens keep their places in the row: 50 apart per index. *)
Definition rigid (al : list Alien) : Prop :=
  forall i j a b, al !! i = Some a -> al !! j = Some b ->
    a_active a = true -> a_active b = true ->
    a_x b - a_x a = ALIEN_SPACING * (Z.of_nat j - Z.of_nat i).

(** 70 points at most for each life lost, 10 for each alien now destroyed,
    and only whole tens. *)
Definition score_inv (s : Game) : Prop :=
  gScore s <=
    70 * (3 - Z.max 1 (gLives s)) + 10 * Z.of_nat (dead (aliens s)) /\
  exists k, gScore s = 10 * k.

(** ** The libraries' side: what is initialised and what is alive *)

Record Sys := mkSys {
  sdl : bool;
  img : bool;
  ttf : bool;
  window : bool;
  renderer : bool;
  font : bool;
  surfaces : list Image;
  textures : list Image
}.

Definition Color_eqb (c d : SDL_Color) : bool :=
  (c_r c =? c_r d) && (c_g c =? c_g d) && (c_b c =? c_b d) && (c_a c =? c_a d).

Definition Image_eqb (a b : Image) : bool :=
  match a, b with
  | image p, image q => String.eqb p q
  | text m c, text m' c' => String.eqb m m' && Color_eqb c c'
  | _, _ => false
  end.

Definition alive (x : Image) (l : list Image) : bool :=
  existsb (Image_eqb x) l.

Definition without (x : Image) (l : list Image) : list Image :=
  List.filter (fun y => negb (Image_eqb x y)) l.

Definition is_nil {A : Type} (l : list A) : bool :=
  match l with [] => true | _ => false end.

(** The effect of a call that is allowed: nothing is initialised or created
    twice, a library is used only between its start and its end, an object
    is used and released only while it is alive (a NULL texture may be
    destroyed), a surface or texture is alive from its successful creation
    to its release, and what depends on a library, a window or a renderer
    is released before it.  [None]: the call is not allowed. *)
Definition step (c : Call) (y : Sys) : option Sys :=
  let '(mkSys sdl img ttf window renderer font surfaces textures) := y in
  match c with
  | SDL_Init ok =>
      if negb sdl
      then Some (mkSys ok img ttf window renderer font surfaces textures)
      else None
  | IMG_Init ok =>
      if sdl && negb img
      then Some (mkSys sdl ok ttf window renderer font surfaces textures)
      else None
  | TTF_Init ok =>
      if sdl && negb ttf
      then Some (mkSys sdl img ok window renderer font surfaces textures)
      else None
  | SDL_CreateWindow ok =>
      if sdl && negb window
      then Some (mkSys sdl img ttf ok renderer font surfaces textures)
      else None
  | SDL_CreateRenderer ok =>
      if window && negb renderer
      then Some (mkSys sdl img ttf window ok font surfaces textures)
      else None
  | IMG_Load path ok =>
      if img && negb (alive (image path) surfaces)
      then Some (mkSys sdl img ttf window renderer font
                   (if ok then image path :: surfaces else surfaces) textures)
      else None
  | TTF_OpenFont ok =>
      if ttf && negb font
      then Some (mkSys sdl img ttf window renderer ok surfaces textures)
      else None
  | TTF_RenderText_Solid message color ok =>
      if font && negb (alive (text message color) surfaces)
      then Some (mkSys sdl img ttf window renderer font
                   (if ok then text message color :: surfaces else surfaces)
                   textures)
      else None
  | SDL_CreateTextureFromSurface surface ok =>
      if renderer && alive surface surfaces && negb (alive surface textures)
      then Some (mkSys sdl img ttf window renderer font surfaces
                   (if ok then surface :: textures else textures))
      else None
  | SDL_FreeSurface surface =>
      if alive surface surfaces
      then Some (mkSys sdl img ttf window renderer font
                   (without surface surfaces) textures)
      else None
  | SDL_DestroyTexture None => Some y
  | SDL_DestroyTexture (Some texture) =>
      if renderer && alive texture textures
      then Some (mkSys sdl img ttf window renderer font surfaces
                   (without texture textures))
      else None
  | TTF_CloseFont =>
      if ttf && font
      then Some (mkSys sdl img ttf window renderer false surfaces textures)
      else None
  | SDL_DestroyRenderer =>
      if renderer && is_nil textures
      then Some (mkSys sdl img ttf window false font surfaces textures)
      else None
  | SDL_DestroyWindow =>
      if window && negb renderer
      then Some (mkSys sdl img ttf false renderer font surfaces textures)
      else None
  | TTF_Quit =>
      if ttf && negb font
      then Some (mkSys sdl img false window renderer font surfaces textures)
      else None
  | IMG_Quit =>
      if img && negb ttf
      then Some (mkSys sdl false ttf window renderer font surfaces textures)
      else None
  | SDL_Quit =>
      if sdl && negb img && negb ttf && negb window && is_nil surfaces
      then Some (mkSys false img ttf window renderer font surfaces textures)
      else None
  | SDL_SetRenderDrawColor _ | SDL_RenderClear | SDL_RenderFillRect _
  | SDL_RenderPresent =>
      if renderer then Some y else None
  | SDL_RenderCopy texture _ =>
      if renderer && alive texture textures then Some y else None
  | printf _ => Some y
  end.

(** The calls of a trace, checked one after the other. *)
Fixpoint audit (t : list Call) (y : Sys) : option Sys :=
  match t with
  | [] => Some y
  | c :: t' =>
      match step c y with
      | Some y' => audit t' y'
      | None => None
      end
  end.

(** Nothing initialised, nothing alive: before the program and after it. *)
Definition off : Sys := mkSys false false false false false false [] [].

(** Between two frames: the libraries, the window, the renderer, the font
    and the two image textures, and nothing else. *)
Definition running : Sys :=
  mkSys true true true true true true [] [image "alien.jpg"; image "ship.png"].

(** Every step of the start succeeds. *)
Definition starts (env : Env) : bool :=
  SDL_Init_ok env && IMG_Init_ok env && TTF_Init_ok env &&
  window_ok env && renderer_ok env &&
  (IMG_Load_ok env "ship.png" && image_texture_ok env "ship.png") &&
  (IMG_Load_ok env "alien.jpg" && image_texture_ok env "alien.jpg") &&
  font_ok env.

(** The images load, but a texture cannot be made of one of them. *)
Definition texture_creation_fails (env : Env) : bool :=
  SDL_Init_ok env && IMG_Init_ok env && TTF_Init_ok env &&
  window_ok env && renderer_ok env &&
  IMG_Load_ok env "ship.png" && IMG_Load_ok env "alien.jpg" &&
  negb (image_texture_ok env "ship.png" && image_texture_ok env "alien.jpg").

Definition printed (t : list Call) : list Line :=
  omap (fun c => match c with printf line => Some line | _ => None end) t.

(** The calls of [renderText] and of the code that draws and destroys its
    texture. *)
Definition text_block (env : Env) (n : nat) (message : string)
    (color : SDL_Color) (dst : Z * Z -> SDL_Rect) : list Call :=
  fst ('(tex, size) ← renderText env n message color (0, 0);
       copy_and_destroy tex (dst size)).

(** The calls of the code that draws the player, the bullets and the
    aliens. *)
Definition scene_calls (s : Game) : list Call :=
  [SDL_RenderCopy (image "ship.png")
     (mkRect (p_x (player s)) (p_y (player s))
             (p_w (player s)) (p_h (player s)));
   SDL_SetRenderDrawColor color_white] ++
  fst (for_each MAX_BULLETS 0 (fun i =>
         let b := bullets s !!! i in
         if b_active b then
           perform (SDL_RenderFillRect (mkRect (b_x b) (b_y b) (b_w b) (b_h b)))
         else ret tt)) ++
  fst (for_each ALIEN_COUNT 0 (fun i =>
         let a := aliens s !!! i in
         if a_active a then
           perform (SDL_RenderCopy (image "alien.jpg")
                      (mkRect (a_x a) (a_y a) (a_w a) (a_h a)))
         else ret tt)).

(** What reaches the screen. *)
Inductive Drawing :=
  | Cleared (color : SDL_Color)
  | Filled (color : SDL_Color) (rect : SDL_Rect)
  | Copied (texture : Image) (dstrect : SDL_Rect)
  | Presented.

(** What a sequence of calls draws when the draw colour before it is
    [color]: clearing and filling use the colour set last. *)
Fixpoint drawn (color : SDL_Color) (t : list Call) : list Drawing :=
  match t with
  | [] => []
  | SDL_SetRenderDrawColor c :: t' => drawn c t'
  | SDL_RenderClear :: t' => Cleared color :: drawn color t'
  | SDL_RenderFillRect r :: t' => Filled color r :: drawn color t'
  | SDL_RenderCopy tex r :: t' => Copied tex r :: drawn color t'
  | SDL_RenderPresent :: t' => Presented :: drawn color t'
  | _ :: t' => drawn color t'
  end.

(** The draw colour after a sequence of calls. *)
Fixpoint color_after (color : SDL_Color) (t : list Call) : SDL_Color :=
  match t with
  | [] => color
  | SDL_SetRenderDrawColor c :: t' => color_after c t'
  | _ :: t' => color_after color t'
  end.

(** The scene of a state: the ship, a white rectangle for every active
    bullet, the alien image for every active alien, in this order. *)
Definition scene (s : Game) : list Drawing :=
  Copied (image "ship.png")
    (mkRect (p_x (player s)) (p_y (player s))
            (p_w (player s)) (p_h (player s))) ::
  ((fun b => Filled color_white (mkRect (b_x b) (b_y b) (b_w b) (b_h b)))
     <$> List.filter b_active (bullets s)) ++
  ((fun a => Copied (image "alien.jpg")
               (mkRect (a_x a) (a_y a) (a_w a) (a_h a)))
     <$> List.filter a_active (aliens s)).

(** A text on the screen, if SDL_ttf rendered it and a texture could be
    made of it. *)
Definition shown (env : Env) (n : nat) (message : string)
    (color : SDL_Color) (dst : Z * Z -> SDL_Rect) : list Drawing :=
  match text_surface env n message with
  | Some size =>
      if text_texture_ok env n message
      then [Copied (text message color) (dst size)]
      else []
  | None => []
  end.

Definition message_text (m : Message) : string :=
  match m with
  | Victory => "Victory!"
  | Game_Over => "Game Over!"
  end.

(** A text of the given size in the middle of the window, [down] lower. *)
Definition centred (down : Z) (size : Z * Z) : SDL_Rect :=
  mkRect ((WINDOW_WIDTH - fst size) ÷ 2)
         ((WINDOW_HEIGHT - snd size) ÷ 2 + down) (fst size) (snd size).

(** The picture of a frame. *)
Definition picture (env : Env) (n : nat) (l : Loop) : list Drawing :=
  [Cleared color_black] ++
  scene (game l) ++
  shown env n (scoreBuf (game l)) color_white
    (fun size => mkRect 10 10 (fst size) (snd size)) ++
  match message l with
  | Some m =>
      shown env n (message_text m) color_red (centred 0) ++
      shown env n "Press R to restart" color_white (centred 50)
  | None => []
  end ++
  [Presented].

(** The surfaces of SDL_ttf have sizes that are not negative [int]s. *)
Definition sizes_ok (env : Env) : Prop :=
  forall n message w h, text_surface env n message = Some (w, h) ->
    0 <= w <= INT_MAX /\ 0 <= h <= INT_MAX.

(** The rectangle lies in the window, except that it may reach over the top
    edge by [over]. *)
Definition on_screen (over : Z) (r : SDL_Rect) : Prop :=
  0 <= r_x r /\ r_x r + r_w r <= WINDOW_WIDTH /\
  - over <= r_y r /\ r_y r + r_h r <= WINDOW_HEIGHT.

(** ** Reading a number back *)




(** ** Two environments *)

(** Every call succeeds; every text is 100 wide and 30 high. *)
Definition fine : Env :=
  mkEnv true true true true true (fun _ => true) (fun _ => true) true
    (fun _ _ => Some (100, 30)) (fun _ _ => true).

(** The images load, but no texture can be created. *)
Definition no_textures : Env :=
  mkEnv true true true true true (fun _ => true) (fun _ => false) true
    (fun _ _ => None) (fun _ _ => false).

(** * Properties *)

(** ** Integer arithmetic *)

Lemma wrap_fits z : fits z -> wrap z = z.
Proof.
  unfold fits, wrap, INT_MIN, INT_MAX. intros Hz.
  rewrite Z.mod_small; lia.
Qed.

(** Every result of the arithmetic is an [int]. *)
Lemma wrap_is_int z : fits (wrap z).
Proof.
  unfold fits, wrap, INT_MIN, INT_MAX.
  pose proof (Z.mod_pos_bound (z + 2 ^ 31) (2 ^ 32)). lia.
Qed.

Lemma wrap_add_l a b : wrap (wrap a + b) = wrap (a + b).
Proof.
  unfold wrap. f_equal.
  replace ((a + 2 ^ 31) mod 2 ^ 32 - 2 ^ 31 + b + 2 ^ 31)
    with ((a + 2 ^ 31) mod 2 ^ 32 + b) by lia.
  rewrite Z.add_mod_idemp_l by lia. f_equal. lia.
Qed.

Lemma wrap_add_r a b : wrap (a + wrap b) = wrap (a + b).
Proof. rewrite (Z.add_comm a), wrap_add_l. f_equal. lia. Qed.

Lemma wrap_opp a : wrap (- wrap a) = wrap (- a).
Proof.
  unfold wrap. f_equal.
  replace (- ((a + 2 ^ 31) mod 2 ^ 32 - 2 ^ 31) + 2 ^ 31)
    with (2 ^ 32 - (a + 2 ^ 31) mod 2 ^ 32) by lia.
  rewrite Zminus_mod_idemp_r. f_equal. lia.
Qed.

Lemma wrap_sub_l a b : wrap (wrap a - b) = wrap (a - b).
Proof. unfold Z.sub. apply wrap_add_l. Qed.

Lemma wrap_sub_r a b : wrap (a - wrap b) = wrap (a - b).
Proof.
  unfold Z.sub. rewrite <- (wrap_add_r a (- wrap b)), wrap_opp.
  apply wrap_add_r.
Qed.

(** Two values that differ by one never wrap to the same [int]. *)
Lemma wrap_pred_neq z : wrap (z - 1) <> z.
Proof.
  unfold wrap. intros H.
  pose proof (Z.div_mod (z - 1 + 2 ^ 31) (2 ^ 32) ltac:(lia)) as Hd.
  lia.
Qed.

Lemma iadd_fits a b : fits (a + b) -> iadd a b = a + b.
Proof. apply wrap_fits. Qed.

Lemma isub_fits a b : fits (a - b) -> isub a b = a - b.
Proof. apply wrap_fits. Qed.

Lemma ineg_fits a : fits (- a) -> ineg a = - a.
Proof. apply wrap_fits. Qed.

(** ** Loops *)

Section Loops.
Context {S : Type}.
Implicit Types (body : nat -> S -> S * bool) (s : S).

(** A loop that never breaks is a fold over its indices. *)
Lemma for_loop_fold body (g : nat -> S -> S) n i s :
  (forall k t, body k t = (g k t, false)) ->
  for_loop n i body s = fold_left (fun t k => g k t) (seq i n) s.
Proof.
  intros Hb. revert i s.
  induction n as [|n IH]; intros i s; simpl; [reflexivity|].
  rewrite Hb. apply IH.
Qed.

(** A loop that searches: the state is untouched until the first index
    where [p] holds; there [h] runs and the loop is left. *)
Lemma for_loop_find body (p : nat -> S -> bool) (h : nat -> S -> S) n i s :
  (forall k t, body k t = if p k t then (h k t, true) else (t, false)) ->
  for_loop n i body s =
    match find (fun k => p k s) (seq i n) with
    | Some k => h k s
    | None => s
    end.
Proof.
  intros Hb. revert i.
  induction n as [|n IH]; intros i; simpl; [reflexivity|].
  rewrite Hb. destruct (p i s); [reflexivity | apply IH].
Qed.

(** An invariant kept by every body is kept by the loop. *)
Lemma for_loop_inv (P : S -> Prop) body n i s :
  (forall k t, P t -> P (fst (body k t))) ->
  P s -> P (for_loop n i body s).
Proof.
  intros Hb. revert i s.
  induction n as [|n IH]; intros i s Hs; simpl; [assumption|].
  specialize (Hb i s Hs). destruct (body i s) as [s' brk]. simpl in Hb.
  destruct brk; [assumption | apply IH; assumption].
Qed.
End Loops.

(** The first index in [i, i+n) at which [p] holds. *)
Lemma find_seq_Some (p : nat -> bool) n i k :
  find p (seq i n) = Some k <->
  (i <= k < i + n)%nat /\ p k = true /\
  forall j, (i <= j < k)%nat -> p j = false.
Proof.
  revert i. induction n as [|n IH]; intros i; simpl.
  - split; [discriminate | lia].
  - destruct (p i) eqn:Hi.
    + split.
      * intros [= <-]. repeat split; try lia. assumption.
      * intros (Hk & Hp & Hlt).
        destruct (decide (k = i)) as [->|Hne]; [reflexivity|].
        rewrite (Hlt i) in Hi by lia. discriminate.
    + rewrite IH. split.
      * intros (Hk & Hp & Hlt). repeat split; try lia; [assumption|].
        intros j Hj. destruct (decide (j = i)) as [->|Hne]; [assumption|].
        apply Hlt. lia.
      * intros (Hk & Hp & Hlt).
        assert (k <> i) by (intros ->; congruence).
        repeat split; try lia; [assumption|]. intros j Hj. apply Hlt. lia.
Qed.

Lemma find_seq_None (p : nat -> bool) n i :
  find p (seq i n) = None <->
  forall j, (i <= j < i + n)%nat -> p j = false.
Proof.
  revert i. induction n as [|n IH]; intros i; simpl.
  - split; [lia | reflexivity].
  - destruct (p i) eqn:Hi.
    + split; [discriminate|]. intros H. rewrite (H i) in Hi by lia.
      discriminate.
    + rewrite IH. split; intros H j Hj.
      * destruct (decide (j = i)) as [->|Hne]; [assumption | apply H; lia].
      * apply H. lia.
Qed.

(** ** Arrays of the declared size *)

Lemma length_5 {A} (l : list A) :
  length l = 5%nat -> exists a b c d e, l = [a; b; c; d; e].
Proof.
  destruct l as [|a [|b [|c [|d [|e [|? ?]]]]]]; try discriminate.
  intros _. eauto 6.
Qed.

Lemma length_8 {A} (l : list A) :
  length l = 8%nat ->
  exists a b c d e f g h, l = [a; b; c; d; e; f; g; h].
Proof.
  destruct l as [|a [|b [|c [|d [|e [|f [|g [|h [|? ?]]]]]]]]];
    try discriminate.
  intros _. eauto 9.
Qed.

(** Name the slots of the two arrays of a well-formed state. *)
Ltac slots s H :=
  let Hb := fresh "Hb" in
  let Ha := fresh "Ha" in
  destruct H as [Hb Ha];
  destruct s as [p bs al over lives score dir];
  cbn [bullets aliens] in Hb, Ha;
  apply length_5 in Hb; destruct Hb as (b0 & b1 & b2 & b3 & b4 & ->);
  apply length_8 in Ha;
  destruct Ha as (a0 & a1 & a2 & a3 & a4 & a5 & a6 & a7 & ->).

Lemma init_eq : init = start_game.
Proof. reflexivity. Qed.

(** The set-up code overwrites every field: what the stack held before does
    not matter. *)
Lemma main_setup_init p bs al :
  length bs = MAX_BULLETS -> length al = ALIEN_COUNT ->
  main_setup p bs al = init.
Proof.
  intros Hb Ha.
  apply length_5 in Hb; destruct Hb as (b0 & b1 & b2 & b3 & b4 & ->).
  apply length_8 in Ha;
    destruct Ha as (a0 & a1 & a2 & a3 & a4 & a5 & a6 & a7 & ->).
  reflexivity.
Qed.

Lemma resetGame_init s : wf s -> resetGame ALIEN_COUNT s = init.
Proof. intros H. slots s H. reflexivity. Qed.

(** ** The collision predicate *)

(** C7: [rect_collide] returns true exactly when the four strict
    inequalities A.left < B.right, A.right > B.left, A.top < B.bottom and
    A.bottom > B.top hold (the four edge sums being representable [int]s,
    as they are in every run, see [runs_never_overflow]), which for
    rectangles of positive size is when their intersection has nonzero area;
    rectangles that only touch, with equality in one of the four
    comparisons, do not collide. *)
Theorem rect_collide_spec x1 y1 w1 h1 x2 y2 w2 h2 :
  fits (x1 + w1) -> fits (y1 + h1) -> fits (x2 + w2) -> fits (y2 + h2) ->
  (rect_collide x1 y1 w1 h1 x2 y2 w2 h2 = true <->
     x1 < x2 + w2 /\ x1 + w1 > x2 /\ y1 < y2 + h2 /\ y1 + h1 > y2) /\
  (x1 = x2 + w2 \/ x1 + w1 = x2 \/ y1 = y2 + h2 \/ y1 + h1 = y2 ->
     rect_collide x1 y1 w1 h1 x2 y2 w2 h2 = false) /\
  (0 < w1 -> 0 < h1 -> 0 < w2 -> 0 < h2 ->
     (rect_collide x1 y1 w1 h1 x2 y2 w2 h2 = true <->
        0 < overlap_area x1 y1 w1 h1 x2 y2 w2 h2)).
Proof.
  intros F1 F2 F3 F4. unfold rect_collide.
  rewrite !iadd_fits by assumption.
  assert (Hiff :
    (x1 <? x2 + w2) && (x1 + w1 >? x2) && (y1 <? y2 + h2) && (y1 + h1 >? y2)
      = true <->
    x1 < x2 + w2 /\ x1 + w1 > x2 /\ y1 < y2 + h2 /\ y1 + h1 > y2).
  { rewrite !andb_true_iff, !Z.ltb_lt, !Z.gtb_gt. tauto. }
  split; [exact Hiff|]. split.
  - intros Htouch. apply not_true_is_false. rewrite Hiff. lia.
  - intros P1 P2 P3 P4. rewrite Hiff. unfold overlap_area. split.
    + intros (I1 & I2 & I3 & I4). apply Z.mul_pos_pos; lia.
    + intros Harea.
      destruct (Z.max_spec 0 (Z.min (x1 + w1) (x2 + w2) - Z.max x1 x2))
        as [[Hx Ex]|[Hx Ex]];
      destruct (Z.max_spec 0 (Z.min (y1 + h1) (y2 + h2) - Z.max y1 y2))
        as [[Hy Ey]|[Hy Ey]];
      rewrite Ex, Ey in Harea; try lia.
Qed.

Lemma rect_collide_spec_witness :
  rect_collide 318 48 4 10 300 50 32 32 = true <->
  318 < 300 + 32 /\ 318 + 4 > 300 /\ 48 < 50 + 32 /\ 48 + 10 > 50.
Proof.
  apply (rect_collide_spec 318 48 4 10 300 50 32 32);
    unfold fits, INT_MIN, INT_MAX; lia.
Defined.

(** ** Key events *)

(** C9: releasing the left (right) arrow clears the velocity exactly when it
    is negative (positive) and otherwise leaves the whole state as it is;
    pressing left sets the velocity to -5 and pressing right to +5 whatever
    it was before, and touches nothing else. *)
Theorem arrow_keys s :
  (p_vx (player s) < 0 ->
     game_event (SDL_KEYUP SDLK_LEFT) s =
       with_player (set_p_vx 0 (player s)) s) /\
  (0 <= p_vx (player s) -> game_event (SDL_KEYUP SDLK_LEFT) s = s) /\
  (p_vx (player s) > 0 ->
     game_event (SDL_KEYUP SDLK_RIGHT) s =
       with_player (set_p_vx 0 (player s)) s) /\
  (p_vx (player s) <= 0 -> game_event (SDL_KEYUP SDLK_RIGHT) s = s) /\
  game_event (SDL_KEYDOWN SDLK_LEFT) s =
    with_player (set_p_vx (-5) (player s)) s /\
  game_event (SDL_KEYDOWN SDLK_RIGHT) s =
    with_player (set_p_vx 5 (player s)) s.
Proof.
  cbn [game_event key_up key_down].
  repeat split; intros; try reflexivity.
  - destruct (Z.ltb_spec (p_vx (player s)) 0); [reflexivity | lia].
  - destruct (Z.ltb_spec (p_vx (player s)) 0); [lia | reflexivity].
  - destruct (Z.gtb_spec (p_vx (player s)) 0); [reflexivity | lia].
  - destruct (Z.gtb_spec (p_vx (player s)) 0); [lia | reflexivity].
Qed.

(** Released while the ship moves right, the left arrow changes nothing. *)
Lemma arrow_keys_witness :
  let s := game_event (SDL_KEYDOWN SDLK_RIGHT) init in
  game_event (SDL_KEYUP SDLK_LEFT) s = s /\
  p_vx (player (game_event (SDL_KEYUP SDLK_RIGHT) s)) = 0.
Proof.
  intros s.
  destruct (arrow_keys s) as (_ & Hl & Hr & _).
  split.
  - apply Hl. vm_compute. discriminate.
  - rewrite Hr; [reflexivity | vm_compute; reflexivity].
Defined.

(** ** Restart *)

(** C5: from a state in which the game is over, the restart key gives the
    state of process start: score 0, three lives, game-over cleared,
    direction +1, the player centred at ((640-32)/2, 480-(32+40)) with zero
    velocity, five inactive bullets and eight active aliens at
    (50+50i, 50), which is what the set-up code of [main] builds whatever
    the stack held; while the game is not over the key changes nothing. *)
Theorem restart_spec s :
  wf s ->
  (gGameOver s = true ->
     game_event (SDL_KEYDOWN SDLK_r) s = init /\
     (forall p bs al,
        length bs = MAX_BULLETS -> length al = ALIEN_COUNT ->
        main_setup p bs al = init) /\
     init = start_game /\
     gScore init = 0 /\ gLives init = 3 /\ gGameOver init = false /\
     gAlienMoveDir init = 1 /\
     player init = mkPlayer ((640 - 32) / 2) (480 - (32 + 40)) 32 32 0 /\
     length (bullets init) = 5%nat /\
     (forall b, b ∈ bullets init -> b_active b = false) /\
     length (aliens init) = 8%nat /\
     (forall i a, aliens init !! i = Some a ->
        a_active a = true /\ a_x a = 50 + 50 * Z.of_nat i /\ a_y a = 50)) /\
  (gGameOver s = false -> game_event (SDL_KEYDOWN SDLK_r) s = s).
Proof.
  intros Hwf. cbn [game_event key_down]. unfold restart. split.
  - intros ->. rewrite (resetGame_init s Hwf).
    assert (Hal : forall i a, aliens init !! i = Some a -> a = start_alien i).
    { intros i a Hi. rewrite init_eq in Hi. cbn [aliens start_game] in Hi.
      apply list_lookup_fmap_Some in Hi as (k & -> & Hk).
      apply lookup_seq in Hk as [-> _]. reflexivity. }
    repeat apply conj; try reflexivity.
    + apply main_setup_init.
    + intros b Hb. rewrite init_eq in Hb. cbn [bullets start_game] in Hb.
      apply elem_of_replicate in Hb as [-> _]. reflexivity.
    + intros i a Hi. rewrite (Hal i a Hi). repeat split.
  - intros ->. reflexivity.
Qed.

(** ** Loops over an array *)

Lemma alter_lookup_insert {A} (f : A -> A) (l : list A) i x :
  l !! i = Some x -> alter f i l = <[i:=f x]> l.
Proof.
  intros Hi. rewrite list_insert_alter. apply list_alter_ext; [|reflexivity].
  intros y Hy. congruence.
Qed.

Lemma alter_outside {A} (f : A -> A) (l : list A) i :
  l !! i = None -> alter f i l = l.
Proof.
  revert i. induction l as [|x l IH]; intros [|i] Hi; try reflexivity.
  - discriminate.
  - cbn [alter list_alter]. f_equal. apply IH. assumption.
Qed.

(** [if (c(arr[i])) arr[i] = g(arr[i]);] as one store.  The read outside the
    array gives the inactive default, where the store does nothing. *)
Lemma alter_cond {A} `{!Inhabited A} (c : A -> bool) (g : A -> A)
    (l : list A) i :
  c inhabitant = false ->
  (if c (l !!! i) then alter g i l else l) =
  alter (fun a => if c a then g a else a) i l.
Proof.
  intros Hc. rewrite list_lookup_total_alt.
  destruct (l !! i) as [x|] eqn:Hi; simpl.
  - destruct (c x) eqn:Hx.
    + apply list_alter_ext; [|reflexivity]. intros y Hy.
      assert (y = x) as -> by congruence. rewrite Hx. reflexivity.
    + symmetry. rewrite (alter_lookup_insert _ _ _ _ Hi), Hx.
      apply list_insert_id. assumption.
  - rewrite Hc. symmetry. apply alter_outside. assumption.
Qed.

(** A loop that rewrites slot [k] at index [k], run over the whole array. *)
Lemma fold_alter_imap {A} (f : nat -> A -> A) (l1 l2 : list A) :
  fold_left (fun t k => alter (f k) k t) (seq (length l1) (length l2))
    (l1 ++ l2) =
  l1 ++ imap (fun n => f (length l1 + n)%nat) l2.
Proof.
  revert l1. induction l2 as [|x l2 IH]; intros l1; [reflexivity|].
  cbn [length seq fold_left].
  rewrite alter_app_r_alt by lia. rewrite Nat.sub_diag. cbn [alter list_alter].
  replace (l1 ++ f (length l1) x :: l2) with ((l1 ++ [f (length l1) x]) ++ l2)
    by (rewrite <- app_assoc; reflexivity).
  replace (Datatypes.S (length l1)) with (length (l1 ++ [f (length l1) x]))
    by (rewrite length_app; simpl; lia).
  rewrite IH. rewrite <- app_assoc. cbn [app imap]. f_equal.
  rewrite Nat.add_0_r. f_equal.
  apply imap_ext. intros i y _. simpl. f_equal.
  rewrite length_app. simpl. lia.
Qed.

Lemma for_loop_alter {A} (f : nat -> A -> A) body (l : list A) n :
  (forall k t, body k t = (alter (f k) k t, false)) ->
  n = length l ->
  for_loop n 0 body l = imap f l.
Proof.
  intros Hb ->. rewrite (for_loop_fold body (fun k t => alter (f k) k t))
    by assumption.
  apply (fold_alter_imap f [] l).
Qed.

Lemma for_loop_length {A} (body : nat -> list A -> list A * bool) n i l :
  (forall k t, length (fst (body k t)) = length t) ->
  length (for_loop n i body l) = length l.
Proof.
  intros Hb.
  apply (for_loop_inv (fun t => length t = length l)); [|reflexivity].
  intros k t Ht. rewrite Hb. assumption.
Qed.

(** ** What each loop of the source computes *)

(** *** Firing *)

Lemma fire_eq s :
  fire s =
    if gGameOver s then s
    else match free_slot (bullets s) with
         | Some k => with_bullets (alter (fire_bullet (player s)) k (bullets s)) s
         | None => s
         end.
Proof.
  unfold fire. destruct (gGameOver s); [reflexivity|]. cbn [negb].
  rewrite (for_loop_find _ (fun k bs => negb (b_active (bs !!! k)))
             (fun k bs => alter (fire_bullet (player s)) k bs)).
  - unfold free_slot. destruct (find _ _); [reflexivity|].
    destruct s; reflexivity.
  - intros k t. destruct (negb (b_active (t !!! k))); [|reflexivity].
    rewrite !list_alter_alter_eq. reflexivity.
Qed.

(** *** Formation movement *)

Lemma needDescend_eq s :
  needDescend s = match first_crossing s with Some _ => true | None => false end.
Proof.
  unfold needDescend.
  rewrite (for_loop_find _
             (fun k (_ : bool) =>
                a_active (aliens s !!! k) &&
                crossing (gAlienMoveDir s) (aliens s !!! k))
             (fun _ _ => true)).
  - reflexivity.
  - intros k t. cbv zeta. destruct (a_active (aliens s !!! k)); cbn [negb andb].
    + unfold crossing. cbv zeta. reflexivity.
    + reflexivity.
Qed.

Lemma move_aliens_eq s :
  length (aliens s) = ALIEN_COUNT ->
  move_aliens s =
    if needDescend s
    then with_aliens (descend_alien <$> aliens s)
           (with_gAlienMoveDir (ineg (gAlienMoveDir s)) s)
    else with_aliens (slide_alien (gAlienMoveDir s) <$> aliens s) s.
Proof.
  intros Hlen. unfold move_aliens. destruct (needDescend s).
  - f_equal. cbn [aliens with_gAlienMoveDir].
    rewrite (for_loop_alter (fun _ => descend_alien)); [apply imap_const| |].
    + intros k t. unfold descend_alien.
      rewrite <- (alter_cond a_active) by reflexivity.
      destruct (a_active (t !!! k)); reflexivity.
    + symmetry. assumption.
  - f_equal.
    rewrite (for_loop_alter (fun _ => slide_alien (gAlienMoveDir s)));
      [apply imap_const| |].
    + intros k t. unfold slide_alien.
      rewrite <- (alter_cond a_active) by reflexivity.
      destruct (a_active (t !!! k)); reflexivity.
    + symmetry. assumption.
Qed.

(** *** Bullet against aliens *)

Lemma scan_aliens_eq b s :
  scan_aliens b s =
    match first_hit b s with Some i => destroy b i s | None => s end.
Proof.
  unfold scan_aliens.
  rewrite (for_loop_find _
             (fun k t => hits (bullets t !!! b) (aliens t !!! k))
             (fun k t => destroy b k t)).
  - reflexivity.
  - intros k t. unfold hits. cbv zeta.
    destruct (a_active (aliens t !!! k)); cbn [negb andb]; reflexivity.
Qed.

Lemma collide_eq s :
  collide s = fold_left (fun t b => shoot b t) (seq 0 MAX_BULLETS) s.
Proof.
  unfold collide. apply for_loop_fold.
  intros k t. unfold shoot. destruct (b_active (bullets t !!! k)); reflexivity.
Qed.

(** *** Row check *)

Lemma row_check_eq s :
  row_check s =
    match first_reaching s with Some _ => lose_life s | None => s end.
Proof.
  unfold row_check.
  rewrite (for_loop_find _
             (fun k t => reaches (player t) (aliens t !!! k))
             (fun _ t => lose_life t)).
  - reflexivity.
  - intros k t. unfold reaches. cbv zeta.
    destruct (a_active (aliens t !!! k)); cbn [andb]; reflexivity.
Qed.

Lemma wave_reset_eq s :
  wf s ->
  wave_reset s =
    with_bullets (set_b_active false <$> bullets s)
      (with_aliens (imap wave_alien (aliens s)) s).
Proof.
  intros [Hb Ha]. unfold wave_reset. cbn [bullets with_aliens].
  rewrite (for_loop_alter wave_alien) by (auto || reflexivity).
  rewrite (for_loop_alter (fun _ => set_b_active false))
    by (auto || reflexivity).
  f_equal. apply imap_const.
Qed.

(** *** Victory check *)

Lemma all_aliens_dead_eq s :
  all_aliens_dead s =
    match find (fun k => a_active (aliens s !!! k)) (seq 0 ALIEN_COUNT) with
    | Some _ => false
    | None => true
    end.
Proof.
  unfold all_aliens_dead.
  rewrite (for_loop_find _ (fun k (_ : bool) => a_active (aliens s !!! k))
             (fun _ _ => false)); [reflexivity|].
  intros k t. destruct (a_active (aliens s !!! k)); reflexivity.
Qed.

(** ** The arrays keep their size *)

Lemma wf_init : wf init.
Proof. split; reflexivity. Qed.

Lemma wf_fire s : wf s -> wf (fire s).
Proof.
  intros [Hb Ha]. rewrite fire_eq. destruct (gGameOver s); [split; assumption|].
  destruct (free_slot (bullets s)); [|split; assumption].
  split; cbn [bullets aliens with_bullets]; [|assumption].
  rewrite length_alter. assumption.
Qed.

Lemma wf_game_event e s : wf s -> wf (game_event e s).
Proof.
  intros H. destruct e as [|[]|[]|]; cbn [game_event key_down key_up];
    try assumption.
  - apply wf_fire, H.
  - unfold restart. destruct (gGameOver s); [|assumption].
    rewrite resetGame_init by assumption. apply wf_init.
  - destruct (_ <? _); [apply H | assumption].
  - destruct (_ >? _); [apply H | assumption].
Qed.

Lemma wf_move_player s : wf s -> wf (move_player s).
Proof. intros H. apply H. Qed.

Lemma wf_update_bullets s : wf s -> wf (update_bullets s).
Proof.
  intros [Hb Ha]. split; [|assumption].
  unfold update_bullets. cbn [bullets with_bullets].
  rewrite for_loop_length; [assumption|].
  intros k t. destruct (b_active (t !!! k)); [|reflexivity].
  cbv zeta. destruct (_ <? _); cbn [fst]; rewrite ?length_alter; reflexivity.
Qed.

Lemma wf_move_aliens s : wf s -> wf (move_aliens s).
Proof.
  intros [Hb Ha]. rewrite move_aliens_eq by assumption.
  destruct (needDescend s); split; cbn; rewrite ?length_fmap; assumption.
Qed.

Lemma wf_destroy b i s : wf s -> wf (destroy b i s).
Proof.
  intros [Hb Ha]. split; cbn; rewrite length_alter; assumption.
Qed.

Lemma wf_shoot b s : wf s -> wf (shoot b s).
Proof.
  intros H. unfold shoot. destruct (b_active _); [|assumption].
  rewrite scan_aliens_eq. destruct (first_hit b s); [|assumption].
  apply wf_destroy, H.
Qed.

Lemma fold_left_inv {A B} (P : A -> Prop) (f : A -> B -> A) l a :
  (forall x b, P x -> P (f x b)) -> P a -> P (fold_left f l a).
Proof.
  intros Hf. revert a. induction l as [|b l IH]; intros a Ha; simpl; auto.
Qed.

Lemma wf_collide s : wf s -> wf (collide s).
Proof.
  intros H. rewrite collide_eq. apply fold_left_inv; [|assumption].
  intros x b. apply wf_shoot.
Qed.

Lemma wf_lose_life_reset s : wf s -> wf (wave_reset s).
Proof.
  intros H. rewrite wave_reset_eq by apply H. destruct H as [Hb Ha].
  split; cbn; rewrite ?length_fmap, ?length_imap; assumption.
Qed.

Lemma wf_lose_life s : wf s -> wf (lose_life s).
Proof.
  intros H. unfold lose_life. cbv zeta. destruct (_ <=? _); [apply H|].
  apply wf_lose_life_reset, H.
Qed.

Lemma wf_row_check s : wf s -> wf (row_check s).
Proof.
  intros H. rewrite row_check_eq. destruct (first_reaching s); [|assumption].
  apply wf_lose_life, H.
Qed.

Lemma wf_update_logic s : wf s -> wf (update_logic s).
Proof.
  intros H. unfold update_logic. destruct (negb _); [|assumption].
  auto using wf_row_check, wf_collide, wf_move_aliens, wf_update_bullets,
    wf_move_player.
Qed.

Lemma wf_victory_check s : wf s -> wf (victory_check s).
Proof.
  intros H. unfold victory_check. destruct (_ && _); [apply H | assumption].
Qed.

Lemma wf_frame s : wf s -> wf (frame s).
Proof. intros H. apply wf_victory_check, wf_update_logic, H. Qed.

Lemma reachable_wf s : reachable s -> wf s.
Proof.
  induction 1; auto using wf_init, wf_game_event, wf_frame.
Qed.

(** ** Firing *)

Lemma active_bullets_le bs : (active_bullets bs <= length bs)%nat.
Proof.
  unfold active_bullets. induction bs as [|b bs IH]; simpl; [lia|].
  destruct (b_active b); simpl; lia.
Qed.

Lemma fire_bullet_fired p b :
  fits (p_x p + p_w p ÷ 2 - b_w b ÷ 2) -> fits (p_y p - b_h b) ->
  fire_bullet p b = fired p b.
Proof.
  intros Fx Fy. unfold fire_bullet, fired, set_b_y, set_b_x, set_b_active.
  cbn [b_x b_y b_w b_h b_active]. f_equal.
  - unfold isub, iadd, idiv. rewrite wrap_sub_r, wrap_add_r, wrap_sub_l.
    apply wrap_fits. assumption.
  - apply isub_fits. assumption.
Qed.

Lemma free_slot_Some bs i b :
  length bs = MAX_BULLETS ->
  bs !! i = Some b -> b_active b = false ->
  (forall j b', (j < i)%nat -> bs !! j = Some b' -> b_active b' = true) ->
  free_slot bs = Some i.
Proof.
  intros Hlen Hi Hb Hlt. unfold free_slot. apply find_seq_Some.
  pose proof (lookup_lt_Some _ _ _ Hi) as Hlti.
  split; [lia|]. split.
  - rewrite (list_lookup_total_correct _ _ _ Hi), Hb. reflexivity.
  - intros j Hj.
    destruct (lookup_lt_is_Some_2 bs j ltac:(lia)) as [b' Hb'].
    rewrite (list_lookup_total_correct _ _ _ Hb').
    rewrite (Hlt j b') by (lia || assumption). reflexivity.
Qed.

Lemma free_slot_None bs :
  length bs = MAX_BULLETS ->
  (forall b, b ∈ bs -> b_active b = true) ->
  free_slot bs = None.
Proof.
  intros Hlen Hall. unfold free_slot. apply find_seq_None. intros j Hj.
  destruct (lookup_lt_is_Some_2 bs j ltac:(lia)) as [b' Hb'].
  rewrite (list_lookup_total_correct _ _ _ Hb').
  rewrite (Hall b'); [reflexivity|]. eapply list_elem_of_lookup_2. eassumption.
Qed.

(** C6: the fire key does nothing when the game is over or when all five
    slots are active; otherwise it activates the lowest-index inactive slot
    and only that one, with the bullet centred on the player
    (x = player.x + player.w/2 - bullet.w/2) and its bottom on the player's
    top edge (a representable position in every run, see
    [runs_never_overflow]).  At most five bullets are ever active. *)
Theorem fire_spec s :
  wf s ->
  (gGameOver s = true -> game_event (SDL_KEYDOWN SDLK_SPACE) s = s) /\
  ((forall b, b ∈ bullets s -> b_active b = true) ->
     game_event (SDL_KEYDOWN SDLK_SPACE) s = s) /\
  (forall i b,
     gGameOver s = false ->
     bullets s !! i = Some b -> b_active b = false ->
     (forall j b', (j < i)%nat -> bullets s !! j = Some b' ->
                   b_active b' = true) ->
     fits (p_x (player s) + p_w (player s) ÷ 2 - b_w b ÷ 2) ->
     fits (p_y (player s) - b_h b) ->
     game_event (SDL_KEYDOWN SDLK_SPACE) s =
       with_bullets (<[i := fired (player s) b]> (bullets s)) s /\
     b_y (fired (player s) b) + b_h (fired (player s) b) = p_y (player s)) /\
  (active_bullets (bullets (game_event (SDL_KEYDOWN SDLK_SPACE) s)) <= 5)%nat /\
  (forall t, reachable t -> (active_bullets (bullets t) <= 5)%nat).
Proof.
  intros Hwf. cbn [game_event key_down]. repeat apply conj.
  - intros Hover. rewrite fire_eq, Hover. reflexivity.
  - intros Hall. rewrite fire_eq. destruct (gGameOver s); [reflexivity|].
    rewrite free_slot_None; [reflexivity | apply Hwf | assumption].
  - intros i b Hover Hi Hb Hlt Fx Fy. split; [|cbn; lia].
    rewrite fire_eq, Hover.
    rewrite (free_slot_Some (bullets s) i b) by (apply Hwf || assumption).
    rewrite (alter_lookup_insert _ _ _ _ Hi).
    rewrite fire_bullet_fired by assumption. reflexivity.
  - pose proof (wf_fire s Hwf) as [Hb _].
    pose proof (active_bullets_le (bullets (fire s))) as Hle.
    rewrite Hb in Hle. exact Hle.
  - intros t Ht. apply reachable_wf in Ht as [Hb _].
    pose proof (active_bullets_le (bullets t)) as Hle.
    rewrite Hb in Hle. exact Hle.
Qed.

(** At process start the shot goes into slot 0, at (318, 398). *)
Lemma fire_spec_witness :
  game_event (SDL_KEYDOWN SDLK_SPACE) init =
    with_bullets (<[0%nat := mkBullet 318 398 4 10 true]> (bullets init)) init.
Proof.
  destruct (fire_spec init wf_init) as (_ & _ & Hfire & _).
  refine (proj1 (Hfire 0%nat (mkBullet 0 0 4 10 false) _ _ _ _ _ _)).
  - reflexivity.
  - reflexivity.
  - reflexivity.
  - intros j b' Hj. lia.
  - vm_compute. split; discriminate.
  - vm_compute. split; discriminate.
Defined.

(** ** What the collision step leaves alone *)

Lemma battle_refl s : battle s s.
Proof.
  repeat apply conj; try reflexivity.
  - apply Forall_Forall2_diag, Forall_forall. intros a _.
    repeat apply conj; auto.
  - apply Forall_Forall2_diag, Forall_forall. intros b _.
    repeat apply conj; auto.
Qed.

Lemma battle_destroy s t b i : battle s t -> battle s (destroy b i t).
Proof.
  intros (Hp & Ho & Hl & Hd & Ha & Hb).
  repeat apply conj; cbn; try assumption.
  - apply Forall2_alter_r; [assumption|].
    intros x y _ _ (? & ? & ? & ? & ?). repeat apply conj; auto.
    cbn. discriminate.
  - apply Forall2_alter_r; [assumption|].
    intros x y _ _ (? & ? & ? & ? & ?). repeat apply conj; auto.
    cbn. discriminate.
Qed.

Lemma battle_shoot s t b : battle s t -> battle s (shoot b t).
Proof.
  intros H. unfold shoot. destruct (b_active _); [|assumption].
  rewrite scan_aliens_eq. destruct (first_hit b t); [|assumption].
  apply battle_destroy, H.
Qed.

Lemma battle_collide s : battle s (collide s).
Proof.
  rewrite collide_eq. apply fold_left_inv; [|apply battle_refl].
  intros x b. apply battle_shoot.
Qed.

(** ** What the row check leaves alone *)

Lemma lose_life_globals s :
  player (lose_life s) = player s /\
  gLives (lose_life s) = isub (gLives s) 1 /\
  gScore (lose_life s) = gScore s /\
  gAlienMoveDir (lose_life s) = gAlienMoveDir s.
Proof.
  unfold lose_life. cbv zeta. destruct (_ <=? _); repeat split.
Qed.

Lemma row_check_globals s :
  player (row_check s) = player s /\
  gScore (row_check s) = gScore s /\
  gAlienMoveDir (row_check s) = gAlienMoveDir s.
Proof.
  rewrite row_check_eq. destruct (first_reaching s); [|repeat split].
  destruct (lose_life_globals s) as (? & ? & ? & ?). repeat split; assumption.
Qed.

Lemma victory_check_fields s :
  player (victory_check s) = player s /\
  bullets (victory_check s) = bullets s /\
  aliens (victory_check s) = aliens s /\
  gLives (victory_check s) = gLives s /\
  gScore (victory_check s) = gScore s /\
  gAlienMoveDir (victory_check s) = gAlienMoveDir s.
Proof. unfold victory_check. destruct (_ && _); repeat split. Qed.

(** The boundary check and the formation movement read the aliens and the
    direction only. *)
Lemma needDescend_ext s t :
  aliens t = aliens s -> gAlienMoveDir t = gAlienMoveDir s ->
  needDescend t = needDescend s.
Proof.
  intros Ha Hd. rewrite !needDescend_eq. unfold first_crossing.
  rewrite Ha, Hd. reflexivity.
Qed.

Lemma move_aliens_ext s t :
  length (aliens s) = ALIEN_COUNT ->
  aliens t = aliens s -> gAlienMoveDir t = gAlienMoveDir s ->
  aliens (move_aliens t) = aliens (move_aliens s) /\
  gAlienMoveDir (move_aliens t) = gAlienMoveDir (move_aliens s).
Proof.
  intros Hlen Ha Hd.
  rewrite (move_aliens_eq s), (move_aliens_eq t) by congruence.
  rewrite (needDescend_ext s t Ha Hd).
  destruct (needDescend s); cbn; rewrite Ha, Hd; split; reflexivity.
Qed.

Lemma move_aliens_globals s :
  player (move_aliens s) = player s /\
  bullets (move_aliens s) = bullets s /\
  gGameOver (move_aliens s) = gGameOver s /\
  gLives (move_aliens s) = gLives s /\
  gScore (move_aliens s) = gScore s.
Proof. unfold move_aliens. destruct (needDescend s); repeat split. Qed.

(** ** Formation movement: descend or translate *)

Lemma newX_fits dir a :
  fits (a_x a + ALIEN_SPEED * dir) ->
  iadd (a_x a) (imul ALIEN_SPEED dir) = a_x a + ALIEN_SPEED * dir.
Proof.
  intros F. unfold iadd, imul. rewrite wrap_add_r. apply wrap_fits, F.
Qed.

Lemma crossing_spec dir a :
  fits (a_x a + ALIEN_SPEED * dir) ->
  fits (a_x a + ALIEN_SPEED * dir + a_w a) ->
  crossing dir a = true <-> crosses dir a.
Proof.
  intros F1 F2. unfold crossing, crosses. cbv zeta.
  rewrite (newX_fits dir a F1), (iadd_fits _ _ F2).
  rewrite orb_true_iff, Z.ltb_lt, Z.gtb_gt. reflexivity.
Qed.

Lemma needDescend_spec s :
  wf s -> formation_fits s -> needDescend s = true <-> must_descend s.
Proof.
  intros [_ Hlen] [_ Hfit]. rewrite needDescend_eq. unfold first_crossing.
  split.
  - destruct (find _ _) as [k|] eqn:Hk; [intros _ | discriminate].
    apply find_seq_Some in Hk as (Hlt & Hp & _).
    apply andb_true_iff in Hp as [Hact Hcr].
    assert (Hin : aliens s !!! k ∈ aliens s).
    { apply list_elem_of_lookup_total_2. rewrite Hlen. lia. }
    exists (aliens s !!! k). repeat split; try assumption.
    destruct (Hfit _ Hin Hact) as (F1 & F2 & _).
    apply crossing_spec; assumption.
  - intros (a & Hin & Hact & Hcr).
    destruct (find _ _) as [k|] eqn:Hk; [reflexivity|]. exfalso.
    apply list_elem_of_lookup in Hin as [k Hka].
    pose proof (lookup_lt_Some _ _ _ Hka) as Hlt. rewrite Hlen in Hlt.
    rewrite find_seq_None in Hk. specialize (Hk k ltac:(lia)).
    rewrite (list_lookup_total_correct _ _ _ Hka), Hact in Hk.
    cbn [andb] in Hk.
    destruct (Hfit a ltac:(eapply list_elem_of_lookup_2; eassumption) Hact)
      as (F1 & F2 & _).
    apply (crossing_spec _ _ F1 F2) in Hcr. congruence.
Qed.

Lemma descend_alien_descended a :
  (a_active a = true -> fits (a_y a + ALIEN_DESCENT)) ->
  descend_alien a = descended a.
Proof.
  intros F. unfold descend_alien, descended, set_a_y.
  destruct (a_active a) eqn:Hact; [|reflexivity].
  rewrite iadd_fits by auto. reflexivity.
Qed.

Lemma slide_alien_translated dir a :
  (a_active a = true -> fits (a_x a + ALIEN_SPEED * dir)) ->
  slide_alien dir a = translated dir a.
Proof.
  intros F. unfold slide_alien, translated, set_a_x.
  destruct (a_active a) eqn:Hact; [|reflexivity].
  rewrite newX_fits by auto. reflexivity.
Qed.

(** The formation step, as the design describes it. *)
Lemma move_aliens_spec s :
  wf s -> formation_fits s ->
  (must_descend s ->
     move_aliens s =
       with_aliens (descended <$> aliens s)
         (with_gAlienMoveDir (- gAlienMoveDir s) s)) /\
  (~ must_descend s ->
     move_aliens s =
       with_aliens (translated (gAlienMoveDir s) <$> aliens s) s).
Proof.
  intros Hwf Hfit. pose proof (needDescend_spec s Hwf Hfit) as Hnd.
  destruct Hfit as [Fd Hfit].
  rewrite move_aliens_eq by apply Hwf. split; intros Hm.
  - apply Hnd in Hm. rewrite Hm. rewrite ineg_fits by assumption.
    f_equal. apply list_fmap_ext. intros i a Hi.
    apply descend_alien_descended. intros Hact.
    apply (Hfit a); [eapply list_elem_of_lookup_2; eassumption | assumption].
  - destruct (needDescend s); [exfalso; apply Hm, Hnd; reflexivity|].
    f_equal. apply list_fmap_ext. intros i a Hi.
    apply slide_alien_translated. intros Hact.
    apply (Hfit a); [eapply list_elem_of_lookup_2; eassumption | assumption].
Qed.

(** ** The row check *)

Lemma wave_alien_regrouped i a :
  (i < ALIEN_COUNT)%nat -> wave_alien i a = regrouped i a.
Proof.
  intros Hi. unfold wave_alien, regrouped, set_a_y, set_a_x, set_a_active.
  cbn [a_x a_y a_w a_h a_active]. f_equal.
  unfold iadd, imul. rewrite wrap_add_r. unfold ALIEN_START_X, ALIEN_SPACING.
  unfold ALIEN_COUNT in Hi.
  rewrite wrap_fits; [lia|]. unfold fits, INT_MIN, INT_MAX. lia.
Qed.

Lemma imap_wave_alien al :
  length al = ALIEN_COUNT -> imap wave_alien al = imap regrouped al.
Proof.
  intros Hlen. apply imap_ext. intros i a Hi.
  apply wave_alien_regrouped. rewrite <- Hlen.
  eapply lookup_lt_Some. eassumption.
Qed.

Lemma row_check_cases s :
  (first_reaching s = None /\ row_check s = s) \/
  (first_reaching s <> None /\ isub (gLives s) 1 <= 0 /\
   row_check s = with_gGameOver true (with_gLives (isub (gLives s) 1) s)) \/
  (first_reaching s <> None /\ isub (gLives s) 1 > 0 /\
   row_check s = wave_reset (with_gLives (isub (gLives s) 1) s)).
Proof.
  rewrite row_check_eq. destruct (first_reaching s) as [k|]; [|left; auto].
  right. unfold lose_life. cbv zeta. cbn [gLives with_gLives].
  destruct (Z.leb_spec (isub (gLives s) 1) 0).
  - left. repeat split; [discriminate | assumption].
  - right. repeat split; [discriminate | lia].
Qed.

Lemma first_reaching_spec s :
  wf s -> row_fits s -> first_reaching s <> None <-> row_reached s.
Proof.
  intros [_ Hlen] Hfit. unfold first_reaching. split.
  - destruct (find _ _) as [k|] eqn:Hk; [intros _ | congruence].
    apply find_seq_Some in Hk as (Hlt & Hp & _).
    apply andb_true_iff in Hp as [Hact Hre].
    assert (Hin : aliens s !!! k ∈ aliens s).
    { apply list_elem_of_lookup_total_2. rewrite Hlen. lia. }
    exists (aliens s !!! k). repeat split; try assumption.
    rewrite iadd_fits in Hre by auto. apply Z.geb_le in Hre. lia.
  - intros (a & Hin & Hact & Hre) Hnone.
    apply list_elem_of_lookup in Hin as [k Hka].
    pose proof (lookup_lt_Some _ _ _ Hka) as Hlt. rewrite Hlen in Hlt.
    rewrite find_seq_None in Hnone. specialize (Hnone k ltac:(lia)).
    rewrite (list_lookup_total_correct _ _ _ Hka) in Hnone.
    unfold reaches in Hnone. rewrite Hact in Hnone. cbn [andb] in Hnone.
    rewrite iadd_fits in Hnone
      by (apply Hfit; [eapply list_elem_of_lookup_2; eassumption | assumption]).
    destruct (Z.geb_spec (a_y a + a_h a) (p_y (player s))); [discriminate|lia].
Qed.

(** ** The victory check *)

Lemma all_aliens_dead_spec s :
  wf s ->
  all_aliens_dead s = true <-> forall a, a ∈ aliens s -> a_active a = false.
Proof.
  intros [_ Hlen]. rewrite all_aliens_dead_eq. split.
  - destruct (find _ _) eqn:Hk; [discriminate|]. intros _ a Hin.
    apply list_elem_of_lookup in Hin as [k Hka].
    pose proof (lookup_lt_Some _ _ _ Hka) as Hlt. rewrite Hlen in Hlt.
    rewrite find_seq_None in Hk. specialize (Hk k ltac:(lia)).
    rewrite (list_lookup_total_correct _ _ _ Hka) in Hk. assumption.
  - intros Hall. destruct (find _ _) as [k|] eqn:Hk; [|reflexivity].
    apply find_seq_Some in Hk as (Hlt & Hp & _).
    rewrite (Hall (aliens s !!! k)) in Hp; [discriminate|].
    apply list_elem_of_lookup_total_2. rewrite Hlen. lia.
Qed.

Lemma wave_reset_alive s : wf s -> all_aliens_dead (wave_reset s) = false.
Proof.
  intros Hwf. apply not_true_is_false. intros Hdead.
  assert (Hwf' : wf (wave_reset s)).
  { rewrite wave_reset_eq by assumption. destruct Hwf as [Hb Ha].
    split; cbn; rewrite ?length_fmap, ?length_imap; assumption. }
  rewrite (all_aliens_dead_spec _ Hwf') in Hdead.
  rewrite wave_reset_eq in Hdead by assumption.
  cbn [aliens with_bullets with_aliens] in Hdead.
  destruct Hwf as [_ Ha].
  destruct (lookup_lt_is_Some_2 (aliens s) 0) as [a0 H0];
    [rewrite Ha; unfold ALIEN_COUNT; lia|].
  assert (Hoff : a_active (wave_alien 0 a0) = false).
  { apply Hdead. apply (elem_of_lookup_imap_2 wave_alien _ _ _ H0). }
  discriminate Hoff.
Qed.

(** ** One frame while the game runs *)

Lemma frame_running s :
  gGameOver s = false ->
  frame s =
    victory_check
      (row_check (collide (move_aliens (update_bullets (move_player s))))).
Proof. intros H. unfold frame, update_logic. rewrite H. reflexivity. Qed.

Lemma frame_over s : gGameOver s = true -> frame s = s.
Proof.
  intros H. unfold frame, update_logic. rewrite H. cbn [negb].
  unfold victory_check. rewrite H. cbn [negb].
  rewrite andb_false_r. reflexivity.
Qed.

Lemma p_y_move_player s : p_y (player (move_player s)) = p_y (player s).
Proof.
  unfold move_player. cbv zeta. cbn [player with_player].
  repeat match goal with |- context [if ?c then _ else _] => destruct c end;
    reflexivity.
Qed.

Lemma before_row_check_spec s :
  wf s ->
  let c := before_row_check s in
  wf c /\
  p_y (player c) = p_y (player s) /\
  gGameOver c = gGameOver s /\
  gLives c = gLives s /\
  gAlienMoveDir c = gAlienMoveDir (move_aliens s) /\
  Forall2 alien_fades (aliens (move_aliens s)) (aliens c).
Proof.
  intros Hwf c. subst c. unfold before_row_check.
  set (m := update_bullets (move_player s)).
  assert (Hm : wf m) by (apply wf_update_bullets, wf_move_player, Hwf).
  destruct (move_aliens_ext s m) as [Ha Hd];
    [apply Hwf | reflexivity | reflexivity |].
  destruct (battle_collide (move_aliens m)) as (Bp & Bo & Bl & Bd & Bf & _).
  destruct (move_aliens_globals m) as (Mp & _ & Mo & Ml & _).
  repeat apply conj.
  - apply wf_collide, wf_move_aliens, Hm.
  - apply wf_collide, wf_move_aliens, Hm.
  - rewrite Bp, Mp. apply p_y_move_player.
  - rewrite Bo, Mo. reflexivity.
  - rewrite Bl, Ml. reflexivity.
  - rewrite Bd, Hd. reflexivity.
  - rewrite <- Ha. assumption.
Qed.

Lemma frame_before_row_check s :
  gGameOver s = false ->
  frame s = victory_check (row_check (before_row_check s)).
Proof. apply frame_running. Qed.

(** A frame takes at most one life. *)
Lemma frame_lives s :
  wf s ->
  gLives (frame s) = gLives s \/ gLives (frame s) = isub (gLives s) 1.
Proof.
  intros Hwf. destruct (gGameOver s) eqn:Hover.
  - left. rewrite frame_over by assumption. reflexivity.
  - rewrite frame_before_row_check by assumption.
    destruct (victory_check_fields (row_check (before_row_check s)))
      as (_ & _ & _ & -> & _).
    destruct (before_row_check_spec s Hwf) as (_ & _ & _ & Hl & _).
    destruct (row_check_cases (before_row_check s))
      as [[_ ->]|[(_ & _ & ->)|(_ & _ & ->)]];
      cbn [gLives with_gGameOver with_gLives wave_reset with_bullets
             with_aliens];
      rewrite ?Hl; auto.
Qed.

(** The direction a frame leaves is the one its formation step set. *)
Lemma frame_direction s :
  wf s -> gGameOver s = false ->
  gAlienMoveDir (frame s) = gAlienMoveDir (move_aliens s).
Proof.
  intros Hwf Hover. rewrite frame_before_row_check by assumption.
  destruct (victory_check_fields (row_check (before_row_check s)))
    as (_ & _ & _ & _ & _ & ->).
  destruct (row_check_globals (before_row_check s)) as (_ & _ & ->).
  apply before_row_check_spec, Hwf.
Qed.

(** Outcome of a frame in which the row check resets the wave. *)
Lemma frame_wave_reset s :
  wf s -> gGameOver s = false ->
  first_reaching (before_row_check s) <> None ->
  isub (gLives s) 1 > 0 ->
  frame s =
    wave_reset (with_gLives (isub (gLives s) 1) (before_row_check s)).
Proof.
  intros Hwf Hover Hreach Hlives.
  rewrite frame_before_row_check by assumption.
  destruct (before_row_check_spec s Hwf) as (Hc & _ & _ & Hl & _).
  destruct (row_check_cases (before_row_check s))
    as [[Hn _]|[(_ & Hle & _)|(_ & _ & ->)]].
  - contradiction.
  - rewrite Hl in Hle. lia.
  - rewrite Hl. unfold victory_check.
    rewrite wave_reset_alive by apply Hc. reflexivity.
Qed.

(** Outside a wave reset, a frame leaves the aliens where its formation
    step put them. *)
Lemma frame_same_place s :
  wf s -> gGameOver s = false ->
  gLives (frame s) = gLives s \/ gGameOver (frame s) = true ->
  Forall2 same_place (aliens (move_aliens s)) (aliens (frame s)).
Proof.
  intros Hwf Hover Hquiet.
  destruct (before_row_check_spec s Hwf) as (Hc & _ & Ho & Hl & _ & Hf).
  assert (Hsame :
    Forall2 same_place (aliens (move_aliens s)) (aliens (before_row_check s))).
  { eapply Forall2_impl; [exact Hf|].
    intros a a' (? & ? & _). split; assumption. }
  destruct (row_check_cases (before_row_check s))
    as [[_ Hrc]|[(_ & _ & Hrc)|(Hre & Hpos & Hrc)]].
  - rewrite frame_before_row_check, Hrc by assumption.
    destruct (victory_check_fields (before_row_check s)) as (_ & _ & -> & _).
    assumption.
  - rewrite frame_before_row_check, Hrc by assumption.
    match goal with |- context [victory_check ?t] =>
      destruct (victory_check_fields t) as (_ & _ & -> & _) end.
    assumption.
  - exfalso. rewrite Hl in Hpos.
    rewrite (frame_wave_reset s Hwf Hover Hre Hpos) in Hquiet.
    cbn [gLives gGameOver wave_reset with_bullets with_aliens with_gLives]
      in Hquiet.
    destruct Hquiet as [Heq|Heq].
    + exact (wrap_pred_neq _ Heq).
    + congruence.
Qed.

(** The three ways a frame of a running game ends. *)
Lemma frame_cases s :
  wf s -> gGameOver s = false ->
  let c := before_row_check s in
  (first_reaching c = None /\ frame s = victory_check c) \/
  (first_reaching c <> None /\ isub (gLives s) 1 <= 0 /\
   frame s = with_gGameOver true (with_gLives (isub (gLives s) 1) c)) \/
  (first_reaching c <> None /\ isub (gLives s) 1 > 0 /\
   frame s = wave_reset (with_gLives (isub (gLives s) 1) c)).
Proof.
  intros Hwf Hover c.
  destruct (before_row_check_spec s Hwf) as (Hc & _ & Ho & Hl & _).
  fold c in Hc, Ho, Hl.
  destruct (row_check_cases c) as [[Hn Hrc]|[(Hs & Hle & Hrc)|(Hs & Hpos & _)]].
  - left. split; [assumption|].
    rewrite frame_before_row_check by assumption. fold c. rewrite Hrc.
    reflexivity.
  - right. left. rewrite Hl in Hle, Hrc. repeat split; try assumption.
    rewrite frame_before_row_check by assumption. fold c. rewrite Hrc.
    unfold victory_check. cbn [gGameOver with_gGameOver negb].
    rewrite andb_false_r. reflexivity.
  - right. right. rewrite Hl in Hpos. repeat split; try assumption.
    apply frame_wave_reset; assumption.
Qed.

(** The wave reset looks at the sizes of the aliens only. *)
Lemma imap_regrouped_fades al al' :
  Forall2 alien_fades al al' -> imap regrouped al' = imap regrouped al.
Proof.
  intros HF. apply list_eq. intros i. rewrite !list_lookup_imap.
  destruct (al !! i) as [a|] eqn:Ha.
  - destruct (Forall2_lookup_l _ _ _ _ _ HF Ha)
      as (a' & Ha' & _ & _ & Hw & Hh & _).
    rewrite Ha'. cbn. unfold regrouped. rewrite Hw, Hh. reflexivity.
  - apply lookup_ge_None in Ha.
    rewrite (Forall2_length _ _ _ HF) in Ha.
    apply lookup_ge_None in Ha. rewrite Ha. reflexivity.
Qed.

(** A frame that takes a life and leaves the game running has reset the
    wave: every alien is back on the starting grid. *)
Lemma frame_regrouped s :
  wf s -> gGameOver s = false ->
  gLives (frame s) <> gLives s -> gGameOver (frame s) = false ->
  aliens (frame s) = imap regrouped (aliens (move_aliens s)).
Proof.
  intros Hwf Hover Hlost Hon.
  destruct (before_row_check_spec s Hwf) as (Hc & _ & _ & Hl & _ & Hf).
  destruct (frame_cases s Hwf Hover)
    as [[_ Heq]|[(_ & _ & Heq)|(_ & _ & Heq)]].
  - exfalso. apply Hlost. rewrite Heq.
    destruct (victory_check_fields (before_row_check s))
      as (_ & _ & _ & -> & _).
    exact Hl.
  - rewrite Heq in Hon. discriminate Hon.
  - rewrite Heq, wave_reset_eq by (split; apply Hc).
    cbn [aliens with_bullets with_aliens with_gLives].
    rewrite imap_wave_alien by apply Hc.
    apply imap_regrouped_fades, Hf.
Qed.

(** ** Descent atomicity *)

Lemma reachable_frames n s : reachable s -> reachable (Nat.iter n frame s).
Proof.
  intros Hs. induction n as [|n IH]; simpl; [assumption|].
  apply reach_frame, IH.
Qed.

Lemma low_row_reachable : reachable low_row.
Proof.
  replace low_row with (Nat.iter (Z.to_nat 4352) frame init)
    by (vm_compute; reflexivity).
  apply reachable_frames, reach_init.
Qed.

Lemma wf_low_row : wf low_row.
Proof. split; reflexivity. Qed.

(** Range goals over concrete numbers. *)
Ltac in_range :=
  unfold fits, INT_MIN, INT_MAX, ALIEN_SPEED, ALIEN_DESCENT, WINDOW_WIDTH,
    MAX_BULLETS, ALIEN_COUNT;
  cbn; lia.

Ltac each_slot H :=
  cbn in H;
  repeat (apply elem_of_cons in H as [->|H]);
  [..|apply elem_of_nil in H; contradiction].

Lemma low_row_formation_fits : formation_fits low_row.
Proof.
  split.
  - in_range.
  - intros a Ha _. each_slot Ha; in_range.
Qed.

Lemma low_row_must_descend : must_descend low_row.
Proof.
  exists (mkAlien 608 370 32 32 true). split.
  - apply (list_elem_of_lookup_2 _ 7%nat). reflexivity.
  - split; [reflexivity|]. right. in_range.
Qed.

(** In a state the game reaches by itself, the frame that makes the row
    descend onto the player's row also resets the wave: the aliens are back
    at (50+50i, 50) instead of 20 lower at an unchanged x. *)
Lemma descent_atomicity_counterexample :
  reachable low_row /\ ~ descent_atomicity low_row.
Proof.
  split; [apply low_row_reachable|]. intros H.
  destruct (H eq_refl) as [Hd _].
  destruct (Hd low_row_must_descend) as [_ HF].
  assert (H7 : aliens (frame low_row) !! 7%nat
               = Some (mkAlien 400 50 32 32 true))
    by (vm_compute; reflexivity).
  pose proof (Forall2_lookup_lr _ _ _ 7%nat (mkAlien 608 370 32 32 true) _
                HF eq_refl H7) as [Hx _].
  discriminate Hx.
Qed.

(** C1 (amended): the formation step of a frame is all-or-nothing.  If some
    active alien would cross a horizontal boundary, the step flips the
    direction, adds 20 to the y of every active alien and changes no x;
    otherwise it adds alien_speed times direction to the x of every active
    alien and changes no y and not the direction.  The direction after the
    whole frame is the one after that step, and so are the places of the
    aliens unless the row check of the same frame resets the wave (a life is
    lost and the game goes on): then every alien is back at (50+50i, 50),
    active, in its old size.  (The sums of the step are representable in
    every run, see [runs_never_overflow].) *)
Theorem formation_step_spec s :
  wf s -> formation_fits s ->
  (must_descend s ->
     move_aliens s =
       with_aliens (descended <$> aliens s)
         (with_gAlienMoveDir (- gAlienMoveDir s) s)) /\
  (~ must_descend s ->
     move_aliens s =
       with_aliens (translated (gAlienMoveDir s) <$> aliens s) s) /\
  (gGameOver s = false ->
     gAlienMoveDir (frame s) = gAlienMoveDir (move_aliens s) /\
     (gLives (frame s) = gLives s \/ gGameOver (frame s) = true ->
        Forall2 same_place (aliens (move_aliens s)) (aliens (frame s))) /\
     (gLives (frame s) <> gLives s -> gGameOver (frame s) = false ->
        aliens (frame s) = imap regrouped (aliens (move_aliens s)) /\
        forall i a, aliens (frame s) !! i = Some a ->
          a_x a = 50 + 50 * Z.of_nat i /\ a_y a = 50 /\ a_active a = true)).
Proof.
  intros Hwf Hfit.
  destruct (move_aliens_spec s Hwf Hfit) as [Hdown Hside].
  split; [exact Hdown|]. split; [exact Hside|].
  intros Hover. split; [|split].
  - apply frame_direction; assumption.
  - apply frame_same_place; assumption.
  - intros Hlost Hon.
    pose proof (frame_regrouped s Hwf Hover Hlost Hon) as Heq.
    split; [exact Heq|]. intros i a Hi. rewrite Heq in Hi.
    apply list_lookup_imap_Some in Hi as (y & _ & ->).
    repeat split.
Qed.

Lemma formation_step_spec_witness :
  move_aliens low_row =
    with_aliens (descended <$> aliens low_row)
      (with_gAlienMoveDir (- gAlienMoveDir low_row) low_row).
Proof.
  apply (formation_step_spec low_row wf_low_row low_row_formation_fits).
  apply low_row_must_descend.
Defined.

(** ** Losing a life *)

(** [landed] is what the row check of the frame after [low_row] sees. *)
Lemma landed_eq : before_row_check low_row = landed.
Proof. vm_compute. reflexivity. Qed.

Lemma wf_landed : wf landed.
Proof. split; reflexivity. Qed.

Lemma landed_row_fits : row_fits landed.
Proof. intros a Ha _. each_slot Ha; in_range. Qed.

Lemma landed_row_reached : row_reached landed.
Proof.
  exists (mkAlien 258 390 32 32 true). split.
  - apply (list_elem_of_lookup_2 _ 0%nat). reflexivity.
  - split; [reflexivity|]. in_range.
Qed.

(** C2: a frame update of a running game, with [c] the state its row check
    sees (after the player motion, the bullet update, the formation step and
    the collisions of that frame).  When some active alien of [c] has its
    bottom edge at or below the player's top edge, the frame takes exactly
    one life, however many aliens qualify; if no life is left it sets
    game-over and changes nothing else of [c], otherwise it reactivates all
    aliens at (50+50i, 50) and deactivates all bullets, and changes nothing
    else of [c]: the score and the new lives count stay.  When no active
    alien has come that far the row check changes nothing, and the frame
    takes no life.  (The sums are representable in every run, see
    [runs_never_overflow].) *)
Theorem row_check_spec s :
  wf s -> gGameOver s = false ->
  row_fits (before_row_check s) -> fits (gLives s - 1) ->
  (row_reached (before_row_check s) ->
     gLives (frame s) = gLives s - 1 /\
     gScore (frame s) = gScore (before_row_check s) /\
     (gLives s - 1 <= 0 ->
        frame s =
          with_gGameOver true
            (with_gLives (gLives s - 1) (before_row_check s))) /\
     (gLives s - 1 > 0 ->
        frame s =
          with_bullets (set_b_active false <$> bullets (before_row_check s))
            (with_aliens (imap regrouped (aliens (before_row_check s)))
               (with_gLives (gLives s - 1) (before_row_check s))))) /\
  (~ row_reached (before_row_check s) ->
     row_check (before_row_check s) = before_row_check s /\
     frame s = victory_check (before_row_check s) /\
     gLives (frame s) = gLives s) /\
  gLives (before_row_check s) = gLives s /\
  p_y (player (before_row_check s)) = p_y (player s) /\
  Forall2 same_place (aliens (move_aliens s)) (aliens (before_row_check s)).
Proof.
  intros Hwf Hover Hfit Hl.
  destruct (before_row_check_spec s Hwf) as (Hc & Hpy & _ & Hlc & _ & Hf).
  pose proof (first_reaching_spec _ Hc Hfit) as Hre.
  pose proof (isub_fits _ _ Hl) as Hsub.
  split; [|split; [|split; [|split]]].
  - intros Hrow. apply Hre in Hrow.
    destruct (frame_cases s Hwf Hover)
      as [[Hn _]|[(_ & Hle & Heq)|(_ & Hpos & Heq)]];
      [contradiction| |]; rewrite Hsub in *.
    + rewrite Heq. split; [reflexivity|]. split; [reflexivity|].
      split; [reflexivity | lia].
    + rewrite Heq. rewrite wave_reset_eq by (split; apply Hc).
      cbn [aliens bullets gLives gScore with_gLives with_bullets with_aliens].
      rewrite imap_wave_alien by apply Hc.
      split; [reflexivity|]. split; [reflexivity|].
      split; [lia | reflexivity].
  - intros Hrow.
    destruct (row_check_cases (before_row_check s))
      as [[_ Hrc]|[(Hs & _)|(Hs & _)]];
      [|exfalso; apply Hrow, Hre, Hs..].
    split; [exact Hrc|].
    rewrite frame_before_row_check, Hrc by assumption.
    split; [reflexivity|].
    destruct (victory_check_fields (before_row_check s))
      as (_ & _ & _ & -> & _).
    exact Hlc.
  - exact Hlc.
  - exact Hpy.
  - eapply Forall2_impl; [exact Hf|].
    intros a a' (? & ? & _). split; assumption.
Qed.

(** The frame after [low_row]: the row has landed, a life is taken and the
    wave is reset. *)
Lemma row_check_spec_witness :
  frame low_row =
    with_bullets (set_b_active false <$> bullets landed)
      (with_aliens (imap regrouped (aliens landed)) (with_gLives 2 landed)).
Proof.
  destruct (row_check_spec low_row wf_low_row eq_refl) as [Hrow _].
  - rewrite landed_eq. apply landed_row_fits.
  - in_range.
  - rewrite landed_eq in Hrow.
    destruct (Hrow landed_row_reached) as (_ & _ & _ & Hreset).
    apply Hreset. cbn. lia.
Defined.

(** ** Direction across a wave reset *)

(** C10: in a frame whose row check fires with lives remaining, the
    direction after the frame is the direction after the formation step of
    that frame, although the aliens are back on their starting grid and the
    bullets are cleared; [resetGame] alone sets the direction to +1. *)
Theorem wave_reset_keeps_direction s :
  wf s -> gGameOver s = false ->
  row_fits (before_row_check s) -> row_reached (before_row_check s) ->
  fits (gLives s - 1) -> gLives s - 1 > 0 ->
  gAlienMoveDir (frame s) =
    gAlienMoveDir (move_aliens (update_bullets (move_player s))) /\
  gAlienMoveDir (frame s) = gAlienMoveDir (move_aliens s) /\
  aliens (frame s) = imap regrouped (aliens (before_row_check s)) /\
  bullets (frame s) = set_b_active false <$> bullets (before_row_check s) /\
  gLives (frame s) = gLives s - 1 /\
  gAlienMoveDir (resetGame ALIEN_COUNT s) = 1.
Proof.
  intros Hwf Hover Hfit Hrow Hl Hpos.
  destruct (before_row_check_spec s Hwf) as (Hc & _).
  apply (first_reaching_spec _ Hc Hfit) in Hrow.
  pose proof (frame_direction s Hwf Hover) as Hdir.
  destruct (move_aliens_ext s (update_bullets (move_player s)))
    as [_ Hd]; [apply Hwf | reflexivity | reflexivity |].
  rewrite (frame_wave_reset s Hwf Hover Hrow) in *
    by (rewrite isub_fits; assumption).
  rewrite wave_reset_eq in *
    by (split; [apply Hc | apply Hc]).
  cbn [aliens bullets gLives gAlienMoveDir with_bullets with_aliens
         with_gLives] in *.
  rewrite imap_wave_alien by apply Hc. rewrite isub_fits by assumption.
  repeat apply conj; try reflexivity; congruence.
Qed.

(** After the reset that follows [low_row] the wave moves left. *)
Lemma wave_reset_keeps_direction_witness :
  gAlienMoveDir (frame low_row) = -1 /\
  aliens (frame low_row) = aliens init.
Proof.
  destruct (wave_reset_keeps_direction low_row wf_low_row eq_refl)
    as (Hd & _ & Ha & _).
  - rewrite landed_eq. apply landed_row_fits.
  - rewrite landed_eq. apply landed_row_reached.
  - in_range.
  - cbn. lia.
  - split.
    + rewrite Hd. vm_compute. reflexivity.
    + rewrite Ha, landed_eq. reflexivity.
Defined.

(** ** Bullets against aliens *)

Lemma dead_le al : (dead al <= length al)%nat.
Proof.
  unfold dead. induction al as [|a al IH]; simpl; [lia|].
  destruct (a_active a); simpl; lia.
Qed.

Lemma dead_alter al i a :
  al !! i = Some a -> a_active a = true ->
  dead (alter (set_a_active false) i al) = Datatypes.S (dead al).
Proof.
  unfold dead. revert i. induction al as [|x al IH]; intros [|i] Hi Hact.
  - discriminate.
  - discriminate.
  - injection Hi as ->. cbn. rewrite Hact. reflexivity.
  - cbn [alter list_alter List.filter]. cbn in Hi.
    fold (alter (set_a_active false) i al).
    destruct (negb (a_active x)); cbn [length]; rewrite (IH i Hi Hact);
      reflexivity.
Qed.

Lemma dead_fmap (f : Alien -> Alien) al :
  (forall a, a_active (f a) = a_active a) -> dead (f <$> al) = dead al.
Proof.
  intros Hf. unfold dead. induction al as [|a al IH]; [reflexivity|].
  cbn [fmap list_fmap List.filter]. rewrite Hf.
  destruct (negb (a_active a)); cbn [length]; fold (fmap f al); rewrite IH;
    reflexivity.
Qed.

Lemma dead_all al :
  (forall a, a ∈ al -> a_active a = false) -> dead al = length al.
Proof.
  unfold dead. induction al as [|a al IH]; intros Hall; [reflexivity|].
  cbn [List.filter]. rewrite (Hall a) by apply list_elem_of_here.
  cbn. f_equal. apply IH. intros b Hb. apply Hall, list_elem_of_further, Hb.
Qed.

Lemma first_hit_Some s b i a :
  length (aliens s) = ALIEN_COUNT ->
  aliens s !! i = Some a -> hits (bullets s !!! b) a = true ->
  (forall j a', (j < i)%nat -> aliens s !! j = Some a' ->
                hits (bullets s !!! b) a' = false) ->
  first_hit b s = Some i.
Proof.
  intros Hlen Hi Hh Hlt. unfold first_hit. apply find_seq_Some.
  pose proof (lookup_lt_Some _ _ _ Hi) as Hlti.
  split; [lia|]. split.
  - rewrite (list_lookup_total_correct _ _ _ Hi). assumption.
  - intros j Hj.
    destruct (lookup_lt_is_Some_2 (aliens s) j ltac:(lia)) as [a' Ha'].
    rewrite (list_lookup_total_correct _ _ _ Ha').
    apply (Hlt j); [lia | assumption].
Qed.

Lemma first_hit_None s b :
  length (aliens s) = ALIEN_COUNT ->
  (forall a, a ∈ aliens s -> hits (bullets s !!! b) a = false) ->
  first_hit b s = None.
Proof.
  intros Hlen Hall. unfold first_hit. apply find_seq_None. intros j Hj.
  apply Hall, list_elem_of_lookup_total_2. lia.
Qed.

(** What one bullet does to the count of destroyed aliens and the score. *)
Lemma shoot_cases b s :
  length (aliens s) = ALIEN_COUNT ->
  shoot b s = s \/
  (dead (aliens (shoot b s)) = Datatypes.S (dead (aliens s)) /\
   gScore (shoot b s) = iadd (gScore s) 10).
Proof.
  intros Hlen. unfold shoot. destruct (b_active _); [|left; reflexivity].
  rewrite scan_aliens_eq. destruct (first_hit b s) as [i|] eqn:Hi;
    [right | left; reflexivity].
  apply find_seq_Some in Hi as (Hlt & Hp & _).
  apply andb_true_iff in Hp as [Hact _].
  split; [|reflexivity]. cbn [aliens destroy with_gScore with_bullets
                                with_aliens].
  apply (dead_alter _ _ (aliens s !!! i)); [|assumption].
  apply list_lookup_lookup_total_lt. lia.
Qed.

Lemma shots_score bl s :
  wf s -> fits (gScore s) -> fits (gScore s + 10 * Z.of_nat (length bl)) ->
  let t := fold_left (fun t b => shoot b t) bl s in
  (dead (aliens s) <= dead (aliens t) <= dead (aliens s) + length bl)%nat /\
  gScore t =
    gScore s + 10 * (Z.of_nat (dead (aliens t)) - Z.of_nat (dead (aliens s))).
Proof.
  revert s. induction bl as [|b bl IH]; intros s Hwf F0 F1; cbn [fold_left].
  - cbn. split; lia.
  - cbn [length] in F1.
    destruct (shoot_cases b s (proj2 Hwf)) as [->|[Hd Hs]].
    + destruct (IH s Hwf F0) as [Hc Hsc].
      { unfold fits in *. lia. }
      cbv zeta in Hc, Hsc. cbn [length]. split; [lia | assumption].
    + assert (Hs' : gScore (shoot b s) = gScore s + 10).
      { rewrite Hs. apply iadd_fits. unfold fits in *. lia. }
      destruct (IH (shoot b s) (wf_shoot b s Hwf)) as [Hc Hsc].
      { unfold fits in *. lia. }
      { unfold fits in *. lia. }
      cbv zeta in Hc, Hsc. cbn [length]. split; [lia|].
      rewrite Hsc, Hs', Hd. lia.
Qed.

Lemma collide_score s :
  wf s -> fits (gScore s) -> fits (gScore s + 10 * Z.of_nat MAX_BULLETS) ->
  (dead (aliens s) <= dead (aliens (collide s)))%nat /\
  gScore (collide s) =
    gScore s +
    10 * (Z.of_nat (dead (aliens (collide s))) - Z.of_nat (dead (aliens s))).
Proof.
  intros Hwf F0 F1. rewrite collide_eq.
  destruct (shots_score (seq 0 MAX_BULLETS) s Hwf F0) as [Hc Hs].
  - rewrite length_seq. assumption.
  - cbv zeta in Hc, Hs. split; [lia | assumption].
Qed.

(** The score a frame leaves is the score its collision step left. *)
Lemma frame_score s :
  wf s -> fits (gScore s) -> fits (gScore s + 10 * Z.of_nat MAX_BULLETS) ->
  gScore s <= gScore (frame s).
Proof.
  intros Hwf F0 F1. destruct (gGameOver s) eqn:Hover.
  - rewrite frame_over by assumption. lia.
  - rewrite frame_before_row_check by assumption.
    destruct (victory_check_fields (row_check (before_row_check s)))
      as (_ & _ & _ & _ & -> & _).
    destruct (row_check_globals (before_row_check s)) as (_ & -> & _).
    unfold before_row_check.
    set (m := move_aliens (update_bullets (move_player s))).
    assert (Hm : wf m)
      by (apply wf_move_aliens, wf_update_bullets, wf_move_player, Hwf).
    assert (Hsc : gScore m = gScore s).
    { subst m. destruct (move_aliens_globals (update_bullets (move_player s)))
        as (_ & _ & _ & _ & ->). reflexivity. }
    destruct (collide_score m Hm) as [Hc Hs]; rewrite ?Hsc; try assumption.
    rewrite Hs, Hsc. lia.
Qed.

(** ** Steps of the main loop, case by case *)

Lemma fire_fields s :
  player (fire s) = player s /\ aliens (fire s) = aliens s /\
  gGameOver (fire s) = gGameOver s /\ gLives (fire s) = gLives s /\
  gScore (fire s) = gScore s /\ gAlienMoveDir (fire s) = gAlienMoveDir s.
Proof.
  rewrite fire_eq. destruct (gGameOver s) eqn:Hover; [rewrite Hover; auto 7|].
  destruct (free_slot (bullets s)); cbn; rewrite ?Hover; auto 7.
Qed.

(** An event restarts a finished game or leaves aliens and globals alone. *)
Lemma game_event_cases e s :
  wf s ->
  (gGameOver s = true /\ game_event e s = init) \/
  (aliens (game_event e s) = aliens s /\
   gGameOver (game_event e s) = gGameOver s /\
   gLives (game_event e s) = gLives s /\
   gScore (game_event e s) = gScore s /\
   gAlienMoveDir (game_event e s) = gAlienMoveDir s).
Proof.
  intros Hwf.
  destruct e as [|[]|[]|]; cbn [game_event key_down key_up];
    try (right; repeat split; reflexivity).
  - right. destruct (fire_fields s) as (_ & ? & ? & ? & ? & ?). auto.
  - unfold restart. destruct (gGameOver s) eqn:Hover.
    + left. split; [reflexivity | apply resetGame_init, Hwf].
    + right. rewrite Hover. repeat split; reflexivity.
  - right. destruct (_ <? _); repeat split; reflexivity.
  - right. destruct (_ >? _); repeat split; reflexivity.
Qed.

Lemma move_aliens_dead s :
  length (aliens s) = ALIEN_COUNT ->
  dead (aliens (move_aliens s)) = dead (aliens s).
Proof.
  intros Hlen. rewrite move_aliens_eq by assumption.
  destruct (needDescend s); cbn [aliens with_aliens with_gAlienMoveDir];
    apply dead_fmap; intros a.
  - unfold descend_alien. destruct (a_active a) eqn:E; exact E.
  - unfold slide_alien. destruct (a_active a) eqn:E; exact E.
Qed.

Lemma before_row_check_score s :
  wf s -> fits (gScore s) -> fits (gScore s + 10 * Z.of_nat MAX_BULLETS) ->
  let c := before_row_check s in
  (dead (aliens s) <= dead (aliens c))%nat /\
  gScore c =
    gScore s + 10 * (Z.of_nat (dead (aliens c)) - Z.of_nat (dead (aliens s))).
Proof.
  intros Hwf F0 F1 c. subst c. unfold before_row_check.
  set (m := update_bullets (move_player s)).
  assert (Hm : wf m) by (apply wf_update_bullets, wf_move_player, Hwf).
  assert (Hsc : gScore (move_aliens m) = gScore s).
  { destruct (move_aliens_globals m) as (_ & _ & _ & _ & ->). reflexivity. }
  assert (Hd : dead (aliens (move_aliens m)) = dead (aliens s)).
  { rewrite move_aliens_dead by apply Hm. reflexivity. }
  destruct (collide_score (move_aliens m) (wf_move_aliens m Hm)) as [Hc Hs];
    rewrite ?Hsc; try assumption.
  rewrite Hs, Hsc, Hd. split; [lia | reflexivity].
Qed.

(** ** Invariants of the reachable states *)

Lemma aligned_const (al : list Alien) y :
  (forall a, a ∈ al -> a_y a = y) -> aligned al.
Proof. intros H a b Ha Hb _ _. rewrite (H a Ha), (H b Hb). reflexivity. Qed.

Lemma aligned_init : aligned (aliens init).
Proof.
  apply (aligned_const _ 50). intros a Ha. rewrite init_eq in Ha.
  cbn [aliens start_game] in Ha.
  apply list_elem_of_fmap in Ha as (i & -> & _). reflexivity.
Qed.

Lemma aligned_wave al : aligned (imap wave_alien al).
Proof.
  apply (aligned_const _ ALIEN_START_Y). intros a Ha.
  apply elem_of_lookup_imap_1 in Ha as (i & x & -> & _). reflexivity.
Qed.

Lemma aligned_fades al al' :
  Forall2 alien_fades al al' -> aligned al -> aligned al'.
Proof.
  intros HF Hal a' b' Ha' Hb' Hacta Hactb.
  apply list_elem_of_lookup in Ha' as [i Hi].
  apply list_elem_of_lookup in Hb' as [j Hj].
  destruct (Forall2_lookup_r _ _ _ _ _ HF Hi) as (a & Hia & _ & Hya & _ & _ & Ha).
  destruct (Forall2_lookup_r _ _ _ _ _ HF Hj) as (b & Hjb & _ & Hyb & _ & _ & Hb).
  rewrite Hya, Hyb.
  apply Hal; eauto using list_elem_of_lookup_2.
Qed.

Lemma aligned_move_aliens s :
  length (aliens s) = ALIEN_COUNT ->
  aligned (aliens s) -> aligned (aliens (move_aliens s)).
Proof.
  intros Hlen Hal. rewrite move_aliens_eq by assumption.
  destruct (needDescend s); cbn [aliens with_aliens with_gAlienMoveDir];
    intros a' b' Ha' Hb' Hacta Hactb;
    apply list_elem_of_fmap in Ha' as (a & -> & Ha);
    apply list_elem_of_fmap in Hb' as (b & -> & Hb).
  - unfold descend_alien in *.
    destruct (a_active a) eqn:Ea; [|congruence].
    destruct (a_active b) eqn:Eb; [|congruence].
    cbn. rewrite (Hal a b Ha Hb Ea Eb). reflexivity.
  - unfold slide_alien in *.
    destruct (a_active a) eqn:Ea; [|congruence].
    destruct (a_active b) eqn:Eb; [|congruence].
    cbn. apply Hal; assumption.
Qed.

Lemma game_inv_init : game_inv init.
Proof.
  unfold game_inv. rewrite init_eq at 2 3 4 5 6 7.
  cbn [gLives gGameOver gScore start_game].
  split; [apply wf_init|]. split; [lia|]. split; [lia|].
  split; [discriminate|]. split; [reflexivity | apply aligned_init].
Qed.

Lemma game_inv_event e s : game_inv s -> game_inv (game_event e s).
Proof.
  intros (Hwf & Hl & Hrun & Hover & Hsc & Hal).
  destruct (game_event_cases e s Hwf) as [[_ ->]|(Ea & Eo & El & Es & _)].
  - apply game_inv_init.
  - split; [apply wf_game_event, Hwf|].
    unfold all_inactive. rewrite Ea, Eo, El, Es.
    repeat apply conj; try assumption; apply Hl.
Qed.

Lemma game_inv_frame s : game_inv s -> game_inv (frame s).
Proof.
  intros (Hwf & Hl & Hrun & Hover & Hsc & Hal).
  destruct (gGameOver s) eqn:Hgo.
  { rewrite frame_over by assumption. unfold game_inv. rewrite Hgo. auto 7. }
  specialize (Hrun eq_refl).
  destruct (before_row_check_spec s Hwf) as (Hc & _ & Ho & Hlc & _ & Hf).
  assert (Halc : aligned (aliens (before_row_check s))).
  { eapply aligned_fades; [exact Hf|].
    apply aligned_move_aliens; [apply Hwf | assumption]. }
  assert (Hsub : isub (gLives s) 1 = gLives s - 1).
  { apply isub_fits. unfold fits, INT_MIN, INT_MAX. lia. }
  destruct (frame_cases s Hwf Hgo) as [[_ ->]|[(_ & Hle & ->)|(_ & Hpos & ->)]].
  - set (c := before_row_check s) in *.
    destruct (victory_check_fields c) as (_ & _ & Ea & El & Es & _).
    split; [apply wf_victory_check, Hc|].
    unfold all_inactive. rewrite Ea, El, Es, Hlc.
    repeat apply conj; try assumption; try apply Hl.
    + intros _. assumption.
    + intros Hv. right. unfold victory_check in Hv.
      destruct (all_aliens_dead c) eqn:Hd; cbn [andb] in Hv.
      * apply all_aliens_dead_spec; assumption.
      * congruence.
    + intros H3. specialize (Hsc H3).
      pose proof (dead_le (aliens s)) as Hd. rewrite (proj2 Hwf) in Hd.
      unfold ALIEN_COUNT in Hd.
      destruct (before_row_check_score s Hwf) as [_ Hs].
      * unfold fits, INT_MIN, INT_MAX. lia.
      * unfold fits, INT_MIN, INT_MAX, MAX_BULLETS. lia.
      * fold c in Hs. rewrite Hs, Hsc. lia.
  - rewrite Hsub in *.
    split; [apply Hc|]. unfold all_inactive.
    cbn [aliens bullets gLives gGameOver gScore with_gGameOver with_gLives].
    split; [lia|]. split; [discriminate|]. split; [intros _; left; lia|].
    split; [lia | assumption].
  - rewrite Hsub in *.
    assert (Hwf' : wf (with_gLives (gLives s - 1) (before_row_check s)))
      by apply Hc.
    split; [apply (wf_lose_life_reset _ Hwf')|].
    unfold all_inactive. rewrite wave_reset_eq by assumption.
    cbn [aliens bullets gLives gGameOver gScore with_bullets with_aliens
           with_gLives].
    split; [lia|]. split; [lia|]. split; [congruence|].
    split; [lia | apply aligned_wave].
Qed.

Lemma reachable_inv s : reachable s -> game_inv s.
Proof.
  induction 1; auto using game_inv_init, game_inv_event, game_inv_frame.
Qed.

(** ** Formation coherence *)

(** C8: in every reachable state any two active aliens have the same y.
    The steps that keep it so: process start and the wave reset put every
    alien at y = 50, a descent adds the same 20 to every active alien, a
    horizontal step changes no y, and the collision step only deactivates
    aliens. *)
Theorem formation_coherence :
  (forall s, reachable s ->
     forall i j a b,
       aliens s !! i = Some a -> aliens s !! j = Some b ->
       a_active a = true -> a_active b = true -> a_y a = a_y b) /\
  (forall a, a ∈ aliens init -> a_y a = 50) /\
  (forall s a, wf s -> a ∈ aliens (wave_reset s) -> a_y a = 50) /\
  (forall s, wf s -> needDescend s = true ->
     Forall2
       (fun a a' =>
          a_active a' = a_active a /\
          a_y a' = if a_active a then iadd (a_y a) ALIEN_DESCENT else a_y a)
       (aliens s) (aliens (move_aliens s))) /\
  (forall s, wf s -> needDescend s = false ->
     Forall2 (fun a a' => a_active a' = a_active a /\ a_y a' = a_y a)
       (aliens s) (aliens (move_aliens s))) /\
  (forall s, Forall2 alien_fades (aliens s) (aliens (collide s))).
Proof.
  repeat apply conj.
  - intros s Hs i j a b Hi Hj Ha Hb.
    destruct (reachable_inv s Hs) as (_ & _ & _ & _ & _ & Hal).
    apply Hal; eauto using list_elem_of_lookup_2.
  - intros a Ha. rewrite init_eq in Ha. cbn [aliens start_game] in Ha.
    apply list_elem_of_fmap in Ha as (i & -> & _). reflexivity.
  - intros s a Hwf Ha. rewrite wave_reset_eq in Ha by assumption.
    cbn [aliens with_bullets with_aliens] in Ha.
    apply elem_of_lookup_imap_1 in Ha as (i & x & -> & _). reflexivity.
  - intros s Hwf Hnd. rewrite move_aliens_eq, Hnd by apply Hwf.
    cbn [aliens with_aliens]. apply Forall2_fmap_r.
    apply Forall_Forall2_diag, Forall_forall. intros a _.
    cbn. unfold descend_alien. destruct (a_active a) eqn:E; cbn; auto.
  - intros s Hwf Hnd. rewrite move_aliens_eq, Hnd by apply Hwf.
    cbn [aliens with_aliens]. apply Forall2_fmap_r.
    apply Forall_Forall2_diag, Forall_forall. intros a _.
    cbn. unfold slide_alien. destruct (a_active a) eqn:E; cbn; auto.
  - intros s. apply battle_collide.
Qed.

(** Two frames after process start the first and the last alien are both
    active and on the same row. *)
Lemma formation_coherence_witness :
  a_y (aliens (frame (frame init)) !!! 0%nat) =
  a_y (aliens (frame (frame init)) !!! 7%nat).
Proof.
  apply (proj1 formation_coherence (frame (frame init))
           (reach_frame _ (reach_frame _ reach_init)) 0%nat 7%nat);
    vm_compute; reflexivity.
Defined.

(** ** Victory or defeat *)

Lemma all_aliens_dead_ext s t :
  aliens t = aliens s -> all_aliens_dead t = all_aliens_dead s.
Proof. intros H. rewrite !all_aliens_dead_eq, H. reflexivity. Qed.

Lemma game_fold_events events l :
  game (fold_left handle_event events l) =
  fold_left (fun s e => game_event e s) events (game l).
Proof.
  revert l. induction events as [|e events IH]; intros l; [reflexivity|].
  cbn [fold_left]. rewrite IH. reflexivity.
Qed.

Lemma reachable_events events s :
  reachable s -> reachable (fold_left (fun s e => game_event e s) events s).
Proof.
  revert s. induction events as [|e events IH]; intros s Hs; [assumption|].
  cbn [fold_left]. apply IH, reach_event, Hs.
Qed.

Lemma iteration_game events l :
  game (iteration events l) =
  frame (fold_left (fun s e => game_event e s) events (game l)).
Proof. unfold iteration. cbn [game]. rewrite game_fold_events. reflexivity. Qed.

Lemma reachable_iteration events l :
  reachable (game l) -> reachable (game (iteration events l)).
Proof.
  intros H. rewrite iteration_game. apply reach_frame, reachable_events, H.
Qed.

Lemma reachable_run batches l :
  reachable (game l) -> reachable (game (run batches l)).
Proof.
  revert l. induction batches as [|events rest IH]; intros l H; [assumption|].
  cbn [run]. destruct (gRunning l); [|assumption].
  apply IH, reachable_iteration, H.
Qed.

(** The flag the renderer reads is the victory check's verdict on the state
    it draws. *)
Lemma iteration_allAliensDead events l :
  allAliensDead (iteration events l) =
  all_aliens_dead (game (iteration events l)).
Proof.
  unfold iteration. cbn [allAliensDead game]. symmetry.
  apply all_aliens_dead_ext, victory_check_fields.
Qed.

(** C3: in a reachable state in which the game is over, exactly one of the
    two endings holds: defeat (no life left) or victory (every alien
    inactive and a life left).  The text drawn after an iteration of the
    main loop names that ending. *)
Theorem win_lose_disambiguation :
  (forall s, reachable s -> gGameOver s = true ->
     (defeat s \/ victory s) /\ ~ (defeat s /\ victory s)) /\
  (forall l events, reachable (game l) ->
     let l' := iteration events l in
     (message l' = Some Victory <->
        gGameOver (game l') = true /\ victory (game l')) /\
     (message l' = Some Game_Over <->
        gGameOver (game l') = true /\ defeat (game l')) /\
     (message l' = None <-> gGameOver (game l') = false)).
Proof.
  assert (Hone : forall s, reachable s -> gGameOver s = true ->
            (defeat s \/ victory s) /\ ~ (defeat s /\ victory s)).
  { intros s Hs Hover.
    destruct (reachable_inv s Hs) as (_ & Hl & _ & Hend & _).
    unfold defeat, victory. split; [|lia].
    destruct (Hend Hover) as [H0|Hall]; [left; assumption|].
    destruct (Z.eq_dec (gLives s) 0); [left; assumption|].
    right. split; [assumption | lia]. }
  split; [exact Hone|].
  intros l events Hl l'.
  assert (Hr : reachable (game l')) by apply reachable_iteration, Hl.
  pose proof (reachable_wf _ Hr) as Hwf.
  pose proof (all_aliens_dead_spec _ Hwf) as Hdead.
  unfold message. subst l'. rewrite iteration_allAliensDead.
  set (g := game (iteration events l)) in *.
  destruct (gGameOver g) eqn:Hover.
  - destruct (Hone g Hr Hover) as [Hor Hnot].
    assert (Hv : all_aliens_dead g && (gLives g >? 0) = true <-> victory g).
    { unfold victory, all_inactive.
      rewrite andb_true_iff, Hdead, Z.gtb_gt. reflexivity. }
    destruct (all_aliens_dead g && (gLives g >? 0)).
    + assert (Hvic : victory g) by (apply Hv; reflexivity).
      split; [|split]; split.
      * intros _. split; [reflexivity | assumption].
      * reflexivity.
      * discriminate.
      * intros [_ Hdef]. exfalso. apply Hnot. split; assumption.
      * discriminate.
      * discriminate.
    + assert (Hvic : ~ victory g) by (intros Hvic; apply Hv in Hvic; discriminate).
      split; [|split]; split.
      * discriminate.
      * intros [_ Hvic']. contradiction.
      * intros _. split; [reflexivity|]. destruct Hor; [assumption | contradiction].
      * reflexivity.
      * discriminate.
      * discriminate.
  - split; [|split]; split.
    + discriminate.
    + intros [Hf _]. discriminate Hf.
    + discriminate.
    + intros [Hf _]. discriminate Hf.
    + reflexivity.
    + reflexivity.
Qed.

(** The scripted game ends in victory with all three lives. *)
Lemma won_reachable : reachable won.
Proof. apply reachable_run, reach_init. Qed.

Lemma won_summary :
  gGameOver won = true /\ gLives won = 3 /\ gScore won = 80 /\
  dead (aliens won) = 8%nat.
Proof. vm_compute. repeat split. Qed.

Lemma won_all_inactive : all_inactive won.
Proof.
  assert (Hall : forallb (fun a => negb (a_active a)) (aliens won) = true)
    by (vm_compute; reflexivity).
  unfold all_inactive. revert Hall. generalize (aliens won).
  intros al Hall a Ha. rewrite forallb_forall in Hall.
  apply list_elem_of_In in Ha. apply negb_true_iff. exact (Hall a Ha).
Qed.

Lemma win_lose_disambiguation_witness :
  (defeat won \/ victory won) /\ ~ (defeat won /\ victory won).
Proof.
  apply (proj1 win_lose_disambiguation won won_reachable).
  vm_compute. reflexivity.
Defined.

(** ** States of the scripted games *)

(** [aim] is a state of the run in which the player fires once. *)
Lemma aim_eq :
  move_aliens
    (update_bullets
       (move_player
          (Nat.iter 45 frame (game_event (SDL_KEYDOWN SDLK_SPACE) init))))
  = aim.
Proof. vm_compute. reflexivity. Qed.

(** The won game, restarted, is the game at process start. *)
Lemma restart_spec_witness : game_event (SDL_KEYDOWN SDLK_r) won = init.
Proof.
  destruct (restart_spec won (reachable_wf won won_reachable)) as [Hover _].
  apply Hover. vm_compute. reflexivity.
Defined.

(** ** Every run stays far inside the [int] range

    The sums whose representability the theorems above assume are
    representable in every state the game can be in: all coordinates stay on
    or near the 640x480 screen and the score never exceeds 320. *)

Lemma update_bullets_eq s :
  length (bullets s) = MAX_BULLETS ->
  update_bullets s = with_bullets (step_bullet <$> bullets s) s.
Proof.
  intros Hlen. unfold update_bullets. f_equal.
  rewrite (for_loop_alter (fun _ => step_bullet));
    [apply imap_const | | symmetry; assumption].
  intros k t. rewrite list_lookup_total_alt.
  destruct (t !! k) as [x|] eqn:Hk; cbn [default]; unfold id.
  - pose proof (lookup_lt_Some _ _ _ Hk) as Hlt.
    rewrite !(alter_lookup_insert _ _ _ _ Hk).
    unfold step_bullet. destruct (b_active x); cbv zeta.
    + rewrite list_lookup_total_insert_eq by assumption.
      destruct (_ <? _); [|reflexivity].
      rewrite (alter_lookup_insert _ _ _ (set_b_y (isub (b_y x) BULLET_SPEED) x))
        by (apply list_lookup_insert_eq; assumption).
      rewrite list_insert_insert_eq. reflexivity.
    + rewrite list_insert_id by assumption. reflexivity.
  - cbn. rewrite alter_outside by assumption. reflexivity.
Qed.

Ltac bounds :=
  unfold fits, INT_MIN, INT_MAX, PLAYER_WIDTH, PLAYER_HEIGHT, PLAYER_SPEED,
    BULLET_WIDTH, BULLET_HEIGHT, BULLET_SPEED, ALIEN_WIDTH, ALIEN_HEIGHT,
    ALIEN_SPEED, ALIEN_DESCENT, ALIEN_START_X, ALIEN_START_Y, ALIEN_SPACING,
    WINDOW_WIDTH, WINDOW_HEIGHT, MAX_BULLETS, ALIEN_COUNT in *;
  lia.

Lemma player_ok_move_player s :
  player_ok (player s) -> player_ok (player (move_player s)).
Proof.
  intros (Hw & Hh & Hy & Hx & Hv). unfold move_player. cbv zeta.
  cbn [player with_player p_x p_w set_p_x].
  assert (Hadd : iadd (p_x (player s)) (p_vx (player s))
                 = p_x (player s) + p_vx (player s))
    by (apply iadd_fits; bounds).
  rewrite Hadd.
  destruct (Z.ltb_spec (p_x (player s) + p_vx (player s)) 0);
    cbn [p_x p_w set_p_x].
  - rewrite Hw. replace (iadd 0 PLAYER_WIDTH >? WINDOW_WIDTH) with false
      by reflexivity.
    unfold player_ok. cbn. repeat split; try assumption; lia.
  - rewrite (iadd_fits _ (p_w (player s))) by bounds.
    destruct (Z.gtb_spec (p_x (player s) + p_vx (player s) + p_w (player s))
                WINDOW_WIDTH).
    + unfold player_ok. cbn. rewrite Hw.
      repeat split; try assumption; try lia; vm_compute; discriminate.
    + unfold player_ok. cbn. repeat split; try assumption; bounds.
Qed.

Lemma bullet_ok_step b : bullet_ok b -> bullet_ok (step_bullet b).
Proof.
  intros Hok. pose proof Hok as (Hw & Hh & Hx & Hy & Hact).
  unfold step_bullet.
  destruct (b_active b) eqn:Ea; [|exact Hok].
  specialize (Hact eq_refl). cbv zeta. cbn [b_y b_h set_b_y].
  rewrite isub_fits by bounds. rewrite iadd_fits by bounds.
  destruct (Z.ltb_spec (b_y b - BULLET_SPEED + b_h b) 0).
  - unfold bullet_ok. cbn. repeat split; try assumption; bounds.
  - unfold bullet_ok. cbn. repeat split; try assumption; bounds.
Qed.

Lemma alien_ok_weaken over a : alien_ok false a -> alien_ok over a.
Proof.
  intros (Hw & Hh & Hx & Hy & Hact). repeat split; try assumption; try lia.
  intros _. apply Hact. reflexivity.
Qed.

(** The formation step keeps the aliens on the screen; a descent may bring
    the active ones down to y = 395 at most. *)
Lemma aliens_ok_move s :
  wf s ->
  Forall (alien_ok false) (aliens s) ->
  gAlienMoveDir s = 1 \/ gAlienMoveDir s = -1 ->
  Forall (alien_ok true) (aliens (move_aliens s)) /\
  (gAlienMoveDir (move_aliens s) = 1 \/ gAlienMoveDir (move_aliens s) = -1).
Proof.
  intros Hwf Hal Hdir. rewrite move_aliens_eq by apply Hwf.
  destruct (needDescend s) eqn:Hnd;
    cbn [aliens gAlienMoveDir with_aliens with_gAlienMoveDir].
  - split.
    + apply Forall_fmap. eapply Forall_impl; [exact Hal|].
      intros a (Hw & Hh & Hx & Hy & Hact). unfold compose, descend_alien.
      destruct (a_active a) eqn:Ea.
      * specialize (Hact eq_refl eq_refl). unfold alien_ok, set_a_y.
        cbn [a_x a_y a_w a_h a_active]. rewrite iadd_fits by bounds.
        repeat split; try assumption; try bounds; try discriminate.
      * repeat split; try assumption; try lia; try discriminate.
    + rewrite ineg_fits by bounds. lia.
  - split; [|assumption].
    rewrite needDescend_eq in Hnd. unfold first_crossing in Hnd.
    destruct (find _ _) eqn:Hfind; [discriminate|].
    rewrite find_seq_None in Hfind.
    apply Forall_fmap, Forall_lookup. intros k a Hk.
    pose proof (Forall_lookup_1 _ _ _ _ Hal Hk) as (Hw & Hh & Hx & Hy & Hact).
    pose proof (lookup_lt_Some _ _ _ Hk) as Hlt. rewrite (proj2 Hwf) in Hlt.
    specialize (Hfind k ltac:(lia)).
    rewrite (list_lookup_total_correct _ _ _ Hk) in Hfind.
    unfold compose, slide_alien. destruct (a_active a) eqn:Ea.
    + cbn [andb] in Hfind. specialize (Hact eq_refl eq_refl).
      assert (Hnc : ~ crosses (gAlienMoveDir s) a).
      { intros Hc. apply crossing_spec in Hc; [congruence | bounds | bounds]. }
      unfold crosses in Hnc. unfold alien_ok, set_a_x.
      cbn [a_x a_y a_w a_h a_active]. rewrite newX_fits by bounds.
      repeat split; try assumption; try bounds; try discriminate.
    + repeat split; try assumption; try lia; try discriminate.
Qed.

Lemma alien_ok_fades a a' : alien_fades a a' -> alien_ok true a -> alien_ok true a'.
Proof.
  intros (Fx & Fy & Fw & Fh & _) (Hw & Hh & Hx & Hy & _).
  unfold alien_ok. rewrite Fx, Fy, Fw, Fh.
  repeat split; try assumption; try lia; try discriminate.
Qed.

Lemma bullet_ok_fades b b' : bullet_fades b b' -> bullet_ok b -> bullet_ok b'.
Proof.
  intros (Fx & Fy & Fw & Fh & Fa) (Hw & Hh & Hx & Hy & Hact).
  unfold bullet_ok. rewrite Fx, Fy, Fw, Fh.
  repeat split; try assumption; try lia. intros Ha. auto.
Qed.

(** The state the row check of a running frame sees. *)
Lemma before_row_check_bounds s :
  wf s -> gGameOver s = false -> in_bounds s ->
  let c := before_row_check s in
  player_ok (player c) /\ Forall bullet_ok (bullets c) /\
  Forall (alien_ok true) (aliens c) /\
  (gAlienMoveDir c = 1 \/ gAlienMoveDir c = -1).
Proof.
  intros Hwf Hover (Hp & Hb & Ha & Hd & _) c. subst c.
  unfold before_row_check.
  set (m1 := move_player s). set (m2 := update_bullets m1).
  assert (Hm1 : wf m1) by apply wf_move_player, Hwf.
  assert (Hm2 : wf m2) by apply wf_update_bullets, Hm1.
  destruct (battle_collide (move_aliens m2)) as (Bp & _ & _ & Bd & Bf & Bb).
  destruct (move_aliens_globals m2) as (Mp & Mb & _).
  destruct (aliens_ok_move m2 Hm2) as [Hal Hdir].
  { rewrite Hover in Ha. exact Ha. }
  { exact Hd. }
  split; [|split; [|split]].
  - rewrite Bp, Mp. apply player_ok_move_player, Hp.
  - eapply Forall2_Forall_r; [exact Bb|]. rewrite Mb.
    subst m2. rewrite update_bullets_eq by apply Hm1.
    cbn [bullets with_bullets]. apply Forall_fmap.
    eapply Forall_impl; [exact Hb|].
    intros b Hok b' Hf. eapply bullet_ok_fades; [exact Hf|].
    apply bullet_ok_step, Hok.
  - eapply Forall2_Forall_r; [exact Bf|].
    eapply Forall_impl; [exact Hal|].
    intros a Hok a' Hf. eapply alien_ok_fades; eassumption.
  - rewrite Bd. exact Hdir.
Qed.

Lemma dead_none al : (forall a, a ∈ al -> a_active a = true) -> dead al = 0%nat.
Proof.
  unfold dead. induction al as [|a al IH]; intros Hall; [reflexivity|].
  cbn [List.filter]. rewrite (Hall a) by apply list_elem_of_here.
  cbn [negb]. apply IH. intros b Hb. apply Hall, list_elem_of_further, Hb.
Qed.

Lemma dead_imap_wave al : dead (imap wave_alien al) = 0%nat.
Proof.
  apply dead_none. intros a Ha.
  apply elem_of_lookup_imap_1 in Ha as (i & x & -> & _). reflexivity.
Qed.

Lemma in_bounds_init : in_bounds init.
Proof.
  rewrite init_eq. unfold in_bounds, start_game.
  cbn [player bullets aliens gGameOver gLives gScore gAlienMoveDir].
  split; [|split; [|split; [|split]]].
  - unfold player_ok. vm_compute. intuition congruence.
  - apply Forall_replicate. unfold bullet_ok. cbn.
    repeat split; try reflexivity; try lia; discriminate.
  - apply Forall_fmap, Forall_lookup. intros k i Hk.
    apply lookup_seq in Hk as [-> Hlt].
    unfold compose, alien_ok, start_alien. cbn [a_x a_y a_w a_h a_active].
    repeat split; try reflexivity; lia.
  - left. reflexivity.
  - cbn. lia.
Qed.

Lemma in_bounds_frame s : game_inv s -> in_bounds s -> in_bounds (frame s).
Proof.
  intros (Hwf & Hl & Hrun & _) Hin.
  destruct (gGameOver s) eqn:Hgo; [rewrite frame_over; assumption|].
  specialize (Hrun eq_refl).
  pose proof Hin as (_ & _ & _ & _ & Hscore).
  pose proof (dead_le (aliens s)) as Hds. rewrite (proj2 Hwf) in Hds.
  destruct (before_row_check_bounds s Hwf Hgo Hin) as (Cp & Cb & Ca & Cd).
  destruct (before_row_check_spec s Hwf) as (Hc & _ & Co & Cl & _).
  destruct (before_row_check_score s Hwf) as [Cdead Cs]; [bounds | bounds |].
  cbv zeta in Cp, Cb, Ca, Cd, Hc, Co, Cl, Cdead, Cs.
  set (c := before_row_check s) in Cp, Cb, Ca, Cd, Hc, Co, Cl, Cdead, Cs |- *.
  pose proof (dead_le (aliens c)) as Hdc. rewrite (proj2 Hc) in Hdc.
  assert (Hsub : isub (gLives s) 1 = gLives s - 1).
  { apply isub_fits. bounds. }
  destruct (frame_cases s Hwf Hgo)
    as [[Hnone ->]|[(_ & Hle & ->)|(_ & Hpos & ->)]]; fold c; try fold c in Hnone.
  - destruct (victory_check_fields c) as (Vp & Vb & Va & Vl & Vs & Vd).
    unfold in_bounds. rewrite Vp, Vb, Va, Vl, Vs, Vd, Cl.
    split; [exact Cp|]. split; [exact Cb|]. split; [|split; [exact Cd|]].
    + apply Forall_lookup. intros k a Hk. apply alien_ok_weaken.
      pose proof (Forall_lookup_1 _ _ _ _ Ca Hk) as (Hw & Hh & Hx & Hy & _).
      pose proof (lookup_lt_Some _ _ _ Hk) as Hlt. rewrite (proj2 Hc) in Hlt.
      unfold first_reaching in Hnone. rewrite find_seq_None in Hnone.
      specialize (Hnone k ltac:(lia)).
      rewrite (list_lookup_total_correct _ _ _ Hk) in Hnone.
      destruct Cp as (_ & _ & Py & _).
      repeat split; try assumption; try lia. intros _ Ea.
      unfold reaches in Hnone. rewrite Ea, Py in Hnone. cbn [andb] in Hnone.
      rewrite iadd_fits in Hnone by bounds.
      destruct (Z.geb_spec (a_y a + a_h a) 408); [discriminate | bounds].
    + rewrite Cs. bounds.
  - rewrite Hsub in *. unfold in_bounds.
    cbn [player bullets aliens gGameOver gLives gScore gAlienMoveDir
           with_gGameOver with_gLives].
    split; [exact Cp|]. split; [exact Cb|]. split; [exact Ca|].
    split; [exact Cd|]. rewrite Cs. bounds.
  - rewrite Hsub in *.
    rewrite wave_reset_eq by apply Hc. unfold in_bounds.
    cbn [player bullets aliens gGameOver gLives gScore gAlienMoveDir
           with_bullets with_aliens with_gLives].
    rewrite dead_imap_wave.
    split; [exact Cp|]. split; [|split; [|split; [exact Cd|]]].
    + apply Forall_fmap. eapply Forall_impl; [exact Cb|].
      intros b (Hw & Hh & Hx & Hy & _). unfold compose, bullet_ok. cbn.
      repeat split; try assumption; try lia; discriminate.
    + apply Forall_lookup. intros k a Hk.
      apply list_lookup_imap_Some in Hk as (y & Hk & ->).
      pose proof (Forall_lookup_1 _ _ _ _ Ca Hk) as (Hw & Hh & _).
      pose proof (lookup_lt_Some _ _ _ Hk) as Hlt. rewrite (proj2 Hc) in Hlt.
      rewrite wave_alien_regrouped by assumption.
      unfold alien_ok, regrouped. cbn [a_x a_y a_w a_h a_active].
      repeat split; try assumption; bounds.
    + rewrite Cs. bounds.
Qed.

Lemma bullet_ok_fire p b :
  player_ok p -> bullet_ok b -> bullet_ok (fire_bullet p b).
Proof.
  intros (Pw & Ph & Py & Px & _) (Hw & Hh & Hx & Hy & _).
  assert (Fx : p_x p + p_w p ÷ 2 - b_w b ÷ 2 = p_x p + 14).
  { rewrite Pw, Hw. change (PLAYER_WIDTH ÷ 2) with 16.
    change (BULLET_WIDTH ÷ 2) with 2. lia. }
  rewrite fire_bullet_fired by (rewrite ?Fx; bounds).
  unfold bullet_ok, fired. cbn [b_x b_y b_w b_h b_active]. rewrite Fx.
  repeat split; try assumption; bounds.
Qed.

Lemma in_bounds_event e s : wf s -> in_bounds s -> in_bounds (game_event e s).
Proof.
  intros Hwf Hin. pose proof Hin as (Hp & Hb & Ha & Hd & Hs).
  pose proof Hp as (Pw & Ph & Py & Px & Pv).
  destruct e as [|[]|[]|]; cbn [game_event key_down key_up]; try exact Hin.
  - split; [|exact (conj Hb (conj Ha (conj Hd Hs)))].
    unfold player_ok. cbn [player with_player set_p_vx p_x p_y p_w p_h p_vx].
    change (ineg PLAYER_SPEED) with (-5). unfold PLAYER_SPEED.
    repeat split; try assumption; lia.
  - split; [|exact (conj Hb (conj Ha (conj Hd Hs)))].
    unfold player_ok. cbn [player with_player set_p_vx p_x p_y p_w p_h p_vx].
    change (ineg PLAYER_SPEED) with (-5). unfold PLAYER_SPEED.
    repeat split; try assumption; lia.
  - rewrite fire_eq. destruct (gGameOver s) eqn:Hgo; [exact Hin|].
    destruct (free_slot (bullets s)) as [k|]; [|exact Hin].
    unfold in_bounds.
    cbn [player bullets aliens gGameOver gLives gScore gAlienMoveDir
           with_bullets].
    rewrite Hgo in *.
    split; [exact Hp|]. split; [|exact (conj Ha (conj Hd Hs))].
    apply Forall_alter; [assumption|]. intros b _ Hok.
    apply bullet_ok_fire; assumption.
  - unfold restart. destruct (gGameOver s); [|exact Hin].
    rewrite resetGame_init by assumption. apply in_bounds_init.
  - destruct (_ <? _); [|exact Hin].
    split; [|exact (conj Hb (conj Ha (conj Hd Hs)))].
    unfold player_ok. cbn. repeat split; try assumption; lia.
  - destruct (_ >? _); [|exact Hin].
    split; [|exact (conj Hb (conj Ha (conj Hd Hs)))].
    unfold player_ok. cbn. repeat split; try assumption; lia.
Qed.

(** Every reachable state is within the bounds. *)
Theorem reachable_in_bounds s : reachable s -> in_bounds s.
Proof.
  induction 1 as [|e s Hs IH|s Hs IH].
  - apply in_bounds_init.
  - apply in_bounds_event; [apply reachable_wf, Hs | exact IH].
  - apply in_bounds_frame; [apply reachable_inv, Hs | exact IH].
Qed.

(** X13: the arithmetic of the game logic never overflows in a run.  In
    every reachable state every sum, difference, product, negation and
    quotient that the event handling, [resetGame] and the frame update
    compute is representable: the negated player speed, the quotients, sums
    and differences of a shot into any slot, the arithmetic of the reset
    and of the wave reset; the sums of the player motion and of the bullet
    update; the product and the sums of the boundary check, the negated
    direction and the sums of the formation step; the score after each of
    up to five hits; the lives less one; and, while the game runs, the sums
    of the collision tests and of the row check of the next frame.  (The
    rectangles of the texts, computed from sizes that SDL_ttf supplies, are
    not part of this.) *)
Theorem runs_never_overflow s :
  reachable s ->
  fits (- PLAYER_SPEED) /\
  (forall b, b ∈ bullets s -> shot_fits (player s) b) /\
  reset_fits /\
  motion_fits (player s) /\
  flight_fits s /\
  fits (ALIEN_SPEED * gAlienMoveDir s) /\
  formation_fits s /\
  (forall k, (k <= MAX_BULLETS)%nat -> fits (gScore s + 10 * Z.of_nat k)) /\
  fits (gLives s - 1) /\
  (gGameOver s = false ->
     row_fits (before_row_check s) /\
     forall b a,
       b ∈ bullets (before_row_check s) -> a ∈ aliens (before_row_check s) ->
       collision_fits b a).
Proof.
  intros Hs.
  destruct (reachable_inv s Hs) as (Hwf & Hl & _).
  pose proof (reachable_in_bounds s Hs) as Hin.
  pose proof Hin as (Hp & Hb & Ha & Hd & Hsc).
  pose proof Hp as (Pw & Ph & Py & Px & Pv).
  pose proof (dead_le (aliens s)) as Hds. rewrite (proj2 Hwf) in Hds.
  rewrite Forall_forall in Hb. rewrite Forall_forall in Ha.
  split; [vm_compute; intuition congruence|].
  split; [|split; [|split; [|split; [|split; [|split; [|split; [|split]]]]]]].
  - intros b Hb'. destruct (Hb b Hb') as (Hw & Hh & _).
    unfold shot_fits. rewrite Pw, Hw. change (PLAYER_WIDTH ÷ 2) with 16.
    change (BULLET_WIDTH ÷ 2) with 2. repeat apply conj; bounds.
  - unfold reset_fits.
    change ((WINDOW_WIDTH - PLAYER_WIDTH) ÷ 2) with 304.
    repeat apply conj; bounds.
  - unfold motion_fits. repeat apply conj; bounds.
  - intros b Hb' Hact. destruct (Hb b Hb') as (Hw & Hh & Hx & Hy & _).
    split; bounds.
  - bounds.
  - split; [bounds|]. intros a Hin' _.
    destruct (Ha a Hin') as (Hw & Hh & Hx & Hy & _). bounds.
  - intros k Hk. bounds.
  - bounds.
  - intros Hgo.
    destruct (before_row_check_bounds s Hwf Hgo Hin) as (_ & Cb & Ca & _).
    rewrite Forall_forall in Cb. rewrite Forall_forall in Ca. split.
    + intros a Hin' _. destruct (Ca a Hin') as (Hw & Hh & Hx & Hy & _). bounds.
    + intros b a Hb' Ha'.
      destruct (Cb b Hb') as (Bw & Bh & Bx & By & _).
      destruct (Ca a Ha') as (Hw & Hh & Hx & Hy & _).
      unfold collision_fits. repeat apply conj; bounds.
Qed.

(** * Further properties of the frame update and of the main loop *)

(** ** Player motion *)

(** X1: the player motion moves the ship by its velocity and clamps it to
    the window: for a ship not wider than the window the new x is the old x
    plus the velocity, cut to [0, WINDOW_WIDTH - w]; nothing else changes. *)
Theorem move_player_clamps s :
  0 <= p_w (player s) <= WINDOW_WIDTH ->
  fits (p_x (player s) + p_vx (player s)) ->
  fits (p_x (player s) + p_vx (player s) + p_w (player s)) ->
  move_player s = with_player (set_p_x (clamped (player s)) (player s)) s /\
  0 <= clamped (player s) /\
  clamped (player s) + p_w (player s) <= WINDOW_WIDTH.
Proof.
  intros Hw F1 F2. unfold clamped. split; [|unfold WINDOW_WIDTH in *; lia].
  unfold move_player. cbv zeta. cbn [p_x p_w set_p_x].
  rewrite (iadd_fits _ _ F1).
  destruct (Z.ltb_spec (p_x (player s) + p_vx (player s)) 0) as [Hneg|Hpos];
    cbn [p_x p_w set_p_x].
  - rewrite (iadd_fits 0) by bounds.
    destruct (Z.gtb_spec (0 + p_w (player s)) WINDOW_WIDTH); [lia|].
    f_equal. unfold set_p_x. f_equal. unfold WINDOW_WIDTH in *. lia.
  - rewrite (iadd_fits _ _ F2).
    destruct (Z.gtb_spec (p_x (player s) + p_vx (player s) + p_w (player s))
                WINDOW_WIDTH).
    + rewrite isub_fits by bounds. f_equal. unfold set_p_x.
      cbn [p_x p_y p_w p_h p_vx]. f_equal. unfold WINDOW_WIDTH in *. lia.
    + f_equal. unfold set_p_x. f_equal. unfold WINDOW_WIDTH in *. lia.
Qed.

(** Held against the right edge, the ship stays at x = 608. *)
Lemma move_player_clamps_witness :
  let s := with_player (mkPlayer 606 408 32 32 5) init in
  p_x (player (move_player s)) = 608.
Proof.
  intros s.
  destruct (move_player_clamps s) as (Heq & _);
    [subst s; cbn; bounds | subst s; cbn; bounds | subst s; cbn; bounds |].
  rewrite Heq. reflexivity.
Defined.

(** ** Bullet motion *)

Lemma step_bullet_flown b :
  (b_active b = true ->
   fits (b_y b - BULLET_SPEED) /\ fits (b_y b - BULLET_SPEED + b_h b)) ->
  step_bullet b = flown b.
Proof.
  intros F. unfold step_bullet, flown.
  destruct (b_active b) eqn:Ea; [|reflexivity].
  destruct (F eq_refl) as [F1 F2]. cbv zeta. cbn [b_y b_h set_b_y].
  rewrite isub_fits by assumption. rewrite iadd_fits by assumption.
  destruct (_ <? _); unfold set_b_active, set_b_y; cbn; rewrite ?Ea;
    reflexivity.
Qed.

Lemma active_bullets_fmap (f : Bullet -> Bullet) bs :
  (forall b, b_active (f b) = true -> b_active b = true) ->
  (active_bullets (f <$> bs) <= active_bullets bs)%nat.
Proof.
  intros Hf. unfold active_bullets. induction bs as [|b bs IH]; [reflexivity|].
  cbn [fmap list_fmap List.filter]. fold (fmap f bs).
  destruct (b_active (f b)) eqn:E.
  - rewrite (Hf b E). cbn [length]. lia.
  - destruct (b_active b); cbn [length]; lia.
Qed.

(** X2: the bullet update moves every active bullet up by 7 and deactivates
    it exactly when its bottom edge is then above the top of the screen
    (y + h < 0); inactive bullets are not touched, no bullet moves sideways
    and none is activated. *)
Theorem bullets_fly s :
  wf s -> flight_fits s ->
  update_bullets s = with_bullets (flown <$> bullets s) s /\
  (active_bullets (bullets (update_bullets s)) <= active_bullets (bullets s))%nat.
Proof.
  intros Hwf Hfit.
  assert (Heq : update_bullets s = with_bullets (flown <$> bullets s) s).
  { rewrite update_bullets_eq by apply Hwf. f_equal.
    apply list_fmap_ext. intros i b Hi. apply step_bullet_flown. intros Ha.
    apply Hfit; [eapply list_elem_of_lookup_2; eassumption | assumption]. }
  split; [exact Heq|]. rewrite Heq. cbn [bullets with_bullets].
  apply active_bullets_fmap. intros b. unfold flown.
  destruct (b_active b) eqn:E; [reflexivity | intros H; congruence].
Qed.

(** A bullet at y = -5 leaves the screen in the next update. *)
Lemma bullets_fly_witness :
  let s := with_bullets (<[0%nat := mkBullet 318 (-5) 4 10 true]> (bullets init))
             init in
  bullets (update_bullets s) !! 0%nat = Some (mkBullet 318 (-12) 4 10 false).
Proof.
  intros s.
  destruct (bullets_fly s) as [Heq _].
  - split; reflexivity.
  - subst s. intros b Hb. each_slot Hb; intros Ha; try discriminate Ha.
    cbn. bounds.
  - rewrite Heq. reflexivity.
Defined.

(** ** The bullet pool *)

Lemma active_bullets_alter_on (f : Bullet -> Bullet) bs k b :
  bs !! k = Some b -> b_active b = false -> b_active (f b) = true ->
  active_bullets (alter f k bs) = Datatypes.S (active_bullets bs).
Proof.
  unfold active_bullets. revert k.
  induction bs as [|x bs IH]; intros [|k] Hk Hoff Hon; try discriminate.
  - injection Hk as ->. cbn. rewrite Hoff, Hon. reflexivity.
  - cbn [alter list_alter List.filter]. cbn in Hk.
    fold (alter f k bs). destruct (b_active x); cbn [length];
      rewrite (IH k Hk Hoff Hon); reflexivity.
Qed.

Lemma active_bullets_alter_off (f : Bullet -> Bullet) bs k b :
  bs !! k = Some b -> b_active b = true -> b_active (f b) = false ->
  Datatypes.S (active_bullets (alter f k bs)) = active_bullets bs.
Proof.
  unfold active_bullets. revert k.
  induction bs as [|x bs IH]; intros [|k] Hk Hon Hoff; try discriminate.
  - injection Hk as ->. cbn. rewrite Hoff, Hon. reflexivity.
  - cbn [alter list_alter List.filter]. cbn in Hk.
    fold (alter f k bs). destruct (b_active x); cbn [length];
      rewrite <- (IH k Hk Hon Hoff); reflexivity.
Qed.

Lemma active_bullets_all bs :
  (forall b, b ∈ bs -> b_active b = true) -> active_bullets bs = length bs.
Proof.
  unfold active_bullets. induction bs as [|b bs IH]; intros Hall; [reflexivity|].
  cbn [List.filter]. rewrite (Hall b) by apply list_elem_of_here.
  cbn. f_equal. apply IH. intros x Hx. apply Hall, list_elem_of_further, Hx.
Qed.

(** X3: while the game runs, a shot raises the number of active bullets by
    exactly one until all five slots are in use, and then changes nothing;
    when the game is over it changes nothing. *)
Theorem fire_counts s :
  wf s ->
  active_bullets (bullets (game_event (SDL_KEYDOWN SDLK_SPACE) s)) =
    if gGameOver s then active_bullets (bullets s)
    else Nat.min MAX_BULLETS (Datatypes.S (active_bullets (bullets s))).
Proof.
  intros [Hlen Ha]. cbn [game_event key_down]. rewrite fire_eq.
  destruct (gGameOver s); [reflexivity|].
  destruct (free_slot (bullets s)) as [k|] eqn:Hk; unfold free_slot in Hk.
  - apply find_seq_Some in Hk as (Hlt & Hfree & _).
    apply negb_true_iff in Hfree.
    assert (Hlook : bullets s !! k = Some (bullets s !!! k)).
    { apply list_lookup_lookup_total_lt. rewrite Hlen. lia. }
    cbn [bullets with_bullets].
    pose proof (active_bullets_le (alter (fire_bullet (player s)) k (bullets s)))
      as Hle.
    rewrite length_alter, Hlen in Hle.
    rewrite (active_bullets_alter_on (fire_bullet (player s)) _ _ _
               Hlook Hfree eq_refl) in *.
    lia.
  - rewrite find_seq_None in Hk.
    rewrite active_bullets_all, Hlen; [unfold MAX_BULLETS; lia|].
    intros b Hb. apply list_elem_of_lookup in Hb as [j Hj].
    pose proof (lookup_lt_Some _ _ _ Hj) as Hlt. rewrite Hlen in Hlt.
    specialize (Hk j ltac:(lia)).
    rewrite (list_lookup_total_correct _ _ _ Hj) in Hk.
    apply negb_false_iff, Hk.
Qed.

(** Six shots from the start: the sixth finds no free slot. *)
Lemma fire_counts_witness :
  active_bullets
    (bullets (Nat.iter 6 (game_event (SDL_KEYDOWN SDLK_SPACE)) init)) = 5%nat.
Proof.
  change (Nat.iter 6 (game_event (SDL_KEYDOWN SDLK_SPACE)) init)
    with (game_event (SDL_KEYDOWN SDLK_SPACE)
            (Nat.iter 5 (game_event (SDL_KEYDOWN SDLK_SPACE)) init)).
  rewrite (fire_counts (Nat.iter 5 (game_event (SDL_KEYDOWN SDLK_SPACE)) init)).
  - vm_compute. reflexivity.
  - split; vm_compute; reflexivity.
Defined.

(** X4: the collision step spends one bullet per alien destroyed: the
    number of active bullets plus the number of destroyed aliens is the same
    before and after, and no alien comes back. *)
Theorem kills_cost_bullets s :
  wf s ->
  (active_bullets (bullets (collide s)) + dead (aliens (collide s)) =
   active_bullets (bullets s) + dead (aliens s))%nat /\
  (dead (aliens s) <= dead (aliens (collide s)))%nat.
Proof.
  intros Hwf. rewrite collide_eq.
  apply (fold_left_inv
           (fun t => wf t /\
              (active_bullets (bullets t) + dead (aliens t) =
               active_bullets (bullets s) + dead (aliens s))%nat /\
              (dead (aliens s) <= dead (aliens t))%nat)
           (fun t b => shoot b t) (seq 0 MAX_BULLETS) s); [|auto].
  intros t b (Ht & Hsum & Hle). split; [apply wf_shoot, Ht|].
  unfold shoot. destruct (b_active (bullets t !!! b)) eqn:Hb; [|auto].
  rewrite scan_aliens_eq. destruct (first_hit b t) as [i|] eqn:Hi; [|auto].
  apply find_seq_Some in Hi as (Hlt & Hhit & _).
  apply andb_true_iff in Hhit as [Hact _].
  assert (Hbl : bullets t !! b = Some (bullets t !!! b)).
  { destruct (bullets t !! b) as [x|] eqn:E.
    - rewrite (list_lookup_total_correct _ _ _ E). reflexivity.
    - rewrite list_lookup_total_alt, E in Hb. discriminate Hb. }
  assert (Hal : aliens t !! i = Some (aliens t !!! i)).
  { apply list_lookup_lookup_total_lt. rewrite (proj2 Ht). lia. }
  cbn [bullets aliens destroy with_gScore with_bullets with_aliens].
  pose proof (active_bullets_alter_off (set_b_active false) _ _ _ Hbl Hb eq_refl)
    as Hoff.
  rewrite (dead_alter _ _ _ Hal Hact). lia.
Qed.

Lemma kills_cost_bullets_witness :
  (active_bullets (bullets (collide aim)) + dead (aliens (collide aim)) =
   active_bullets (bullets aim) + dead (aliens aim))%nat.
Proof.
  apply (kills_cost_bullets aim). split; reflexivity.
Defined.

(** ** The game over, the loop and its events *)

Lemma set_p_vx_same p : set_p_vx (p_vx p) p = p.
Proof. destruct p; reflexivity. Qed.

Lemma with_player_same s : with_player (player s) s = s.
Proof. destruct s; reflexivity. Qed.

(** While the game is over, an event other than R can only store a
    velocity. *)
Lemma game_event_over e s :
  gGameOver s = true -> e <> SDL_KEYDOWN SDLK_r ->
  exists v, game_event e s = with_player (set_p_vx v (player s)) s.
Proof.
  intros Hover He.
  assert (Hid : s = with_player (set_p_vx (p_vx (player s)) (player s)) s)
    by (rewrite set_p_vx_same, with_player_same; reflexivity).
  destruct e as [|[]|[]|]; cbn [game_event key_down key_up];
    try (exists (p_vx (player s)); exact Hid).
  - eexists. reflexivity.
  - eexists. reflexivity.
  - exists (p_vx (player s)). rewrite fire_eq, Hover. exact Hid.
  - contradiction He. reflexivity.
  - destruct (_ <? _); [eexists; reflexivity|].
    exists (p_vx (player s)); exact Hid.
  - destruct (_ >? _); [eexists; reflexivity|].
    exists (p_vx (player s)); exact Hid.
Qed.

(** X5: once the game is over nothing moves until R is pressed: an
    iteration of the main loop whose events do not include the R key leaves
    the score, the lives, the aliens, the bullets and the ship's position as
    they are and the game over; the arrow keys only change the stored
    velocity, and the fire key does nothing. *)
Theorem game_over_freezes l events :
  gGameOver (game l) = true ->
  Forall (fun e => e <> SDL_KEYDOWN SDLK_r) events ->
  exists v,
    game (iteration events l) =
      with_player (set_p_vx v (player (game l))) (game l).
Proof.
  intros Hover Hev. rewrite iteration_game.
  assert (Hfold : exists v,
            fold_left (fun s e => game_event e s) events (game l) =
              with_player (set_p_vx v (player (game l))) (game l)).
  { revert Hover. generalize (game l). clear l.
    induction Hev as [|e events He Hev IH]; intros s Hover.
    - exists (p_vx (player s)).
      rewrite set_p_vx_same, with_player_same. reflexivity.
    - cbn [fold_left].
      destruct (game_event_over e s Hover He) as [v ->].
      destruct (IH (with_player (set_p_vx v (player s)) s) Hover) as [v' ->].
      exists v'. reflexivity. }
  destruct Hfold as [v ->]. exists v. apply frame_over. exact Hover.
Qed.

(** After the won game, pressing fire and both arrows changes nothing but
    the stored velocity. *)
Lemma game_over_freezes_witness :
  exists v,
    game (iteration [SDL_KEYDOWN SDLK_SPACE; SDL_KEYDOWN SDLK_LEFT;
                     SDL_KEYDOWN SDLK_RIGHT] won_loop) =
      with_player (set_p_vx v (player (game won_loop))) (game won_loop).
Proof.
  apply (game_over_freezes won_loop).
  - vm_compute. reflexivity.
  - repeat constructor; discriminate.
Defined.

Lemma gRunning_events events l :
  gRunning (fold_left handle_event events l) =
  gRunning l && forallb (fun e => negb (quits e)) events.
Proof.
  revert l. induction events as [|e events IH]; intros l; cbn [fold_left forallb].
  - rewrite andb_true_r. reflexivity.
  - rewrite IH. cbn [gRunning handle_event].
    destruct (quits e), (gRunning l); reflexivity.
Qed.

Lemma run_stopped batches l : gRunning l = false -> run batches l = l.
Proof. intros H. destruct batches; cbn [run]; [|rewrite H]; reflexivity. Qed.

(** X6: the window-close event and the Escape key end the main loop, but
    only after the iteration that polled them is finished: the other events
    of that batch and its frame update still take effect, and every later
    batch is ignored.  Without such an event the loop goes on. *)
Theorem quit_ends_the_loop events rest l :
  gRunning l = true ->
  game (iteration events l) =
    frame (fold_left (fun s e => game_event e s) events (game l)) /\
  (Exists (fun e => quits e = true) events ->
     gRunning (iteration events l) = false /\
     run (events :: rest) l = iteration events l) /\
  (Forall (fun e => quits e = false) events ->
     gRunning (iteration events l) = true /\
     run (events :: rest) l = run rest (iteration events l)).
Proof.
  intros Hrun. split; [apply iteration_game|].
  assert (Hr : gRunning (iteration events l)
               = forallb (fun e => negb (quits e)) events).
  { unfold iteration. cbn [gRunning]. rewrite gRunning_events, Hrun.
    reflexivity. }
  cbn [run]. rewrite Hrun. split.
  - intros Hq.
    assert (Hstop : gRunning (iteration events l) = false).
    { rewrite Hr. apply not_true_is_false. intros Hall.
      rewrite forallb_forall in Hall.
      apply Exists_exists in Hq as (e & Hin & He).
      specialize (Hall e (proj1 (list_elem_of_In _ _) Hin)).
      rewrite He in Hall. discriminate. }
    split; [exact Hstop | apply run_stopped, Hstop].
  - intros Hq. split; [|reflexivity].
    rewrite Hr. apply forallb_forall. intros e Hin.
    rewrite Forall_forall in Hq.
    rewrite (Hq e (proj2 (list_elem_of_In _ _) Hin)). reflexivity.
Qed.

(** Escape pressed before a shot in the first batch: the shot is still
    fired and flies one frame, and the second batch is never read. *)
Lemma quit_ends_the_loop_witness :
  run [[SDL_KEYDOWN SDLK_ESCAPE; SDL_KEYDOWN SDLK_SPACE];
       [SDL_KEYDOWN SDLK_SPACE]] start =
  iteration [SDL_KEYDOWN SDLK_ESCAPE; SDL_KEYDOWN SDLK_SPACE] start.
Proof.
  destruct (quit_ends_the_loop [SDL_KEYDOWN SDLK_ESCAPE; SDL_KEYDOWN SDLK_SPACE]
              [[SDL_KEYDOWN SDLK_SPACE]] start eq_refl) as (_ & Hq & _).
  apply Hq. constructor. reflexivity.
Defined.

(** X7: no event changes the score, the lives, the aliens, the direction,
    the game-over flag or the ship's position and size, except the R key in
    a finished game; and only the fire key changes a bullet. *)
Theorem events_leave_the_game s e :
  e <> SDL_KEYDOWN SDLK_r \/ gGameOver s = false ->
  aliens (game_event e s) = aliens s /\
  gGameOver (game_event e s) = gGameOver s /\
  gLives (game_event e s) = gLives s /\
  gScore (game_event e s) = gScore s /\
  gAlienMoveDir (game_event e s) = gAlienMoveDir s /\
  p_x (player (game_event e s)) = p_x (player s) /\
  p_y (player (game_event e s)) = p_y (player s) /\
  p_w (player (game_event e s)) = p_w (player s) /\
  p_h (player (game_event e s)) = p_h (player s) /\
  (e <> SDL_KEYDOWN SDLK_SPACE -> bullets (game_event e s) = bullets s).
Proof.
  intros He.
  destruct e as [|[]|[]|]; cbn [game_event key_down key_up];
    try (repeat apply conj; reflexivity).
  - destruct (fire_fields s) as (Hp & ? & ? & ? & ? & ?).
    rewrite Hp. repeat apply conj; try assumption; try reflexivity.
    intros Hne. contradiction Hne. reflexivity.
  - unfold restart. destruct He as [He|He]; [contradiction He; reflexivity|].
    rewrite He. repeat apply conj; try reflexivity. assumption.
  - destruct (_ <? _); repeat apply conj; reflexivity.
  - destruct (_ >? _); repeat apply conj; reflexivity.
Qed.

Lemma events_leave_the_game_witness :
  gScore (game_event (SDL_KEYDOWN SDLK_r) aim) = gScore aim /\
  aliens (game_event (SDL_KEYDOWN SDLK_SPACE) aim) = aliens aim.
Proof.
  split.
  - apply (events_leave_the_game aim (SDL_KEYDOWN SDLK_r)). right. reflexivity.
  - apply (events_leave_the_game aim (SDL_KEYDOWN SDLK_SPACE)).
    left. discriminate.
Defined.

(** ** More invariants of the reachable states *)

Lemma dead_lt al k a :
  al !! k = Some a -> a_active a = true -> (dead al < length al)%nat.
Proof.
  unfold dead. revert k. induction al as [|x al IH]; intros [|k] Hk Ha;
    try discriminate.
  - injection Hk as ->. cbn [List.filter length]. rewrite Ha. cbn [negb].
    pose proof (dead_le al) as Hle. unfold dead in Hle. lia.
  - cbn in Hk. specialize (IH k Hk Ha). cbn [List.filter length].
    destruct (negb (a_active x)); cbn [length]; lia.
Qed.

Lemma has_alien_first_reaching s :
  wf s -> first_reaching s <> None -> has_alien s.
Proof.
  intros [_ Hlen] Hre. unfold first_reaching in Hre.
  destruct (find _ _) as [k|] eqn:Hk; [|congruence].
  apply find_seq_Some in Hk as (Hlt & Hp & _).
  apply andb_true_iff in Hp as [Hact _].
  exists (aliens s !!! k). split; [|assumption].
  apply list_elem_of_lookup_total_2. rewrite Hlen. lia.
Qed.

Lemma has_alien_not_dead s :
  wf s -> all_aliens_dead s = false -> has_alien s.
Proof.
  intros [_ Hlen] Hd. rewrite all_aliens_dead_eq in Hd.
  destruct (find _ _) as [k|] eqn:Hk; [|discriminate].
  apply find_seq_Some in Hk as (Hlt & Hp & _).
  exists (aliens s !!! k). split; [|assumption].
  apply list_elem_of_lookup_total_2. rewrite Hlen. lia.
Qed.

Lemma has_alien_dead s : has_alien s -> (dead (aliens s) < length (aliens s))%nat.
Proof.
  intros (a & Hin & Ha). apply list_elem_of_lookup in Hin as [k Hk].
  eapply dead_lt; eassumption.
Qed.

(** While the game runs, and after a defeat, some alien is active. *)
Lemma reachable_has_alien s :
  reachable s -> gGameOver s = false \/ gLives s = 0 -> has_alien s.
Proof.
  induction 1 as [|e s Hs IH|s Hs IH]; intros Hcase.
  - exists (start_alien 0). split; [|reflexivity].
    rewrite init_eq. apply (list_elem_of_lookup_2 _ 0%nat). reflexivity.
  - pose proof (reachable_wf s Hs) as Hwf.
    destruct (game_event_cases e s Hwf) as [[_ Heq]|(Ea & Eo & El & _)].
    + rewrite Heq. exists (start_alien 0). split; [|reflexivity].
      rewrite init_eq. apply (list_elem_of_lookup_2 _ 0%nat). reflexivity.
    + rewrite Eo, El in Hcase. unfold has_alien. rewrite Ea. apply IH, Hcase.
  - destruct (reachable_inv s Hs) as (Hwf & Hl & Hrun & _).
    destruct (gGameOver s) eqn:Hgo.
    { rewrite frame_over in * by assumption. apply IH.
      rewrite Hgo in Hcase. exact Hcase. }
    specialize (Hrun eq_refl).
    destruct (before_row_check_spec s Hwf) as (Hc & _ & Co & Cl & _).
    assert (Hsub : isub (gLives s) 1 = gLives s - 1) by (apply isub_fits; bounds).
    destruct (frame_cases s Hwf Hgo)
      as [[_ Heq]|[(Hre & _ & Heq)|(_ & Hpos & Heq)]]; rewrite Heq in *.
    + destruct (victory_check_fields (before_row_check s))
        as (_ & _ & Ea & El & _).
      unfold has_alien. rewrite Ea. rewrite El, Cl in Hcase.
      apply has_alien_not_dead; [exact Hc|].
      destruct (all_aliens_dead (before_row_check s)) eqn:Hd; [|reflexivity].
      exfalso. unfold victory_check in Hcase. rewrite Hd, Co, Hgo in Hcase.
      cbn in Hcase. destruct Hcase; [discriminate | lia].
    + apply (has_alien_first_reaching _ Hc) in Hre. exact Hre.
    + rewrite wave_reset_eq by apply Hc. destruct Hc as [_ Ha].
      destruct (lookup_lt_is_Some_2 (aliens (before_row_check s)) 0) as [a0 H0];
        [rewrite Ha; unfold ALIEN_COUNT; lia|].
      exists (wave_alien 0 a0). split; [|reflexivity].
      cbn [aliens with_bullets with_aliens with_gLives].
      apply (elem_of_lookup_imap_2 wave_alien _ _ _ H0).
Qed.

Lemma reachable_score_inv s : reachable s -> score_inv s.
Proof.
  induction 1 as [|e s Hs IH|s Hs IH].
  - split; [vm_compute; discriminate | exists 0; reflexivity].
  - pose proof (reachable_wf s Hs) as Hwf.
    destruct (game_event_cases e s Hwf) as [[_ Heq]|(Ea & _ & El & Es & _)].
    + rewrite Heq. split; [vm_compute; discriminate | exists 0; reflexivity].
    + unfold score_inv. rewrite Ea, El, Es. exact IH.
  - destruct (reachable_inv s Hs) as (Hwf & Hl & Hrun & _).
    destruct (gGameOver s) eqn:Hgo; [rewrite frame_over by assumption; exact IH|].
    specialize (Hrun eq_refl). destruct IH as [Hb [k Hk]].
    pose proof (reachable_in_bounds s Hs) as (_ & _ & _ & _ & Hsc).
    pose proof (dead_le (aliens s)) as Hds. rewrite (proj2 Hwf) in Hds.
    destruct (before_row_check_spec s Hwf) as (Hc & _ & Co & Cl & _).
    destruct (before_row_check_score s Hwf) as [Cdead Cs]; [bounds | bounds |].
    cbv zeta in Cdead, Cs.
    pose proof (dead_le (aliens (before_row_check s))) as Hdc.
    rewrite (proj2 Hc) in Hdc.
    assert (Hsub : isub (gLives s) 1 = gLives s - 1) by (apply isub_fits; bounds).
    destruct (frame_cases s Hwf Hgo)
      as [[_ ->]|[(_ & Hle & ->)|(Hre & Hpos & ->)]].
    + destruct (victory_check_fields (before_row_check s))
        as (_ & _ & Ea & El & Es & _).
      unfold score_inv. rewrite Ea, El, Es, Cl, Cs. split; [lia|].
      exists (k + (Z.of_nat (dead (aliens (before_row_check s)))
                   - Z.of_nat (dead (aliens s)))). lia.
    + rewrite Hsub in *. unfold score_inv.
      cbn [aliens gLives gScore with_gGameOver with_gLives].
      rewrite Cs. split; [lia|].
      exists (k + (Z.of_nat (dead (aliens (before_row_check s)))
                   - Z.of_nat (dead (aliens s)))). lia.
    + rewrite Hsub in *.
      apply (has_alien_first_reaching _ Hc), has_alien_dead in Hre.
      rewrite (proj2 Hc) in Hre.
      rewrite wave_reset_eq by apply Hc. unfold score_inv.
      cbn [aliens gLives gScore with_bullets with_aliens with_gLives].
      rewrite dead_imap_wave, Cs. split; [bounds|].
      exists (k + (Z.of_nat (dead (aliens (before_row_check s)))
                   - Z.of_nat (dead (aliens s)))). lia.
Qed.


(** X8: in every state of a run the scoreboard shows between 0 and 3 lives,
    at least 1 while the game runs, and a score that is a multiple of 10
    between 0 and 220: at most 70 points come from each wave that ended with
    a lost life. *)
Theorem scoreboard_ranges s :
  reachable s ->
  0 <= gLives s <= 3 /\
  (gGameOver s = false -> 1 <= gLives s) /\
  0 <= gScore s <= 220 /\
  (exists k, gScore s = 10 * k) /\
  gScore s <=
    70 * (3 - Z.max 1 (gLives s)) + 10 * Z.of_nat (dead (aliens s)).
Proof.
  intros Hs.
  destruct (reachable_inv s Hs) as (Hwf & Hl & Hrun & _).
  destruct (reachable_score_inv s Hs) as [Hb Hk].
  pose proof (reachable_in_bounds s Hs) as (_ & _ & _ & _ & Hsc).
  pose proof (dead_le (aliens s)) as Hds. rewrite (proj2 Hwf) in Hds.
  repeat apply conj; try assumption; try lia.
  destruct (Z.eq_dec (gLives s) 0) as [H0|H0]; [|bounds].
  pose proof (has_alien_dead s (reachable_has_alien s Hs (or_intror H0)))
    as Hlt.
  rewrite (proj2 Hwf) in Hlt. bounds.
Qed.

Lemma scoreboard_ranges_witness : 0 <= gScore won <= 220.
Proof.
  destruct (scoreboard_ranges won won_reachable) as (_ & _ & H & _). exact H.
Defined.



(** X10: all aliens are inactive exactly in the victory states: in a run
    the game is over with a life left if and only if no alien is active, so
    a running game and a lost game always show an alien. *)
Theorem victory_iff_no_alien s :
  reachable s ->
  (all_inactive s <-> gGameOver s = true /\ gLives s > 0) /\
  (has_alien s <-> gGameOver s = false \/ gLives s = 0).
Proof.
  intros Hs.
  destruct (reachable_inv s Hs) as (Hwf & Hl & Hrun & Hend & _).
  pose proof (reachable_has_alien s Hs) as Halive.
  assert (Hexcl : has_alien s -> all_inactive s -> False).
  { intros (a & Hin & Ha) Hall. rewrite (Hall a Hin) in Ha. discriminate. }
  split; split.
  - intros Hall. destruct (gGameOver s) eqn:Hgo.
    + split; [reflexivity|].
      destruct (Z.eq_dec (gLives s) 0) as [H0|H0]; [|lia].
      exfalso. apply (Hexcl (Halive (or_intror H0)) Hall).
    + exfalso. apply (Hexcl (Halive (or_introl eq_refl)) Hall).
  - intros [Hgo Hpos]. destruct (Hend Hgo) as [H0|Hall]; [lia | exact Hall].
  - intros Hal. destruct (gGameOver s) eqn:Hgo; [|left; reflexivity].
    right. destruct (Hend eq_refl) as [H0|Hall]; [exact H0|].
    exfalso. apply (Hexcl Hal Hall).
  - exact Halive.
Qed.

Lemma victory_iff_no_alien_witness : all_inactive won.
Proof.
  apply (proj1 (victory_iff_no_alien won won_reachable)).
  vm_compute. split; reflexivity.
Defined.

Lemma rigid_init : rigid (aliens init).
Proof.
  rewrite init_eq. cbn [aliens start_game]. intros i j a b Hi Hj _ _.
  apply list_lookup_fmap_Some in Hi as (i' & -> & Hi).
  apply list_lookup_fmap_Some in Hj as (j' & -> & Hj).
  apply lookup_seq in Hi as [-> _]. apply lookup_seq in Hj as [-> _].
  unfold start_alien, ALIEN_SPACING. cbn [a_x]. lia.
Qed.

Lemma rigid_fades al al' :
  Forall2 alien_fades al al' -> rigid al -> rigid al'.
Proof.
  intros HF Hr i j a' b' Hi Hj Ha Hb.
  destruct (Forall2_lookup_r _ _ _ _ _ HF Hi) as (a & Hia & Fx & _ & _ & _ & Fa).
  destruct (Forall2_lookup_r _ _ _ _ _ HF Hj) as (b & Hjb & Gx & _ & _ & _ & Ga).
  rewrite Fx, Gx. apply (Hr i j a b); auto.
Qed.

Lemma rigid_wave al : length al = ALIEN_COUNT -> rigid (imap wave_alien al).
Proof.
  intros Hlen i j a b Hi Hj _ _.
  apply list_lookup_imap_Some in Hi as (x & Hi & ->).
  apply list_lookup_imap_Some in Hj as (y & Hj & ->).
  rewrite !wave_alien_regrouped
    by (rewrite <- Hlen; eapply lookup_lt_Some; eassumption).
  unfold regrouped, ALIEN_SPACING. cbn [a_x]. lia.
Qed.

Lemma rigid_move_aliens s :
  wf s -> formation_fits s -> rigid (aliens s) -> rigid (aliens (move_aliens s)).
Proof.
  intros Hwf [_ Hfit] Hr. rewrite move_aliens_eq by apply Hwf.
  destruct (needDescend s); cbn [aliens with_aliens with_gAlienMoveDir];
    intros i j a' b' Hi Hj Ha Hb;
    apply list_lookup_fmap_Some in Hi as (a & -> & Hi);
    apply list_lookup_fmap_Some in Hj as (b & -> & Hj).
  - unfold descend_alien in *.
    destruct (a_active a) eqn:Ea; [|congruence].
    destruct (a_active b) eqn:Eb; [|congruence].
    cbn [a_x set_a_y]. apply (Hr i j a b); assumption.
  - unfold slide_alien in *.
    destruct (a_active a) eqn:Ea; [|congruence].
    destruct (a_active b) eqn:Eb; [|congruence].
    cbn [a_x set_a_x].
    rewrite !newX_fits
      by (apply Hfit; [eapply list_elem_of_lookup_2; eassumption | assumption]).
    pose proof (Hr i j a b Hi Hj Ea Eb). lia.
Qed.

Lemma reachable_formation_fits s : reachable s -> formation_fits s.
Proof.
  intros Hs. pose proof (reachable_in_bounds s Hs) as (_ & _ & Ha & Hd & _).
  rewrite Forall_forall in Ha. split; [bounds|]. intros a Hin _.
  destruct (Ha a Hin) as (Hw & Hh & Hx & Hy & _). bounds.
Qed.

Lemma reachable_rigid s : reachable s -> rigid (aliens s).
Proof.
  induction 1 as [|e s Hs IH|s Hs IH].
  - apply rigid_init.
  - destruct (game_event_cases e s (reachable_wf s Hs)) as [[_ ->]|(-> & _)];
      [apply rigid_init | exact IH].
  - pose proof (reachable_wf s Hs) as Hwf.
    destruct (gGameOver s) eqn:Hgo; [rewrite frame_over by assumption; exact IH|].
    destruct (before_row_check_spec s Hwf) as (Hc & _ & _ & _ & _ & Hf).
    assert (Hrc : rigid (aliens (before_row_check s))).
    { eapply rigid_fades; [exact Hf|].
      apply rigid_move_aliens; [exact Hwf | | exact IH].
      apply reachable_formation_fits, Hs. }
    destruct (frame_cases s Hwf Hgo) as [[_ ->]|[(_ & _ & ->)|(_ & _ & ->)]].
    + destruct (victory_check_fields (before_row_check s)) as (_ & _ & -> & _).
      exact Hrc.
    + exact Hrc.
    + rewrite wave_reset_eq by apply Hc.
      cbn [aliens with_bullets with_aliens with_gLives].
      apply rigid_wave, Hc.
Qed.

(** X11: the formation is rigid: in every state of a run two active aliens
    are exactly 50 apart per index step, so an active alien with a higher
    index starts at least 18 to the right of the right edge of one with a
    lower index, and active aliens never overlap. *)
Theorem formation_is_rigid s :
  reachable s ->
  forall i j a b,
    aliens s !! i = Some a -> aliens s !! j = Some b ->
    a_active a = true -> a_active b = true ->
    a_x b - a_x a = ALIEN_SPACING * (Z.of_nat j - Z.of_nat i) /\
    ((i < j)%nat -> a_x a + a_w a + 18 <= a_x b).
Proof.
  intros Hs i j a b Hi Hj Ha Hb.
  pose proof (reachable_rigid s Hs i j a b Hi Hj Ha Hb) as Hd.
  split; [exact Hd|]. intros Hlt.
  pose proof (reachable_in_bounds s Hs) as (_ & _ & Hal & _).
  destruct (Forall_lookup_1 _ _ _ _ Hal Hi) as (Hw & _).
  unfold ALIEN_SPACING, ALIEN_WIDTH in *. lia.
Qed.

Lemma formation_is_rigid_witness :
  a_x (mkAlien 608 370 32 32 true) - a_x (mkAlien 258 370 32 32 true) =
  ALIEN_SPACING * (Z.of_nat 7 - Z.of_nat 0).
Proof.
  apply (formation_is_rigid low_row low_row_reachable 0%nat 7%nat);
    reflexivity.
Defined.

(** X12: in a run a life is lost only in a frame in which the formation
    descends: if a frame changes the number of lives, the game was running,
    some active alien was about to cross a side of the screen, and the
    frame reversed the direction. *)
Theorem lives_lost_on_descent s :
  reachable s -> gLives (frame s) <> gLives s ->
  gGameOver s = false /\ must_descend s /\
  gAlienMoveDir (frame s) = - gAlienMoveDir s /\
  gLives (frame s) = gLives s - 1.
Proof.
  intros Hs Hlost.
  destruct (reachable_inv s Hs) as (Hwf & Hl & Hrun & _).
  destruct (gGameOver s) eqn:Hgo;
    [rewrite frame_over in Hlost by assumption; contradiction|].
  pose proof (reachable_in_bounds s Hs) as Hin.
  pose proof (reachable_formation_fits s Hs) as Hfit.
  destruct (before_row_check_spec s Hwf) as (Hc & _ & _ & Cl & _ & Hf).
  destruct (before_row_check_bounds s Hwf Hgo Hin) as (Cp & _ & Ca & _).
  assert (Hsub : isub (gLives s) 1 = gLives s - 1) by (apply isub_fits; bounds).
  assert (Hre : first_reaching (before_row_check s) <> None).
  { destruct (frame_cases s Hwf Hgo) as [[_ Heq]|[(H & _)|(H & _)]];
      try exact H.
    exfalso. apply Hlost. rewrite Heq.
    destruct (victory_check_fields (before_row_check s)) as (_ & _ & _ & -> & _).
    exact Cl. }
  assert (Hnd : needDescend s = true).
  { apply not_false_is_true. intros Hnd.
    unfold first_reaching in Hre.
    destruct (find _ _) as [k|] eqn:Hk; [|congruence].
    apply find_seq_Some in Hk as (Hlt & Hp & _).
    apply andb_true_iff in Hp as [Hact Hge].
    assert (Hk : aliens (before_row_check s) !! k
                 = Some (aliens (before_row_check s) !!! k)).
    { apply list_lookup_lookup_total_lt. rewrite (proj2 Hc). lia. }
    set (a' := aliens (before_row_check s) !!! k) in *.
    destruct (Forall2_lookup_r _ _ _ _ _ Hf Hk) as (a1 & H1 & _ & Fy & _ & Fh & Fa).
    rewrite move_aliens_eq, Hnd in H1 by apply Hwf.
    cbn [aliens with_aliens] in H1.
    apply list_lookup_fmap_Some in H1 as (a0 & -> & H0).
    destruct Hin as (_ & _ & Hal & _). rewrite Hgo in Hal.
    destruct (Forall_lookup_1 _ _ _ _ Hal H0) as (_ & Hh & _ & Hy & Hon).
    destruct (Forall_lookup_1 _ _ _ _ Ca Hk) as (_ & Hh' & _ & Hy' & _).
    destruct Cp as (_ & _ & Py & _).
    specialize (Fa Hact). unfold slide_alien in Fy, Fa.
    destruct (a_active a0) eqn:E0; [|congruence].
    specialize (Hon eq_refl eq_refl). cbn [a_y set_a_x] in Fy.
    rewrite iadd_fits, Py in Hge by bounds.
    apply Z.geb_le in Hge. bounds. }
  split; [reflexivity|]. split; [|split].
  - apply needDescend_spec; assumption.
  - rewrite frame_direction by assumption.
    rewrite move_aliens_eq, Hnd by apply Hwf.
    cbn [gAlienMoveDir with_aliens with_gAlienMoveDir].
    apply ineg_fits, Hfit.
  - destruct (frame_lives s Hwf) as [Heq|Heq]; [contradiction|].
    rewrite Heq. exact Hsub.
Qed.

Lemma lives_lost_on_descent_witness :
  must_descend low_row /\ gAlienMoveDir (frame low_row) = -1.
Proof.
  destruct (lives_lost_on_descent low_row low_row_reachable) as (_ & Hm & Hd & _).
  - vm_compute. discriminate.
  - split; [exact Hm | exact Hd].
Defined.

(** In the state [low_row], which the game reaches by itself, the sums of
    the next formation step are representable. *)
Lemma runs_never_overflow_witness : formation_fits low_row.
Proof. apply (runs_never_overflow low_row low_row_reachable). Defined.

(** * The collision step of a frame, and the score of a won game *)

(** Every destroyed alien of the present wave has brought its 10 points. *)
Lemma reachable_score_dead s :
  reachable s -> 10 * Z.of_nat (dead (aliens s)) <= gScore s.
Proof.
  induction 1 as [|e s Hs IH|s Hs IH].
  - vm_compute. discriminate.
  - pose proof (reachable_wf s Hs) as Hwf.
    destruct (game_event_cases e s Hwf) as [[_ ->]|(-> & _ & _ & -> & _)];
      [vm_compute; discriminate | exact IH].
  - pose proof (reachable_wf s Hs) as Hwf.
    destruct (gGameOver s) eqn:Hgo; [rewrite frame_over by assumption; exact IH|].
    pose proof (reachable_in_bounds s Hs) as (_ & _ & _ & _ & Hsc).
    destruct (reachable_inv s Hs) as (_ & Hl & _).
    pose proof (dead_le (aliens s)) as Hds. rewrite (proj2 Hwf) in Hds.
    destruct (before_row_check_spec s Hwf) as (Hc & _).
    destruct (before_row_check_score s Hwf) as [Cdead Cs]; [bounds | bounds |].
    cbv zeta in Cdead, Cs.
    destruct (frame_cases s Hwf Hgo)
      as [[_ ->]|[(_ & _ & ->)|(_ & _ & ->)]].
    + destruct (victory_check_fields (before_row_check s))
        as (_ & _ & -> & _ & -> & _).
      lia.
    + cbn [aliens gScore with_gGameOver with_gLives]. lia.
    + rewrite wave_reset_eq by (split; apply Hc).
      cbn [aliens gScore with_bullets with_aliens with_gLives].
      rewrite dead_imap_wave. lia.
Qed.

(** In a frame that takes no life, or ends the game, the bullets and the
    aliens are as the collision step left them. *)
Lemma frame_after_collide s :
  wf s -> gGameOver s = false ->
  gLives (frame s) = gLives s \/ gGameOver (frame s) = true ->
  bullets (frame s) = bullets (before_row_check s) /\
  aliens (frame s) = aliens (before_row_check s).
Proof.
  intros Hwf Hover Hquiet.
  destruct (before_row_check_spec s Hwf) as (Hc & _ & _ & Hl & _).
  destruct (frame_cases s Hwf Hover)
    as [[_ Heq]|[(_ & _ & Heq)|(Hre & Hpos & Heq)]].
  - rewrite Heq.
    destruct (victory_check_fields (before_row_check s)) as (_ & -> & -> & _).
    split; reflexivity.
  - rewrite Heq. split; reflexivity.
  - exfalso. rewrite Heq in Hquiet.
    cbn [gLives gGameOver wave_reset with_bullets with_aliens with_gLives]
      in Hquiet.
    destruct Hquiet as [Hq|Hq].
    + exact (wrap_pred_neq _ Hq).
    + rewrite (proj1 (proj2 (proj2 (before_row_check_spec s Hwf)))) in Hq.
      congruence.
Qed.

Lemma frame_score_eq s :
  wf s -> gGameOver s = false ->
  gScore (frame s) = gScore (before_row_check s).
Proof.
  intros Hwf Hover. rewrite frame_before_row_check by assumption.
  destruct (victory_check_fields (row_check (before_row_check s)))
    as (_ & _ & _ & _ & -> & _).
  apply row_check_globals.
Qed.

Lemma late_win_reachable : reachable late_win.
Proof. apply (reachable_run late_script (mkLoop low_row true false)), low_row_reachable. Qed.

Lemma late_win_summary :
  gGameOver late_win = true /\ gLives late_win = 2 /\ gScore late_win = 90 /\
  forallb (fun a => negb (a_active a)) (aliens late_win) = true.
Proof. vm_compute. repeat split. Qed.

Lemma late_win_all_inactive : all_inactive late_win.
Proof.
  destruct late_win_summary as (_ & _ & _ & Hall).
  unfold all_inactive. revert Hall. generalize (aliens late_win).
  intros al Hall a Ha. rewrite forallb_forall in Hall.
  apply list_elem_of_In in Ha. apply negb_true_iff. exact (Hall a Ha).
Qed.

(** After a lost life the score of a won game is not 80: here the alien
    destroyed before the wave reset has brought 10 more. *)
Lemma fresh_game_score_counterexample :
  reachable late_win /\ ~ fresh_game_score late_win.
Proof.
  split; [apply late_win_reachable|]. intros H.
  specialize (H late_win_all_inactive).
  destruct late_win_summary as (_ & _ & Hs & _).
  rewrite Hs in H. discriminate H.
Qed.

(** C4 (amended): the collision step takes the bullets in index order; an
    active bullet is tested against the active aliens in index order and, at
    the first one it overlaps, that alien and the bullet are deactivated,
    the score grows by 10 and the scan stops; a bullet that overlaps no
    active alien, or is inactive, changes nothing.  This is the collision
    step of every frame update of a running game: it runs on the state [m]
    after the player motion, the bullet update and the formation step, the
    score after the frame is the score after it, which is the old score
    plus 10 per alien destroyed, and unless the wave is reset in the same
    frame the bullets and aliens after the frame are those after it.  So a
    frame never lowers the score.  When all 8 aliens are destroyed the
    score is 80 if no life was lost; after lost lives it is between 80 and
    220, since a wave reset keeps the score.  (Score plus 50 is
    representable in every run, see [runs_never_overflow].) *)
Theorem collision_spec s :
  wf s -> fits (gScore s) -> fits (gScore s + 10 * Z.of_nat MAX_BULLETS) ->
  collide s = fold_left (fun t b => shoot b t) (seq 0 MAX_BULLETS) s /\
  (forall b bl, bullets s !! b = Some bl ->
     (b_active bl = false -> shoot b s = s) /\
     (b_active bl = true ->
      (forall a, a ∈ aliens s -> hits bl a = false) -> shoot b s = s) /\
     (b_active bl = true ->
      forall i a, aliens s !! i = Some a -> hits bl a = true ->
        (forall j a', (j < i)%nat -> aliens s !! j = Some a' ->
                      hits bl a' = false) ->
        shoot b s =
          with_gScore (gScore s + 10)
            (with_bullets (<[b := set_b_active false bl]> (bullets s))
               (with_aliens (<[i := set_a_active false a]> (aliens s)) s)))) /\
  (dead (aliens s) <= dead (aliens (collide s)))%nat /\
  gScore (collide s) =
    gScore s +
    10 * (Z.of_nat (dead (aliens (collide s))) - Z.of_nat (dead (aliens s))) /\
  gScore s <= gScore (frame s) /\
  (gGameOver s = false ->
     let m := move_aliens (update_bullets (move_player s)) in
     gScore (frame s) = gScore (collide m) /\
     gScore (frame s) =
       gScore s +
       10 * (Z.of_nat (dead (aliens (collide m))) - Z.of_nat (dead (aliens s))) /\
     (gLives (frame s) = gLives s \/ gGameOver (frame s) = true ->
        bullets (frame s) = bullets (collide m) /\
        aliens (frame s) = aliens (collide m))) /\
  (reachable s -> all_inactive s ->
     80 <= gScore s <= 220 /\ (gLives s = 3 -> gScore s = 80)).
Proof.
  intros Hwf F0 F1. split; [apply collide_eq|].
  split; [|split; [|split; [|split; [|split]]]].
  - intros b bl Hb. unfold shoot.
    rewrite (list_lookup_total_correct _ _ _ Hb).
    split; [intros ->; reflexivity|]. split.
    + intros -> Hnone. rewrite scan_aliens_eq, first_hit_None; [reflexivity | apply Hwf |].
      rewrite (list_lookup_total_correct _ _ _ Hb). assumption.
    + intros -> i a Hi Hh Hlt.
      rewrite scan_aliens_eq, (first_hit_Some s b i a); try apply Hwf;
        try assumption;
        try (rewrite (list_lookup_total_correct _ _ _ Hb); assumption).
      unfold destroy.
      rewrite (alter_lookup_insert _ _ _ _ Hi), (alter_lookup_insert _ _ _ _ Hb).
      rewrite iadd_fits; [reflexivity|].
      unfold fits, INT_MIN, INT_MAX, MAX_BULLETS in *. lia.
  - apply collide_score; assumption.
  - apply collide_score; assumption.
  - apply frame_score; assumption.
  - intros Hover m.
    change (collide m) with (before_row_check s).
    destruct (before_row_check_score s Hwf F0 F1) as [_ Hsc].
    split; [apply frame_score_eq; assumption|]. split.
    + rewrite frame_score_eq by assumption. exact Hsc.
    + apply frame_after_collide; assumption.
  - intros Hs Hall.
    destruct (reachable_inv s Hs) as (_ & _ & _ & _ & Hsc & _).
    pose proof (reachable_score_dead s Hs) as Hlow.
    pose proof (reachable_score_inv s Hs) as [Hup _].
    rewrite (dead_all _ Hall), (proj2 Hwf) in Hlow, Hup, Hsc.
    change (Z.of_nat ALIEN_COUNT) with 8 in *.
    split; [lia|]. intros H3. rewrite (Hsc H3). reflexivity.
Qed.

Lemma collision_spec_witness :
  shoot 0 aim =
    with_gScore 10
      (with_bullets (<[0%nat := mkBullet 318 76 4 10 false]> (bullets aim))
         (with_aliens (<[4%nat := mkAlien 296 50 32 32 false]> (aliens aim))
            aim)) /\
  gScore won = 80.
Proof.
  split.
  - assert (Hwf : wf aim) by (split; reflexivity).
    destruct (collision_spec aim Hwf) as (_ & Hshoot & _); [in_range | in_range |].
    destruct (Hshoot 0%nat (mkBullet 318 76 4 10 true) eq_refl)
      as (_ & _ & Hhit).
    apply (Hhit eq_refl 4%nat (mkAlien 296 50 32 32 true));
      [reflexivity | vm_compute; reflexivity |].
    intros j a' Hj Ha'.
    destruct j as [|[|[|[|j]]]]; [..|lia];
      injection Ha' as <-; vm_compute; reflexivity.
  - assert (Hwf : wf won) by apply reachable_wf, won_reachable.
    destruct won_summary as (_ & Hl & Hs & _).
    destruct (collision_spec won Hwf) as (_ & _ & _ & _ & _ & _ & H80).
    + rewrite Hs. in_range.
    + rewrite Hs. in_range.
    + apply (H80 won_reachable won_all_inactive). exact Hl.
Defined.

(** * The library calls of the program *)

(** ** Calls in sequence *)

Lemma fst_bind {A B} (m : IO A) (k : A -> IO B) :
  fst (m ≫= k) = fst m ++ fst (k (snd m)).
Proof. unfold mbind, IO_bind. destruct (k (snd m)). reflexivity. Qed.

Lemma snd_bind {A B} (m : IO A) (k : A -> IO B) :
  snd (m ≫= k) = snd (k (snd m)).
Proof. unfold mbind, IO_bind. destruct (k (snd m)). reflexivity. Qed.

Lemma audit_app t1 t2 y :
  audit (t1 ++ t2) y = audit t1 y ≫= audit t2.
Proof.
  revert y. induction t1 as [|c t1 IH]; intros y; simpl; [reflexivity|].
  destruct (step c y); [apply IH | reflexivity].
Qed.

Lemma audit_for_each n i body y :
  (forall j, audit (fst (body j)) y = Some y) ->
  audit (fst (for_each n i body)) y = Some y.
Proof.
  intros H. revert i. induction n as [|n IH]; intros i; simpl; [reflexivity|].
  rewrite fst_bind, audit_app, H. simpl. apply IH.
Qed.

Lemma Image_eqb_refl x : Image_eqb x x = true.
Proof.
  destruct x as [p|m [r g b a]]; simpl; [apply String.eqb_refl|].
  unfold Color_eqb; simpl. rewrite String.eqb_refl, !Z.eqb_refl. reflexivity.
Qed.

Lemma alive_here x l : alive x (x :: l) = true.
Proof. unfold alive; simpl. rewrite Image_eqb_refl. reflexivity. Qed.

Lemma without_here x l : without x (x :: l) = without x l.
Proof. unfold without; simpl. rewrite Image_eqb_refl. reflexivity. Qed.

Lemma alive_nil x : alive x [] = false.
Proof. reflexivity. Qed.

Lemma without_nil x : without x [] = [].
Proof. reflexivity. Qed.

Lemma alive_text_image m c p l :
  alive (text m c) (image p :: l) = alive (text m c) l.
Proof. reflexivity. Qed.

Lemma without_text_image m c p l :
  without (text m c) (image p :: l) = image p :: without (text m c) l.
Proof. reflexivity. Qed.

Create Rewrite HintDb ledger.
#[local] Hint Rewrite alive_here without_here alive_nil without_nil
  alive_text_image without_text_image : ledger.

(** Runs the calls of a trace through [audit]. *)
Ltac ledger :=
  repeat (progress (cbn -[alive without]; autorewrite with ledger)).

(** ** A frame leaves nothing behind *)

Lemma render_trace env n l :
  fst (render env n (Some (image "ship.png")) (Some (image "alien.jpg")) l) =
    [SDL_SetRenderDrawColor color_black; SDL_RenderClear] ++
    scene_calls (game l) ++
    text_block env n (scoreBuf (game l)) color_white
      (fun size => mkRect 10 10 (fst size) (snd size)) ++
    (if gGameOver (game l) then
       text_block env n
         (if allAliensDead l && (gLives (game l) >? 0) then "Victory!"
          else "Game Over!") color_red
         (fun size =>
            mkRect (idiv (isub WINDOW_WIDTH (fst size)) 2)
                   (idiv (isub WINDOW_HEIGHT (snd size)) 2)
                   (fst size) (snd size)) ++
       text_block env n "Press R to restart" color_white
         (fun size =>
            mkRect (idiv (isub WINDOW_WIDTH (fst size)) 2)
                   (iadd (idiv (isub WINDOW_HEIGHT (snd size)) 2) 50)
                   (fst size) (snd size))
     else []) ++
    [SDL_RenderPresent].
Proof.
  unfold render, text_block, scene_calls. cbv zeta.
  destruct (renderText env n (scoreBuf (game l)) color_white (0, 0))
    as [t1 [tex1 [w1 h1]]].
  destruct (gGameOver (game l)).
  - destruct (renderText env n _ color_red (0, 0)) as [t2 [tex2 [w2 h2]]].
    destruct (renderText env n "Press R to restart" color_white (0, 0))
      as [t3 [tex3 [w3 h3]]].
    repeat (rewrite fst_bind; cbn [fst snd]).
    rewrite <- ?app_assoc. reflexivity.
  - repeat (rewrite fst_bind; cbn [fst snd]).
    rewrite <- ?app_assoc. reflexivity.
Qed.

Lemma audit_text env n m c dst :
  audit (text_block env n m c dst) running = Some running.
Proof.
  unfold text_block. rewrite fst_bind. unfold renderText.
  destruct (text_surface env n m) as [size|]; [|reflexivity].
  destruct (text_texture_ok env n m); ledger; reflexivity.
Qed.

Lemma audit_scene s : audit (scene_calls s) running = Some running.
Proof.
  unfold scene_calls. rewrite audit_app.
  change (audit [_; _] running) with (Some running). cbn [mbind option_bind].
  rewrite audit_app, audit_for_each;
    [|intros j; destruct (b_active (bullets s !!! j)); reflexivity].
  cbn [mbind option_bind]. apply audit_for_each.
  intros j; destruct (a_active (aliens s !!! j)); reflexivity.
Qed.

Lemma audit_render env n l :
  audit (fst (render env n (Some (image "ship.png"))
                (Some (image "alien.jpg")) l)) running = Some running.
Proof.
  rewrite render_trace, audit_app.
  change (audit [_; _] running) with (Some running). cbn [mbind option_bind].
  rewrite audit_app, audit_scene. cbn [mbind option_bind].
  rewrite audit_app, audit_text. cbn [mbind option_bind].
  rewrite audit_app.
  destruct (gGameOver (game l)); [|reflexivity].
  rewrite audit_app, audit_text. cbn [mbind option_bind].
  rewrite audit_text. reflexivity.
Qed.

(** ** The main loop with its rendering *)

Lemma main_loop_result env shipTex alienTex n batches l :
  snd (main_loop env shipTex alienTex n batches l) = run batches l.
Proof.
  revert n l. induction batches as [|events rest IH]; intros n l; simpl;
    [reflexivity|].
  destruct (gRunning l); [|reflexivity].
  rewrite snd_bind. apply IH.
Qed.

Lemma audit_main_loop env n batches l :
  audit (fst (main_loop env (Some (image "ship.png"))
                (Some (image "alien.jpg")) n batches l)) running =
    Some running.
Proof.
  revert n l. induction batches as [|events rest IH]; intros n l; simpl;
    [reflexivity|].
  destruct (gRunning l); [|reflexivity].
  rewrite fst_bind, audit_app, audit_render. apply IH.
Qed.

(** ** Start and cleanup *)

(** The calls and the result of [main] when every step of the start
    succeeds. *)
Lemma main_started env batches :
  starts env = true ->
  main env batches =
    let l := run batches start in
    ([SDL_Init true; IMG_Init true; TTF_Init true; SDL_CreateWindow true;
      SDL_CreateRenderer true;
      IMG_Load "ship.png" true;
      SDL_CreateTextureFromSurface (image "ship.png") true;
      SDL_FreeSurface (image "ship.png");
      IMG_Load "alien.jpg" true;
      SDL_CreateTextureFromSurface (image "alien.jpg") true;
      SDL_FreeSurface (image "alien.jpg");
      TTF_OpenFont true] ++
     fst (main_loop env (Some (image "ship.png")) (Some (image "alien.jpg"))
            0 batches start) ++
     (if gRunning l then []
      else [TTF_CloseFont;
            SDL_DestroyTexture (Some (image "alien.jpg"));
            SDL_DestroyTexture (Some (image "ship.png"));
            SDL_DestroyRenderer; SDL_DestroyWindow;
            TTF_Quit; IMG_Quit; SDL_Quit;
            printf (Final_Score (gScore (game l)))]),
     if gRunning l then None else Some 0).
Proof.
  unfold starts. rewrite !andb_true_iff.
  intros [[[[[[[H1 H2] H3] H4] H5] [H6 H7]] [H8 H9]] H10].
  unfold main, loadTexture. rewrite H1, H2, H3, H4, H5, H6, H7, H8, H9, H10.
  cbv zeta.
  rewrite <- (main_loop_result env (Some (image "ship.png"))
                (Some (image "alien.jpg")) 0 batches start).
  cbn -[main_loop].
  destruct (main_loop env _ _ 0 batches start) as [t l].
  cbn. destruct (gRunning l); cbn; rewrite ?app_nil_r; reflexivity.
Qed.

(** When a step of the start fails, the events are never looked at. *)
Lemma main_not_started env batches :
  starts env = false -> main env batches = main env [].
Proof.
  unfold starts, main, loadTexture.
  destruct (SDL_Init_ok env); [|reflexivity].
  destruct (IMG_Init_ok env); [|reflexivity].
  destruct (TTF_Init_ok env); [|reflexivity].
  destruct (window_ok env); [|reflexivity].
  destruct (renderer_ok env); [|reflexivity].
  destruct (IMG_Load_ok env "ship.png"),
    (image_texture_ok env "ship.png"),
    (IMG_Load_ok env "alien.jpg"),
    (image_texture_ok env "alien.jpg"); try reflexivity.
  destruct (font_ok env); [discriminate|reflexivity].
Qed.

(** X14: the exit status of the program: 1 when a step of the start fails,
    and then the events are never looked at and nothing is drawn; 0 when
    the main loop has ended, and then the last thing the program does is to
    print the final score; the loop ends only through the running flag.
    A failed start prints a diagnostic line, except when both images load
    and no texture can be made of one of them: then the program leaves
    with status 1 and prints nothing. *)
Theorem main_exit_status env batches :
  snd (main env batches) =
    (if starts env then
       if gRunning (run batches start) then None else Some 0
     else Some 1) /\
  (starts env = false ->
     main env batches = main env [] /\
     (SDL_RenderPresent ∉ fst (main env batches)) /\
     (printed (fst (main env batches)) = [] <->
      texture_creation_fails env = true)) /\
  (starts env = true -> gRunning (run batches start) = false ->
     last (fst (main env batches)) =
       Some (printf (Final_Score (gScore (game (run batches start)))))).
Proof.
  split; [|split].
  - destruct (starts env) eqn:Hs.
    + rewrite (main_started env batches Hs). reflexivity.
    + rewrite (main_not_started env batches Hs). clear batches.
      revert Hs. unfold starts, main, loadTexture.
      destruct (SDL_Init_ok env); [|reflexivity].
      destruct (IMG_Init_ok env); [|reflexivity].
      destruct (TTF_Init_ok env); [|reflexivity].
      destruct (window_ok env); [|reflexivity].
      destruct (renderer_ok env); [|reflexivity].
      destruct (IMG_Load_ok env "ship.png"),
        (image_texture_ok env "ship.png"),
        (IMG_Load_ok env "alien.jpg"),
        (image_texture_ok env "alien.jpg"); try reflexivity.
      destruct (font_ok env); [discriminate|reflexivity].
  - intros Hs. split; [apply main_not_started, Hs|].
    rewrite (main_not_started env batches Hs). clear batches.
    assert (Hend : forall t : list Call,
              existsb (fun c => match c with
                                | SDL_RenderPresent => true
                                | _ => false
                                end) t = false ->
              SDL_RenderPresent ∉ t).
    { intros t Ht Hin. apply list_elem_of_In in Hin.
      assert (existsb (fun c => match c with
                                | SDL_RenderPresent => true
                                | _ => false
                                end) t = true) as Hex
        by (apply existsb_exists; eexists; split; [exact Hin|reflexivity]).
      congruence. }
    revert Hs. unfold starts, texture_creation_fails, main, loadTexture.
    destruct (SDL_Init_ok env);
      [|intros _; split; [apply Hend; reflexivity|split; discriminate]].
    destruct (IMG_Init_ok env);
      [|intros _; split; [apply Hend; reflexivity|split; discriminate]].
    destruct (TTF_Init_ok env);
      [|intros _; split; [apply Hend; reflexivity|split; discriminate]].
    destruct (window_ok env);
      [|intros _; split; [apply Hend; reflexivity|split; discriminate]].
    destruct (renderer_ok env);
      [|intros _; split; [apply Hend; reflexivity|split; discriminate]].
    destruct (IMG_Load_ok env "ship.png"),
      (image_texture_ok env "ship.png"),
      (IMG_Load_ok env "alien.jpg"),
      (image_texture_ok env "alien.jpg");
      try (intros _; split;
           [apply Hend; reflexivity
           |split; first [discriminate | reflexivity]]).
    destruct (font_ok env); [discriminate|].
    intros _; split; [apply Hend; reflexivity|split; discriminate].
  - intros Hs Hr. rewrite (main_started env batches Hs). cbv zeta.
    rewrite Hr. cbn [fst]. rewrite !app_assoc.
    change [TTF_CloseFont; SDL_DestroyTexture (Some (image "alien.jpg"));
            SDL_DestroyTexture (Some (image "ship.png"));
            SDL_DestroyRenderer; SDL_DestroyWindow; TTF_Quit; IMG_Quit;
            SDL_Quit;
            printf (Final_Score (gScore (game (run batches start))))]
      with ([TTF_CloseFont; SDL_DestroyTexture (Some (image "alien.jpg"));
            SDL_DestroyTexture (Some (image "ship.png"));
            SDL_DestroyRenderer; SDL_DestroyWindow; TTF_Quit; IMG_Quit;
            SDL_Quit] ++
            [printf (Final_Score (gScore (game (run batches start))))]).
    rewrite app_assoc. apply last_snoc.
Qed.

(** Without textures the program leaves with status 1 and prints nothing;
    when everything works and the window is closed at once, it ends by
    printing the score 0. *)
Lemma main_exit_status_witness :
  snd (main no_textures [[SDL_QUIT]]) = Some 1 /\
  printed (fst (main no_textures [[SDL_QUIT]])) = [] /\
  last (fst (main fine [[SDL_QUIT]])) = Some (printf (Final_Score 0)).
Proof.
  destruct (main_exit_status no_textures [[SDL_QUIT]]) as (H1 & H2 & _).
  destruct (main_exit_status fine [[SDL_QUIT]]) as (_ & _ & H3).
  destruct (H2 eq_refl) as (_ & _ & H4).
  repeat apply conj;
    [exact H1 | apply H4; reflexivity | exact (H3 eq_refl eq_refl)].
Defined.

(** X15: the program leaves nothing behind and never uses what is not
    there, whatever the libraries answer and whatever the player does: the
    calls of [main] pass the check of [audit] from the state where nothing
    is initialised, and when the program ends, with either exit status,
    every library is shut down and the window, the renderer, the font and
    every surface and texture are released; while the loop runs, only the
    window, the renderer, the font and the two image textures are alive
    between two frames. *)
Theorem main_releases_everything env batches :
  audit (fst (main env batches)) off =
    Some (match snd (main env batches) with
          | Some _ => off
          | None => running
          end).
Proof.
  destruct (starts env) eqn:Hs.
  - rewrite (main_started env batches Hs). cbv zeta. cbn [fst snd].
    rewrite audit_app.
    match goal with
    | |- audit ?t off ≫= _ = _ => change (audit t off) with (Some running)
    end.
    cbn [mbind option_bind]. rewrite audit_app, audit_main_loop.
    cbn [mbind option_bind].
    destruct (gRunning (run batches start)); reflexivity.
  - rewrite (main_not_started env batches Hs). clear batches.
    revert Hs. unfold starts, main, loadTexture.
    destruct (SDL_Init_ok env); [|reflexivity].
    destruct (IMG_Init_ok env); [|reflexivity].
    destruct (TTF_Init_ok env); [|reflexivity].
    destruct (window_ok env); [|reflexivity].
    destruct (renderer_ok env); [|reflexivity].
    destruct (IMG_Load_ok env "ship.png"),
      (image_texture_ok env "ship.png"),
      (IMG_Load_ok env "alien.jpg"),
      (image_texture_ok env "alien.jpg"); try reflexivity.
    destruct (font_ok env); [discriminate|reflexivity].
Qed.

(** ** What a frame draws *)

Lemma for_each_trace n i body :
  fst (for_each n i body) = flat_map (fun j => fst (body j)) (seq i n).
Proof.
  revert i. induction n as [|n IH]; intros i; simpl; [reflexivity|].
  rewrite fst_bind, IH. reflexivity.
Qed.

Lemma seq_lookup_total {A} `{Inhabited A} (xs : list A) :
  map (fun j => xs !!! j) (seq 0 (length xs)) = xs.
Proof.
  induction xs as [|x xs IH]; simpl; [reflexivity|].
  f_equal. rewrite <- seq_shift, map_map. exact IH.
Qed.

Lemma for_each_array {A} `{Inhabited A} (xs : list A) (g : A -> IO unit) :
  fst (for_each (length xs) 0 (fun i => g (xs !!! i))) =
    flat_map (fun x => fst (g x)) xs.
Proof.
  rewrite for_each_trace. rewrite <- (seq_lookup_total xs) at 2.
  rewrite !flat_map_concat_map, map_map. reflexivity.
Qed.

Lemma drawn_app c t1 t2 :
  drawn c (t1 ++ t2) = drawn c t1 ++ drawn (color_after c t1) t2.
Proof.
  revert c. induction t1 as [|x t1 IH]; intros c; [reflexivity|].
  destruct x; cbn [app drawn color_after]; rewrite IH; reflexivity.
Qed.

Lemma color_after_app c t1 t2 :
  color_after c (t1 ++ t2) = color_after (color_after c t1) t2.
Proof.
  revert c. induction t1 as [|x t1 IH]; intros c; [reflexivity|].
  destruct x; cbn [app color_after]; apply IH.
Qed.

(** The rectangle of a centred text as the program computes it. *)
Lemma centred_eq down w h :
  0 <= w <= INT_MAX -> 0 <= h <= INT_MAX -> 0 <= down <= 50 ->
  mkRect (idiv (isub WINDOW_WIDTH w) 2)
         (iadd (idiv (isub WINDOW_HEIGHT h) 2) down) w h =
    centred down (w, h) /\
  idiv (isub WINDOW_HEIGHT h) 2 = (WINDOW_HEIGHT - h) ÷ 2.
Proof.
  unfold INT_MAX, WINDOW_WIDTH, WINDOW_HEIGHT. intros Hw Hh Hd.
  unfold centred, idiv, isub, iadd, fst, snd, WINDOW_WIDTH, WINDOW_HEIGHT.
  rewrite (wrap_fits (640 - w)) by (unfold fits, INT_MIN, INT_MAX; lia).
  rewrite (wrap_fits (480 - h)) by (unfold fits, INT_MIN, INT_MAX; lia).
  assert (Hq : forall a, - 2 ^ 31 < a <= 640 -> fits (a ÷ 2) /\ fits (a ÷ 2 + down)).
  { intros a Ha. unfold fits, INT_MIN, INT_MAX.
    pose proof (Z.quot_rem' a 2) as Hqr.
    pose proof (Z.rem_bound_abs a 2 ltac:(lia)) as Hr.
    lia. }
  destruct (Hq (640 - w) ltac:(lia)) as [Q1 _].
  destruct (Hq (480 - h) ltac:(lia)) as [Q2 Q3].
  rewrite (wrap_fits _ Q1), (wrap_fits _ Q2), (wrap_fits _ Q3).
  split; reflexivity.
Qed.

Lemma drawn_text env n m col c dst :
  drawn c (text_block env n m col dst) = shown env n m col dst.
Proof.
  unfold text_block, shown. rewrite fst_bind. unfold renderText.
  destruct (text_surface env n m) as [size|]; [|reflexivity].
  destruct (text_texture_ok env n m); reflexivity.
Qed.

Lemma color_after_text env n m col c dst :
  color_after c (text_block env n m col dst) = c.
Proof.
  unfold text_block. rewrite fst_bind. unfold renderText.
  destruct (text_surface env n m) as [size|]; [|reflexivity].
  destruct (text_texture_ok env n m); reflexivity.
Qed.

Lemma drawn_scene c s :
  wf s ->
  drawn c (scene_calls s) = scene s /\
  color_after c (scene_calls s) = color_white.
Proof.
  intros [Hb Ha]. unfold scene_calls, scene.
  rewrite <- Hb, <- Ha.
  rewrite (for_each_array (bullets s)
             (fun b => if b_active b
                       then perform (SDL_RenderFillRect
                              (mkRect (b_x b) (b_y b) (b_w b) (b_h b)))
                       else ret tt)).
  rewrite (for_each_array (aliens s)
             (fun a => if a_active a
                       then perform (SDL_RenderCopy (image "alien.jpg")
                              (mkRect (a_x a) (a_y a) (a_w a) (a_h a)))
                       else ret tt)).
  cbn [app drawn color_after].
  assert (Hbs : forall bs,
            drawn color_white
              (flat_map
                 (fun b => fst (if b_active b
                                then perform (SDL_RenderFillRect
                                       (mkRect (b_x b) (b_y b) (b_w b) (b_h b)))
                                else ret tt)) bs) =
              ((fun b => Filled color_white
                           (mkRect (b_x b) (b_y b) (b_w b) (b_h b)))
                 <$> List.filter b_active bs) /\
            color_after color_white
              (flat_map
                 (fun b => fst (if b_active b
                                then perform (SDL_RenderFillRect
                                       (mkRect (b_x b) (b_y b) (b_w b) (b_h b)))
                                else ret tt)) bs) = color_white).
  { induction bs as [|b bs [IH1 IH2]]; [split; reflexivity|].
    cbn [flat_map List.filter]. destruct (b_active b);
      cbn [fst perform ret app drawn color_after fmap list_fmap];
      rewrite ?IH1, ?IH2; split; reflexivity. }
  assert (Hal : forall al,
            drawn color_white
              (flat_map
                 (fun a => fst (if a_active a
                                then perform (SDL_RenderCopy (image "alien.jpg")
                                       (mkRect (a_x a) (a_y a) (a_w a) (a_h a)))
                                else ret tt)) al) =
              ((fun a => Copied (image "alien.jpg")
                           (mkRect (a_x a) (a_y a) (a_w a) (a_h a)))
                 <$> List.filter a_active al) /\
            color_after color_white
              (flat_map
                 (fun a => fst (if a_active a
                                then perform (SDL_RenderCopy (image "alien.jpg")
                                       (mkRect (a_x a) (a_y a) (a_w a) (a_h a)))
                                else ret tt)) al) = color_white).
  { induction al as [|a al [IH1 IH2]]; [split; reflexivity|].
    cbn [flat_map List.filter]. destruct (a_active a);
      cbn [fst perform ret app drawn color_after fmap list_fmap];
      rewrite ?IH1, ?IH2; split; reflexivity. }
  rewrite drawn_app, color_after_app.
  rewrite (proj1 (Hbs _)), (proj2 (Hbs _)), (proj1 (Hal _)), (proj2 (Hal _)).
  split; reflexivity.
Qed.

Lemma shown_ext env n m col dst dst' :
  (forall w h, text_surface env n m = Some (w, h) -> dst (w, h) = dst' (w, h)) ->
  shown env n m col dst = shown env n m col dst'.
Proof.
  intros H. unfold shown.
  destruct (text_surface env n m) as [[w h]|] eqn:E; [|reflexivity].
  rewrite (H w h eq_refl). reflexivity.
Qed.

(** X16: a frame draws the state, and nothing else, in this order: it
    clears the screen to black, copies the ship image, fills a white
    rectangle for every active bullet and copies the alien image for every
    active alien, each at its position and in its size; it copies the
    scoreboard text to (10, 10) and, when the game is over, the red message
    to the middle of the window and the white prompt 50 lower, each text
    only if it could be rendered; then it presents the frame.  Inactive
    bullets and aliens are not drawn.  In a run the ship and the aliens are
    drawn inside the window, and a bullet inside it except that it may
    reach over the top edge by its height. *)
Theorem render_draws_the_state env n l color :
  sizes_ok env -> reachable (game l) ->
  drawn color (fst (render env n (Some (image "ship.png"))
                      (Some (image "alien.jpg")) l)) = picture env n l /\
  (forall path r, Copied (image path) r ∈ picture env n l -> on_screen 0 r) /\
  (forall c r, Filled c r ∈ picture env n l ->
     c = color_white /\ on_screen BULLET_HEIGHT r).
Proof.
  intros Hsz Hs. pose proof (reachable_wf _ Hs) as Hwf.
  pose proof (reachable_in_bounds _ Hs) as (Hp & Hb & Ha & _).
  rewrite Forall_forall in Hb. rewrite Forall_forall in Ha.
  destruct Hp as (Hpw & Hph & Hpy & Hpx & _).
  assert (Hscene : forall d, d ∈ scene (game l) ->
            match d with
            | Copied (image _) r => on_screen 0 r
            | Filled c r => c = color_white /\ on_screen BULLET_HEIGHT r
            | _ => False
            end).
  { intros d Hin. unfold scene in Hin.
    apply elem_of_cons in Hin as [->|Hin].
    { unfold on_screen; cbn [r_x r_y r_w r_h].
      rewrite Hpw, Hph, Hpy. unfold PLAYER_WIDTH, PLAYER_HEIGHT, WINDOW_WIDTH,
        WINDOW_HEIGHT. lia. }
    apply elem_of_app in Hin as [Hin|Hin];
      apply list_elem_of_fmap in Hin as (x & -> & Hin);
      apply list_elem_of_In, filter_In in Hin as [Hin Hact];
      apply list_elem_of_In in Hin.
    - destruct (Hb x Hin) as (Hw & Hh & Hx & Hy & Hy').
      specialize (Hy' Hact). split; [reflexivity|].
      unfold on_screen; cbn [r_x r_y r_w r_h]. rewrite Hw, Hh.
      unfold BULLET_WIDTH, BULLET_HEIGHT, WINDOW_WIDTH, WINDOW_HEIGHT. lia.
    - destruct (Ha x Hin) as (Hw & Hh & Hx & Hy & _).
      unfold on_screen; cbn [r_x r_y r_w r_h]. rewrite Hw, Hh.
      unfold ALIEN_WIDTH, ALIEN_HEIGHT, WINDOW_WIDTH, WINDOW_HEIGHT. lia. }
  assert (Hrest : forall d, d ∈ picture env n l ->
            d ∈ scene (game l) \/
            match d with
            | Copied (image _) _ | Filled _ _ => False
            | _ => True
            end).
  { intros d Hin. unfold picture in Hin.
    apply elem_of_app in Hin as [Hin|Hin].
    { apply list_elem_of_singleton in Hin as ->. right. exact I. }
    apply elem_of_app in Hin as [Hin|Hin]; [left; exact Hin|]. right.
    assert (Hshown : forall m col dst, d ∈ shown env n m col dst ->
              match d with
              | Copied (image _) _ | Filled _ _ => False
              | _ => True
              end).
    { intros m col dst Hd. unfold shown in Hd.
      destruct (text_surface env n m); [|apply elem_of_nil in Hd; contradiction].
      destruct (text_texture_ok env n m);
        [|apply elem_of_nil in Hd; contradiction].
      apply list_elem_of_singleton in Hd as ->. exact I. }
    apply elem_of_app in Hin as [Hin|Hin]; [exact (Hshown _ _ _ Hin)|].
    apply elem_of_app in Hin as [Hin|Hin].
    - destruct (message l); [|apply elem_of_nil in Hin; contradiction].
      apply elem_of_app in Hin as [Hin|Hin]; exact (Hshown _ _ _ Hin).
    - apply list_elem_of_singleton in Hin as ->. exact I. }
  split; [|split].
  - rewrite render_trace. unfold picture, message.
    cbn [app drawn color_after].
    rewrite drawn_app, (proj1 (drawn_scene _ _ Hwf)),
      (proj2 (drawn_scene _ _ Hwf)).
    f_equal. f_equal.
    rewrite drawn_app, drawn_text, color_after_text.
    f_equal.
    destruct (gGameOver (game l)); [|reflexivity].
    rewrite drawn_app, color_after_app, drawn_app, !drawn_text,
      !color_after_text.
    rewrite (shown_ext env n _ color_red _ (centred 0)),
      (shown_ext env n "Press R to restart" color_white _ (centred 50)).
    + cbn [drawn].
      destruct (allAliensDead l && (gLives (game l) >? 0));
        rewrite <- ?app_assoc; reflexivity.
    + intros w h Hwh. destruct (Hsz _ _ _ _ Hwh) as [Hw Hh].
      destruct (centred_eq 50 w h Hw Hh ltac:(lia)) as [Hc _].
      cbn [fst snd]. exact Hc.
    + intros w h Hwh. destruct (Hsz _ _ _ _ Hwh) as [Hw Hh].
      destruct (centred_eq 0 w h Hw Hh ltac:(lia)) as [Hc Hy].
      rewrite <- Hc. cbn [fst snd]. f_equal. rewrite Hy. unfold iadd.
      rewrite Z.add_0_r, <- Hy. unfold idiv. symmetry.
      apply wrap_fits, wrap_is_int.
  - intros path r Hin. destruct (Hrest _ Hin) as [Hsc|[]].
    exact (Hscene _ Hsc).
  - intros c r Hin. destruct (Hrest _ Hin) as [Hsc|[]].
    exact (Hscene _ Hsc).
Qed.

(** The frame drawn in the state [low_row]: black, the ship, the eight
    aliens, the scoreboard. *)
Lemma render_draws_the_state_witness :
  drawn color_red
    (fst (render fine 0 (Some (image "ship.png"))
            (Some (image "alien.jpg")) (mkLoop low_row true false))) =
    picture fine 0 (mkLoop low_row true false).
Proof.
  apply (render_draws_the_state fine 0%nat (mkLoop low_row true false)
           color_red).
  - intros n m w h Hwh. injection Hwh as <- <-.
    unfold INT_MAX. split; lia.
  - exact low_row_reachable.
Defined.

(** ** The scoreboard text *)












